(** * Bulk e-mail sender: the request handler of [server/routes.ts], the
    schemas of [shared/schema.ts] and the two text helpers of the client page.

    Modelling choices.
    - JavaScript strings are Rocq strings (8-bit characters).  Every
      character class of the source's regular expressions is ASCII, so a
      character outside ASCII behaves like any other character that is in
      none of the classes, and a string has length zero exactly when it is
      empty.
    - The handler is written in a small monad over its own variables and
      the list of what it does to the outside (the response, the
      transporter); a statement completes normally, by [throw] or by
      [return], as in the source.
    - The mail service is an [Env]: what [verify] and the i-th [sendMail]
      of a batch answer.  [JSON.parse] and zod's e-mail test are
      parameters.  Logging ([console.error]) is left out.
    - A zod issue keeps its [code], [path] and [message]. *)

From Stdlib Require Import List String Ascii Bool Arith ZArith Lia.
From Stdlib Require Import Init.Byte.
Import ListNotations.

Set Implicit Arguments.
Open Scope string_scope.
Open Scope list_scope.
Open Scope nat_scope.
Set Warnings "-register-all".

(* ===================================================================== *)
(** * Part I: definitions                                                 *)
(* ===================================================================== *)

(** ** Characters and text *)

Definition text := list ascii.

Definition of_string (s : string) : text := list_ascii_of_string s.
Definition to_string (t : text) : string := string_of_list_ascii t.

Definition char_between (lo hi c : ascii) : bool :=
  (nat_of_ascii lo <=? nat_of_ascii c) && (nat_of_ascii c <=? nat_of_ascii hi).

Definition one_of (cs : list ascii) (c : ascii) : bool :=
  existsb (Ascii.eqb c) cs.

(** [a-zA-Z] *)
Definition cls_alpha (c : ascii) : bool :=
  char_between "a" "z" c || char_between "A" "Z" c.

(** [a-zA-Z0-9._%+-] *)
Definition cls_local (c : ascii) : bool :=
  char_between "a" "z" c || char_between "A" "Z" c || char_between "0" "9" c
  || one_of ["."; "_"; "%"; "+"; "-"]%char c.

(** [a-zA-Z0-9.-] *)
Definition cls_domain (c : ascii) : bool :=
  char_between "a" "z" c || char_between "A" "Z" c || char_between "0" "9" c
  || one_of ["."; "-"]%char c.

(** [^>] *)
Definition cls_not_gt (c : ascii) : bool := negb (Ascii.eqb c ">").

(** ** The fragment of JavaScript regular expressions the source uses

    Literal characters, a greedy bounded-below repetition of a character
    class ([+] is [Many 1], [*] is [Many 0], [{2,}] is [Many 2]) and
    concatenation. *)

Inductive regex : Type :=
| Chr (c : ascii)
| Many (min : nat) (cls : ascii -> bool)
| Cat (r1 r2 : regex).

(** Greedy repetition with backtracking: take one more character of the
    class when possible; only if the rest of the pattern then fails, stop
    here (allowed once [min] characters were taken). *)
Fixpoint many (cls : ascii -> bool) (min : nat) (s : text)
         (k : text -> option text) : option text :=
  let stop := if min =? 0 then k s else None in
  match s with
  | c :: s' =>
      if cls c then
        match many cls (pred min) s' k with
        | Some r => Some r
        | None => stop
        end
      else stop
  | [] => stop
  end.

(** The backtracking matcher, with the rest of the pattern as a
    continuation; the result is the input left after the whole match. *)
Fixpoint exec (r : regex) (s : text) (k : text -> option text) : option text :=
  match r with
  | Chr c =>
      match s with
      | x :: s' => if Ascii.eqb x c then k s' else None
      | [] => None
      end
  | Many n cls => many cls n s k
  | Cat r1 r2 => exec r1 s (fun s1 => exec r2 s1 k)
  end.

(** One attempt at a fixed start position: the matched text, if any. *)
Definition match_at (r : regex) (s : text) : option text :=
  match exec r s (fun rest => Some rest) with
  | Some rest => Some (firstn (List.length s - List.length rest) s)
  | None => None
  end.

(** All matches of a global regex, left to right.  [skip] counts the
    characters of the current match still to step over (the [lastIndex]
    of the regex is ahead of the scan position); after an empty match the
    scan advances by one character. *)
Fixpoint match_all_from (r : regex) (s : text) (skip : nat) : list text :=
  match s with
  | [] =>
      match skip, match_at r [] with
      | O, Some m => [m]
      | _, _ => []
      end
  | _ :: s' =>
      match skip with
      | S n => match_all_from r s' n
      | O =>
          match match_at r s with
          | Some m => m :: match_all_from r s' (List.length m - 1)
          | None => match_all_from r s' 0
          end
      end
  end.

(** [String.prototype.match] with a [g] regex: [null] when nothing matches. *)
Definition String_match (s : text) (r : regex) : option (list text) :=
  match match_all_from r s 0 with
  | [] => None
  | ms => Some ms
  end.

(** [String.prototype.replace] with a [g] regex and a constant replacement. *)
Fixpoint replace_from (r : regex) (by_ : text) (s : text) (skip : nat) : text :=
  match s with
  | [] =>
      match skip, match_at r [] with
      | O, Some _ => by_
      | _, _ => []
      end
  | c :: s' =>
      match skip with
      | S n => replace_from r by_ s' n
      | O =>
          match match_at r s with
          | Some [] => by_ ++ c :: replace_from r by_ s' 0
          | Some m => by_ ++ replace_from r by_ s' (List.length m - 1)
          | None => c :: replace_from r by_ s' 0
          end
      end
  end.

Definition String_replace (s : text) (r : regex) (by_ : text) : text :=
  replace_from r by_ s 0.

Definition text_eqb (a b : text) : bool :=
  if list_eq_dec ascii_dec a b then true else false.

(** [new Set(iterable)]: elements in insertion order, an element already
    present is not added again. *)
Definition Set_add (seen : list text) (x : text) : list text :=
  if existsb (text_eqb x) seen then seen else seen ++ [x].

Definition Set_of (xs : list text) : list text := fold_left Set_add xs [].

(** [Array.from(set)] lists the set in insertion order. *)
Definition Array_from (set : list text) : list text := set.

Definition nl : ascii := ascii_of_nat 10.

(** ** The client page *)

(** /[a-zA-Z0-9._%+-]+@[a-zA-Z0-9.-]+\.[a-zA-Z]{2,}/g *)
Definition emailRegex : regex :=
  Cat (Many 1 cls_local)
      (Cat (Chr "@")
           (Cat (Many 1 cls_domain)
                (Cat (Chr ".") (Many 2 cls_alpha)))).

Definition parseEmails (t : text) : list text :=
  match String_match t emailRegex with
  | Some matches => Array_from (Set_of matches)
  | None => []
  end.

(** /<[^>]*>/g *)
Definition tagRegex : regex :=
  Cat (Chr "<") (Cat (Many 0 cls_not_gt) (Chr ">")).

(** ** The normalizer, said directly *)

(** The texts a pattern describes. *)
Fixpoint lang (r : regex) (w : text) : Prop :=
  match r with
  | Chr c => w = [c]
  | Many n cls => n <= List.length w /\ forallb cls w = true
  | Cat r1 r2 => exists u v, w = u ++ v /\ lang r1 u /\ lang r2 v
  end.

(** A syntactically valid address: a text the e-mail pattern describes. *)
Definition valid_email (a : text) : Prop := lang emailRegex a.

(** The pattern matches the whole of [s]. *)
Definition full_match (r : regex) (s : text) : bool :=
  match exec r s (fun rest => match rest with [] => Some [] | _ => None end) with
  | Some _ => true
  | None => false
  end.

(** Line breaks, commas, semicolons and white space. *)
Definition is_separator (c : ascii) : bool :=
  one_of [ " "; ","; ";"; nl; ascii_of_nat 13; ascii_of_nat 9 ]%char c.

(** The text ends, or goes on with a character outside the class. *)
Definition outside (cls : ascii -> bool) (t : text) : Prop :=
  match t with
  | [] => True
  | c :: _ => cls c = false
  end.

Definition is_at (c : ascii) : bool := Ascii.eqb c "@".

(** [listing t addrs]: the text [t] is the addresses [addrs], in this
    order, among text that is no address:
    - separators, in any number and of any kind;
    - any other character that is not one of a local part;
    - words of local-part characters that no [@] follows.
    After an address the text ends or goes on with a character that is
    not one of a domain (a separator, for one). *)
Inductive listing : text -> list text -> Prop :=
| listing_end : listing [] []
| listing_separator c t addrs :
    is_separator c = true -> listing t addrs -> listing (c :: t) addrs
| listing_other c t addrs :
    cls_local c = false -> listing t addrs -> listing (c :: t) addrs
| listing_word w t addrs :
    forallb cls_local w = true -> outside cls_local t -> outside is_at t ->
    listing t addrs -> listing (w ++ t) addrs
| listing_address a t addrs :
    full_match emailRegex a = true -> outside cls_domain t -> listing t addrs ->
    listing (a ++ t) (a :: addrs).

(** The distinct elements of a list, each at its first occurrence. *)
Fixpoint first_occurrences (l : list text) : list text :=
  match l with
  | [] => []
  | x :: rest => x :: filter (fun y => negb (text_eqb y x)) (first_occurrences rest)
  end.

(** ** The scan of a text for addresses, said directly *)

(** [a] starts the text [s]. *)
Definition starts (s a : text) : Prop := exists post, s = a ++ post.

(** [a] is the longest syntactically valid address that starts [s]. *)
Definition longest_address_at (s a : text) : Prop :=
  valid_email a /\ starts s a
  /\ forall a', valid_email a' -> starts s a' -> List.length a' <= List.length a.

(** No syntactically valid address starts [s]. *)
Definition no_address_at (s : text) : Prop :=
  forall a, valid_email a -> ~ starts s a.

(** [scanned t l]: reading [t] from left to right, [l] is the addresses
    met: where a valid address starts, the longest one that starts there
    is taken and the reading goes on after it; where none starts, one
    character is passed over. *)
Inductive scanned : text -> list text -> Prop :=
| scanned_end : scanned [] []
| scanned_pass c t l :
    no_address_at (c :: t) -> scanned t l -> scanned (c :: t) l
| scanned_address a t l :
    longest_address_at (a ++ t) a -> scanned t l -> scanned (a ++ t) (a :: l).

(** A text with two addresses glued together. *)
Definition glued_text : text := of_string "a@x.comb@y.org".

Definition alice : text := of_string "alice@x.com".
Definition bob : text := of_string "bob@x.com".
Definition carol : text := of_string "carol@x.com".

(** The text of the example: two addresses after a comma and a space, a
    line break, two addresses after a space, a semicolon, one address. *)
Definition example_text : text :=
  of_string "alice@x.com, bob@x.com" ++ nl :: of_string "alice@x.com bob@x.com;carol@x.com".

(** ** JSON values and zod issues ([shared/schema.ts])

    [JSON.parse] yields a [json]; a JavaScript value that may also be
    [undefined] is an [option json].  A number is only stored and compared
    by type here, so it is kept as an integer. *)

Inductive json : Type :=
| JNull
| JBool (b : bool)
| JNum (n : Z)
| JStr (s : string)
| JArr (items : list json)
| JObj (members : list (string * json)).

(** Property access [obj[key]]: the last member written under a key wins. *)
Fixpoint prop (members : list (string * json)) (key : string) : option json :=
  match members with
  | [] => None
  | (k, v) :: rest =>
      match prop rest key with
      | Some v' => Some v'
      | None => if String.eqb k key then Some v else None
      end
  end.

(** An object literal [{ k1: v1, ... }] whose values may be [undefined]. *)
Fixpoint object_literal (fields : list (string * option json)) : list (string * json) :=
  match fields with
  | [] => []
  | (k, Some v) :: rest => (k, v) :: object_literal rest
  | (_, None) :: rest => object_literal rest
  end.

Inductive path_elem : Type :=
| PKey (k : string)
| PIdx (i : nat).

Record ZodIssue : Type := mkIssue {
  code : string;
  path : list path_elem;
  message : string
}.

Inductive SafeParseReturn (A : Type) : Type :=
| ParseSuccess (data : A)
| ParseError (errors : list ZodIssue).
Arguments ParseSuccess {A} data.
Arguments ParseError {A} errors.

Definition issues {A} (r : SafeParseReturn A) : list ZodIssue :=
  match r with
  | ParseSuccess _ => []
  | ParseError es => es
  end.

(** A schema that fails names at least one issue. *)
Definition informative {A} (r : SafeParseReturn A) : Prop :=
  forall es, r = ParseError es -> es <> [].

(** A schema checks a value found at a path. *)
Definition Schema (A : Type) : Type :=
  list path_elem -> option json -> SafeParseReturn A.

Definition typeName (v : option json) : string :=
  match v with
  | None => "undefined"
  | Some JNull => "null"
  | Some (JBool _) => "boolean"
  | Some (JNum _) => "number"
  | Some (JStr _) => "string"
  | Some (JArr _) => "array"
  | Some (JObj _) => "object"
  end.

Definition invalid_type (expected : string) (p : list path_elem)
           (v : option json) : ZodIssue :=
  mkIssue "invalid_type" p
          match v with
          | None => "Required"
          | _ => ("Expected " ++ expected ++ ", received " ++ typeName v)%string
          end.

(** zod keeps checking after an issue: the issues of all parts add up. *)
Definition pure {A} (a : A) : SafeParseReturn A := ParseSuccess a.

Definition ap {A B} (f : SafeParseReturn (A -> B)) (x : SafeParseReturn A)
  : SafeParseReturn B :=
  match f, x with
  | ParseSuccess g, ParseSuccess a => ParseSuccess (g a)
  | _, _ => ParseError (issues f ++ issues x)
  end.

Notation "f <*> x" := (ap f x) (at level 51, left associativity).

Definition StringCheck : Type := list path_elem -> string -> list ZodIssue.

(** [.min(1, msg)] *)
Definition min1 (msg : string) : StringCheck :=
  fun p s => if String.length s <? 1 then [mkIssue "too_small" p msg] else [].

(** [z.string()] followed by its checks, all of which are run. *)
Definition z_string (checks : list StringCheck) : Schema string :=
  fun p v =>
    match v with
    | Some (JStr s) =>
        match flat_map (fun chk => chk p s) checks with
        | [] => ParseSuccess s
        | es => ParseError es
        end
    | _ => ParseError [invalid_type "string" p v]
    end.

(** [z.number()] *)
Definition z_number : Schema Z :=
  fun p v =>
    match v with
    | Some (JNum n) => ParseSuccess n
    | _ => ParseError [invalid_type "number" p v]
    end.

(** [.default(d)]: [undefined] is replaced by [d] before parsing. *)
Definition z_default {A} (inner : Schema A) (d : json) : Schema A :=
  fun p v =>
    match v with
    | None => inner p (Some d)
    | Some _ => inner p v
    end.

(** [.optional()] *)
Definition z_optional {A} (inner : Schema A) : Schema (option A) :=
  fun p v =>
    match v with
    | None => ParseSuccess None
    | Some _ => pure Some <*> inner p v
    end.

Fixpoint parse_items {A} (elem : Schema A) (p : list path_elem) (i : nat)
         (items : list json) : SafeParseReturn (list A) :=
  match items with
  | [] => ParseSuccess []
  | x :: rest =>
      pure cons <*> elem (p ++ [PIdx i]) (Some x)
                <*> parse_items elem p (S i) rest
  end.

(** [z.array(elem)], with [.min(1, msg)] when [min_msg] is given. *)
Definition z_array {A} (elem : Schema A) (min_msg : option string)
  : Schema (list A) :=
  fun p v =>
    match v with
    | Some (JArr items) =>
        let too_small :=
          match min_msg with
          | Some msg =>
              if List.length items <? 1 then [mkIssue "too_small" p msg] else []
          | None => []
          end in
        pure (fun _ xs => xs)
          <*> match too_small with [] => ParseSuccess tt | es => ParseError es end
          <*> parse_items elem p 0 items
    | _ => ParseError [invalid_type "array" p v]
    end.

Record SMTPConfig : Type := {
  username : string;
  password : string;
  host : string;
  port : Z;
  fromEmail : string
}.

Record SendEmailRequest : Type := {
  smtpConfig : SMTPConfig;
  recipients : list string;
  subject : string;
  htmlBody : string;
  textBody : option string;
  cc : option (list string);
  bcc : option (list string)
}.

Inductive Status : Type := pending | sending | sent | failed.

Record EmailStatus : Type := {
  email : string;
  status : Status;
  error : option string
}.

Record SendEmailResponse : Type := {
  resp_results : list EmailStatus;
  resp_totalSent : nat;
  resp_totalFailed : nat
}.

Section Schemas.

(** zod's e-mail test ([.email()]) is the library's own regular expression;
    the schemas are stated over any such test. *)
Variable is_email : string -> bool.

Definition email_check : StringCheck :=
  fun p s => if is_email s then [] else [mkIssue "invalid_string" p "Invalid email"].

Definition z_object {A} (shape : list path_elem -> (string -> option json) -> SafeParseReturn A)
  : Schema A :=
  fun p v =>
    match v with
    | Some (JObj members) => shape p (prop members)
    | _ => ParseError [invalid_type "object" p v]
    end.

Definition field {A} (s : Schema A) (p : list path_elem)
           (get : string -> option json) (key : string) : SafeParseReturn A :=
  s (p ++ [PKey key]) (get key).

Definition smtpConfigSchema : Schema SMTPConfig :=
  z_object (fun p get =>
    pure Build_SMTPConfig
      <*> field (z_string [min1 "Username is required"]) p get "username"
      <*> field (z_string [min1 "Password is required"]) p get "password"
      <*> field (z_default (z_string []) (JStr "smtp.zeptomail.in")) p get "host"
      <*> field (z_default z_number (JNum 587)) p get "port"
      <*> field (z_default (z_string [email_check])
                           (JStr "crmsupport@legacylifespaces.com")) p get "fromEmail").

Definition sendEmailRequestSchema : Schema SendEmailRequest :=
  z_object (fun p get =>
    pure Build_SendEmailRequest
      <*> field smtpConfigSchema p get "smtpConfig"
      <*> field (z_array (z_string [email_check])
                         (Some "At least one recipient is required")) p get "recipients"
      <*> field (z_string [min1 "Subject is required"]) p get "subject"
      <*> field (z_string [min1 "Email body is required"]) p get "htmlBody"
      <*> field (z_optional (z_string [])) p get "textBody"
      <*> field (z_optional (z_array (z_string [email_check]) None)) p get "cc"
      <*> field (z_optional (z_array (z_string [email_check]) None)) p get "bcc").

(** The schemas of the [recipients] field and of the [cc] and [bcc] fields. *)
Definition recipientsSchema : Schema (list string) :=
  z_array (z_string [email_check]) (Some "At least one recipient is required").

Definition addressesSchema : Schema (option (list string)) :=
  z_optional (z_array (z_string [email_check]) None).

Definition safeParse {A} (s : Schema A) (v : json) : SafeParseReturn A :=
  s [] (Some v).

End Schemas.

(** ** The request handler ([server/routes.ts]) *)

(** What a [catch] clause can receive. *)
Inductive thrown : Type :=
| ErrorObj (msg : string)
| ZodErrorObj (msg : string) (errors : list ZodIssue)
| OtherValue.

Definition instanceof_Error (e : thrown) : bool :=
  match e with
  | ErrorObj _ | ZodErrorObj _ _ => true
  | OtherValue => false
  end.

Definition error_message (e : thrown) : string :=
  match e with
  | ErrorObj m | ZodErrorObj m _ => m
  | OtherValue => ""
  end.

Record MulterFile : Type := {
  originalname : string;
  mimetype : string;
  buffer : list byte
}.

Record ReqBody : Type := {
  smtpConfigStr : option string;
  recipientsStr : option string;
  body_subject : option string;
  body_htmlBody : option string;
  body_textBody : option string;
  ccStr : option string;
  bccStr : option string
}.

Record Request : Type := {
  body : ReqBody;
  files : option (list MulterFile)
}.

Record Attachment : Type := {
  filename : string;
  content : list byte
}.

(** The transporter made by [nodemailer.createTransport]. *)
Record Transporter : Type := {
  t_host : string;
  t_port : Z;
  t_secure : bool;
  t_user : string;
  t_pass : string
}.

Record MailOptions : Type := {
  m_from : string;
  m_to : string;
  m_subject : string;
  m_html : string;
  m_text : string;
  m_cc : option (list string);
  m_bcc : option (list string);
  m_attachments : list Attachment
}.

(** The body of a [res.status(n).json(...)] answer. *)
Record JsonBody : Type := {
  jb_message : string;
  jb_errors : option (list ZodIssue)
}.

(** One [data: ...] unit written on the event stream. *)
Inductive StreamUnit : Type :=
| UStatus (s : EmailStatus)
| UComplete (data : SendEmailResponse)
| UError (msg : string).

(** What the handler does to the outside, in order. *)
Inductive event : Type :=
| EvCreateTransport (t : Transporter)
| EvVerify (t : Transporter)
| EvSendMail (t : Transporter) (m : MailOptions)
| EvSetHeader (name value : string)
| EvWrite (u : StreamUnit)
| EvEnd
| EvJson (code : nat) (b : JsonBody).

(** The mail service: whether [verify] rejects, and whether the [i]-th
    [sendMail] of the batch rejects ([None]: the promise resolves). *)
Record Env : Type := {
  verify_result : Transporter -> option thrown;
  sendMail_result : nat -> Transporter -> MailOptions -> option thrown
}.

(** The handler's variables and what it has done so far. *)
Record HState : Type := mkState {
  sseStarted : bool;
  attachments : list Attachment;
  results : list EmailStatus;
  totalSent : nat;
  totalFailed : nat;
  sendCalls : nat;
  trace : list event
}.

Definition init_state : HState := mkState false [] [] 0 0 0 [].

(** How a statement completes: normally, by [throw], or by [return]. *)
Inductive Completion (A : Type) : Type :=
| Normal (a : A)
| Throw (e : thrown)
| Return.
Arguments Normal {A} a.
Arguments Throw {A} e.
Arguments Return {A}.

Definition M (A : Type) : Type := HState -> Completion A * HState.

Definition ret {A} (a : A) : M A := fun st => (Normal a, st).

Definition bind {A B} (m : M A) (k : A -> M B) : M B :=
  fun st =>
    match m st with
    | (Normal a, st') => k a st'
    | (Throw e, st') => (Throw e, st')
    | (Return, st') => (Return, st')
    end.

Notation "x <- m ;; k" := (bind m (fun x => k))
  (at level 61, m at next level, right associativity).
Notation "m ;; k" := (bind m (fun _ => k))
  (at level 61, right associativity).

Definition throw {A} (e : thrown) : M A := fun st => (Throw e, st).
Definition return_ {A} : M A := fun st => (Return, st).

(** [try { m } catch (e) { h e }] *)
Definition try_catch {A} (m : M A) (h : thrown -> M A) : M A :=
  fun st =>
    match m st with
    | (Throw e, st') => h e st'
    | r => r
    end.

(** [for (const x of xs) { f x }] *)
Fixpoint for_of {A} (xs : list A) (f : A -> M unit) : M unit :=
  match xs with
  | [] => ret tt
  | x :: rest => f x ;; for_of rest f
  end.

Definition emit (e : event) : M unit :=
  fun st => (Normal tt,
             mkState (sseStarted st) (attachments st) (results st)
                     (totalSent st) (totalFailed st) (sendCalls st)
                     (trace st ++ [e])).

Definition set_sseStarted (b : bool) : M unit :=
  fun st => (Normal tt,
             mkState b (attachments st) (results st)
                     (totalSent st) (totalFailed st) (sendCalls st) (trace st)).

Definition get_sseStarted : M bool := fun st => (Normal (sseStarted st), st).

Definition attachments_push (a : Attachment) : M unit :=
  fun st => (Normal tt,
             mkState (sseStarted st) (attachments st ++ [a]) (results st)
                     (totalSent st) (totalFailed st) (sendCalls st) (trace st)).

Definition get_attachments : M (list Attachment) :=
  fun st => (Normal (attachments st), st).

Definition results_push (s : EmailStatus) : M unit :=
  fun st => (Normal tt,
             mkState (sseStarted st) (attachments st) (results st ++ [s])
                     (totalSent st) (totalFailed st) (sendCalls st) (trace st)).

Definition incr_totalSent : M unit :=
  fun st => (Normal tt,
             mkState (sseStarted st) (attachments st) (results st)
                     (S (totalSent st)) (totalFailed st) (sendCalls st) (trace st)).

Definition incr_totalFailed : M unit :=
  fun st => (Normal tt,
             mkState (sseStarted st) (attachments st) (results st)
                     (totalSent st) (S (totalFailed st)) (sendCalls st) (trace st)).

Definition get_response : M SendEmailResponse :=
  fun st => (Normal (Build_SendEmailResponse (results st) (totalSent st) (totalFailed st)),
             st).

Definition res_json (code : nat) (b : JsonBody) : M unit := emit (EvJson code b).
Definition res_setHeader (name value : string) : M unit := emit (EvSetHeader name value).
Definition res_write (u : StreamUnit) : M unit := emit (EvWrite u).
Definition res_end : M unit := emit EvEnd.

Definition createTransport (t : Transporter) : M Transporter :=
  emit (EvCreateTransport t) ;; ret t.

(** [await transporter.verify()] *)
Definition transporter_verify (env : Env) (t : Transporter) : M unit :=
  emit (EvVerify t) ;;
  match verify_result env t with
  | None => ret tt
  | Some e => throw e
  end.

(** [await transporter.sendMail(mailOptions)] *)
Definition transporter_sendMail (env : Env) (t : Transporter) (m : MailOptions)
  : M unit :=
  fun st =>
    let st' := mkState (sseStarted st) (attachments st) (results st)
                       (totalSent st) (totalFailed st) (S (sendCalls st))
                       (trace st ++ [EvSendMail t m]) in
    match sendMail_result env (sendCalls st) t m with
    | None => (Normal tt, st')
    | Some e => (Throw e, st')
    end.

Definition allowedFileTypes : list string :=
  [ "application/pdf";
    "image/jpeg";
    "image/png";
    "image/gif";
    "application/msword";
    "application/vnd.openxmlformats-officedocument.wordprocessingml.document";
    "application/vnd.ms-excel";
    "application/vnd.openxmlformats-officedocument.spreadsheetml.sheet";
    "text/plain";
    "text/csv" ]%string.

Definition includes (xs : list string) (x : string) : bool :=
  existsb (String.eqb x) xs.

Definition dquote : string := String (ascii_of_nat 34) EmptyString.

Definition file_type_message (file : MulterFile) : string :=
  ("File type " ++ mimetype file ++ " is not allowed for file " ++ dquote
   ++ originalname file ++ dquote
   ++ ". Allowed types: PDF, images, Word, Excel, text files.")%string.

(** [a || b] on strings: the empty string and [undefined] are falsy. *)
Definition or_else (a : option string) (b : string) : string :=
  match a with
  | Some s => if String.eqb s "" then b else s
  | None => b
  end.

Definition truthy (a : option string) : bool :=
  match a with
  | Some s => negb (String.eqb s "")
  | None => false
  end.

Definition String_replace_tags (s : string) : string :=
  to_string (String_replace (of_string s) tagRegex []).

Section Handler.

(** [JSON.parse] and zod's e-mail test are library code: the handler is
    stated over any parser (which returns a value or throws) and any test. *)
Variable JSON_parse : string -> json + thrown.
Variable is_email : string -> bool.

(** [JSON.parse(x)] converts its argument to a string first, so
    [undefined] is parsed as the text [undefined]. *)
Definition JSON_parse_m (x : option string) : M json :=
  match JSON_parse (match x with Some s => s | None => "undefined" end) with
  | inl v => ret v
  | inr e => throw e
  end.

Definition parse_fields (b : ReqBody)
  : M (json * json * option json * option json) :=
  smtpConfig <- JSON_parse_m (smtpConfigStr b) ;;
  recipients <- JSON_parse_m (recipientsStr b) ;;
  cc <- (if truthy (ccStr b)
         then v <- JSON_parse_m (ccStr b) ;; ret (Some v)
         else ret None) ;;
  bcc <- (if truthy (bccStr b)
          then v <- JSON_parse_m (bccStr b) ;; ret (Some v)
          else ret None) ;;
  ret (smtpConfig, recipients, cc, bcc).

Definition requestData (b : ReqBody)
           (parsed : json * json * option json * option json) : json :=
  let '(smtpConfig, recipients, cc, bcc) := parsed in
  JObj (object_literal
          [ ("smtpConfig", Some smtpConfig);
            ("recipients", Some recipients);
            ("subject", option_map JStr (body_subject b));
            ("htmlBody", option_map JStr (body_htmlBody b));
            ("textBody", option_map JStr (body_textBody b));
            ("cc", cc);
            ("bcc", bcc) ]).

Definition mailOptions (validatedData : SendEmailRequest)
           (atts : list Attachment) (recipient : string) : MailOptions :=
  {| m_from := fromEmail (smtpConfig validatedData);
     m_to := recipient;
     m_subject := subject validatedData;
     m_html := htmlBody validatedData;
     m_text := or_else (textBody validatedData)
                       (String_replace_tags (htmlBody validatedData));
     m_cc := cc validatedData;
     m_bcc := bcc validatedData;
     m_attachments := atts |}.

Definition failure_reason (error : thrown) : string :=
  if instanceof_Error error then error_message error else "Unknown error".

(** The body of the loop over the recipients. *)
Definition send_one (env : Env) (validatedData : SendEmailRequest)
           (transporter : Transporter) (recipient : string) : M unit :=
  try_catch
    (res_write (UStatus {| email := recipient; status := sending; error := None |}) ;;
     atts <- get_attachments ;;
     transporter_sendMail env transporter (mailOptions validatedData atts recipient) ;;
     let sentStatus := {| email := recipient; status := sent; error := None |} in
     results_push sentStatus ;;
     incr_totalSent ;;
     res_write (UStatus sentStatus))
    (fun error =>
       let failedStatus :=
         {| email := recipient; status := failed;
            error := Some (failure_reason error) |} in
       results_push failedStatus ;;
       incr_totalFailed ;;
       res_write (UStatus failedStatus)).

Definition collect_file (file : MulterFile) : M unit :=
  if negb (includes allowedFileTypes (mimetype file)) then
    res_json 400 {| jb_message := file_type_message file; jb_errors := None |} ;;
    return_
  else
    attachments_push {| filename := originalname file; content := buffer file |}.

Definition transporter_of (validatedData : SendEmailRequest) : Transporter :=
  {| t_host := host (smtpConfig validatedData);
     t_port := port (smtpConfig validatedData);
     t_secure := false;
     t_user := username (smtpConfig validatedData);
     t_pass := password (smtpConfig validatedData) |}.

(** The [try] block of the handler. *)
Definition handler_try (env : Env) (req : Request) : M unit :=
  parsed <- try_catch (parse_fields (body req))
                      (fun parseError =>
                         res_json 400 {| jb_message := "Invalid JSON data in request";
                                         jb_errors := None |} ;;
                         return_) ;;
  match safeParse (sendEmailRequestSchema is_email) (requestData (body req) parsed) with
  | ParseError errs =>
      res_json 400 {| jb_message := "Invalid request data"; jb_errors := Some errs |} ;;
      return_
  | ParseSuccess validatedData =>
      match files req with
      | Some fs => for_of fs collect_file
      | None => ret tt
      end ;;
      transporter <- createTransport (transporter_of validatedData) ;;
      try_catch (transporter_verify env transporter)
                (fun error =>
                   res_json 401
                     {| jb_message := "SMTP authentication failed. Please check your credentials.";
                        jb_errors := None |} ;;
                   return_) ;;
      res_setHeader "Content-Type" "text/event-stream" ;;
      res_setHeader "Cache-Control" "no-cache" ;;
      res_setHeader "Connection" "keep-alive" ;;
      set_sseStarted true ;;
      for_of (recipients validatedData) (send_one env validatedData transporter) ;;
      response <- get_response ;;
      res_write (UComplete response) ;;
      res_end
  end.

(** The handler: the [try] block under its [catch] clause. *)
Definition handler (env : Env) (req : Request) : M unit :=
  try_catch (handler_try env req)
    (fun error =>
       started <- get_sseStarted ;;
       if started then
         res_write (UError (if instanceof_Error error then error_message error
                            else "Failed to send emails")) ;;
         res_end
       else
         match error with
         | ZodErrorObj _ errs =>
             res_json 400 {| jb_message := "Invalid request data";
                             jb_errors := Some errs |} ;;
             return_
         | _ =>
             res_json 500 {| jb_message := if instanceof_Error error
                                           then error_message error
                                           else "Failed to send emails";
                             jb_errors := None |}
         end).

(** Everything one request makes the handler do, in order. *)
Definition run (env : Env) (req : Request) : list event :=
  trace (snd (handler env req init_state)).

End Handler.

(** ** The client's submission ([onSubmit]) *)

Record EmailFormData : Type := {
  smtpUsername : string;
  smtpPassword : string;
  form_subject : string;
  form_htmlBody : string;
  recipientsText : string;
  form_cc : option string;
  form_bcc : option string
}.

(** A value appended to a [FormData]: a string, or a file.  A file is
    held by what is posted of it: the file name and the content type
    written in the body, and its bytes. *)
Inductive FormValue : Type :=
| FormString (s : string)
| FormFile (f : MulterFile).

(** The entries of a [FormData], in the order they were appended. *)
Definition FormData : Type := list (string * FormValue).

(** [formData.append(name, value)] *)
Definition append (formData : FormData) (name : string) (v : FormValue) : FormData :=
  formData ++ [(name, v)].

Section Client.

(** [JSON.stringify], the library's. *)
Variable JSON_stringify : json -> string.

Definition stringify_addresses (l : list text) : string :=
  JSON_stringify (JArr (map (fun a => JStr (to_string a)) l)).

Definition client_smtpConfig (data : EmailFormData) : json :=
  JObj [ ("username", JStr (smtpUsername data));
         ("password", JStr (smtpPassword data));
         ("host", JStr "smtp.zeptomail.in");
         ("port", JNum 587);
         ("fromEmail", JStr "crmsupport@legacylifespaces.com") ].

(** What [onSubmit] posts, given the form, the recipients parsed from the
    recipients box and the chosen files: the form data it has appended
    to, in order; nothing is posted when there is no recipient. *)
Definition onSubmit (data : EmailFormData) (recipients : list text)
           (attachments : list MulterFile) : option FormData :=
  match recipients with
  | [] => None
  | _ :: _ =>
      let formData : FormData := [] in
      let formData :=
        append formData "smtpConfig" (FormString (JSON_stringify (client_smtpConfig data))) in
      let formData :=
        append formData "recipients" (FormString (stringify_addresses recipients)) in
      let formData := append formData "subject" (FormString (form_subject data)) in
      let formData := append formData "htmlBody" (FormString (form_htmlBody data)) in
      let formData :=
        append formData "textBody"
               (FormString (String_replace_tags (form_htmlBody data))) in
      let ccEmails := parseEmails (of_string (or_else (form_cc data) "")) in
      let bccEmails := parseEmails (of_string (or_else (form_bcc data) "")) in
      let formData :=
        if 0 <? List.length ccEmails
        then append formData "cc" (FormString (stringify_addresses ccEmails))
        else formData in
      let formData :=
        if 0 <? List.length bccEmails
        then append formData "bcc" (FormString (stringify_addresses bccEmails))
        else formData in
      Some (fold_left (fun formData file => append formData "attachments" (FormFile file))
                      attachments formData)
  end.

End Client.

(** ** From the page to the handler: the posted body and the upload
    middleware ([upload.array("attachments", 10)], routes.ts 8-16) *)

Definition cr : ascii := ascii_of_nat 13.

(** In the posted body the browser writes a string value with each of its
    line breaks as CR LF: a CR that no LF follows and a LF that no CR
    precedes both become CR LF. *)
Fixpoint crlf (s : text) : text :=
  match s with
  | [] => []
  | c :: s' =>
      if Ascii.eqb c cr then
        match s' with
        | c' :: s'' => if Ascii.eqb c' nl then cr :: nl :: crlf s''
                       else cr :: nl :: crlf s'
        | [] => [cr; nl]
        end
      else if Ascii.eqb c nl then cr :: nl :: crlf s'
      else c :: crlf s'
  end.

Definition posted_value (s : string) : string := to_string (crlf (of_string s)).

(** [limits.fileSize], in bytes, and the count given to [upload.array]. *)
Definition fileSize : N := 10 * 1024 * 1024.
Definition maxCount : nat := 10.

(** The string values of a form, as they are posted. *)
Fixpoint form_strings (formData : FormData) : list string :=
  match formData with
  | [] => []
  | (_, FormString s) :: rest => posted_value s :: form_strings rest
  | (_, FormFile _) :: rest => form_strings rest
  end.

(** The files of a form, each with the name it was appended under. *)
Fixpoint form_files (formData : FormData) : list (string * MulterFile) :=
  match formData with
  | [] => []
  | (name, FormFile f) :: rest => (name, f) :: form_files rest
  | (_, FormString _) :: rest => form_files rest
  end.

(** [req.body[name]]: the string posted under a name.  A name posted more
    than once would reach the handler as an array; the page posts every
    name once, and a [ReqBody] holds strings only. *)
Fixpoint form_string (formData : FormData) (name : string) : option string :=
  match formData with
  | [] => None
  | (k, FormString s) :: rest =>
      if String.eqb k name then Some (posted_value s) else form_string rest name
  | (_, FormFile _) :: rest => form_string rest name
  end.

Definition named (f : MulterFile) : bool := negb (String.eqb (originalname f) "").

Section Upload.

(** Two things are decided by the upload library and not by the route:
    whether a file of exactly [fileSize] bytes is refused (its versions
    differ), and which string values its own default limits let through. *)
Variable refuses_at_limit : bool.
Variable field_fits : string -> bool.

Definition file_fits (f : MulterFile) : bool :=
  let size := N.of_nat (List.length (buffer f)) in
  if refuses_at_limit then (size <? fileSize)%N else (size <=? fileSize)%N.

(** The middleware of the route.  A file part that carries no file name
    is passed over.  The request is handed to the handler when every
    file was appended under [attachments], there are at most [maxCount]
    files, every file fits and every string value fits; otherwise the
    middleware fails ([None]) and the handler is not called. *)
Definition upload_array (formData : FormData) : option Request :=
  let posted_files := filter (fun nf => named (snd nf)) (form_files formData) in
  if forallb (fun nf => String.eqb (fst nf) "attachments") posted_files
     && (List.length posted_files <=? maxCount)
     && forallb (fun nf => file_fits (snd nf)) posted_files
     && forallb field_fits (form_strings formData)
  then
    Some {| body :=
              {| smtpConfigStr := form_string formData "smtpConfig";
                 recipientsStr := form_string formData "recipients";
                 body_subject := form_string formData "subject";
                 body_htmlBody := form_string formData "htmlBody";
                 body_textBody := form_string formData "textBody";
                 ccStr := form_string formData "cc";
                 bccStr := form_string formData "bcc" |};
            files := Some (map snd posted_files) |}
  else None.

End Upload.

(** ** The handler read as a function of the request

    These definitions restate, without the monad, what each stage of the
    handler computes; Part II proves that [run] agrees with them. *)

Section Stages.

Variable JSON_parse : string -> json + thrown.
Variable is_email : string -> bool.

(** The fields after [JSON.parse], or what the parser threw. *)
Definition parsed_fields (b : ReqBody) : Completion (json * json * option json * option json) :=
  fst (parse_fields JSON_parse b init_state).

Definition to_attachment (file : MulterFile) : Attachment :=
  {| filename := originalname file; content := buffer file |}.

Definition disallowed (file : MulterFile) : bool :=
  negb (includes allowedFileTypes (mimetype file)).

Definition files_of (req : Request) : list MulterFile :=
  match files req with
  | Some fs => fs
  | None => []
  end.

(** The outcome of the checks that come before any use of the network:
    the 400 answer, or the validated request with its attachments. *)
Definition validate (req : Request) : JsonBody + (SendEmailRequest * list Attachment) :=
  match parsed_fields (body req) with
  | Normal parsed =>
      match safeParse (sendEmailRequestSchema is_email) (requestData (body req) parsed) with
      | ParseError errs =>
          inl {| jb_message := "Invalid request data"; jb_errors := Some errs |}
      | ParseSuccess validatedData =>
          match find disallowed (files_of req) with
          | Some file => inl {| jb_message := file_type_message file; jb_errors := None |}
          | None => inr (validatedData, map to_attachment (files_of req))
          end
      end
  | _ => inl {| jb_message := "Invalid JSON data in request"; jb_errors := None |}
  end.

End Stages.

Section Dispatch.

Variable env : Env.
Variable validatedData : SendEmailRequest.
Variable atts : list Attachment.

Let t := transporter_of validatedData.

(** The terminal status of the recipient served by the [i]-th send. *)
Definition terminal_status (i : nat) (recipient : string) : EmailStatus :=
  match sendMail_result env i t (mailOptions validatedData atts recipient) with
  | None => {| email := recipient; status := sent; error := None |}
  | Some e => {| email := recipient; status := failed; error := Some (failure_reason e) |}
  end.

Definition recipient_events (i : nat) (recipient : string) : list event :=
  [ EvWrite (UStatus {| email := recipient; status := sending; error := None |});
    EvSendMail t (mailOptions validatedData atts recipient);
    EvWrite (UStatus (terminal_status i recipient)) ].

Fixpoint loop_events (i : nat) (rs : list string) : list event :=
  match rs with
  | [] => []
  | r :: rest => recipient_events i r ++ loop_events (S i) rest
  end.

Fixpoint loop_results (i : nat) (rs : list string) : list EmailStatus :=
  match rs with
  | [] => []
  | r :: rest => terminal_status i r :: loop_results (S i) rest
  end.

End Dispatch.

Definition Status_eqb (a b : Status) : bool :=
  match a, b with
  | pending, pending | sending, sending | sent, sent | failed, failed => true
  | _, _ => false
  end.

Definition count_status (s : Status) (l : list EmailStatus) : nat :=
  List.length (filter (fun x => Status_eqb (status x) s) l).

Definition sse_headers : list event :=
  [ EvSetHeader "Content-Type" "text/event-stream";
    EvSetHeader "Cache-Control" "no-cache";
    EvSetHeader "Connection" "keep-alive" ].

Definition auth_failed_body : JsonBody :=
  {| jb_message := "SMTP authentication failed. Please check your credentials.";
     jb_errors := None |}.

(** The summary written at the end of the loop. *)
Definition summary (env : Env) (validatedData : SendEmailRequest)
           (atts : list Attachment) : SendEmailResponse :=
  let rs := loop_results env validatedData atts 0 (recipients validatedData) in
  {| resp_results := rs;
     resp_totalSent := count_status sent rs;
     resp_totalFailed := count_status failed rs |}.

(** The status units written on the stream, in order. *)
Fixpoint written_statuses (tr : list event) : list EmailStatus :=
  match tr with
  | [] => []
  | EvWrite (UStatus s) :: rest => s :: written_statuses rest
  | _ :: rest => written_statuses rest
  end.

(** The messages handed to [sendMail], in order. *)
Fixpoint sent_messages (tr : list event) : list MailOptions :=
  match tr with
  | [] => []
  | EvSendMail _ m :: rest => m :: sent_messages rest
  | _ :: rest => sent_messages rest
  end.

Definition is_terminal (s : EmailStatus) : bool :=
  Status_eqb (status s) sent || Status_eqb (status s) failed.

Definition is_sending (s : EmailStatus) : bool := Status_eqb (status s) sending.

(** The [complete] and [error] units written on the stream, in order. *)
Fixpoint final_units (tr : list event) : list StreamUnit :=
  match tr with
  | [] => []
  | EvWrite (UStatus _) :: rest => final_units rest
  | EvWrite u :: rest => u :: final_units rest
  | _ :: rest => final_units rest
  end.

(** ** Reasons for which a request is not valid *)

Section Invalid.

Variable JSON_parse : string -> json + thrown.
Variable is_email : string -> bool.

Definition valid_address (v : json) : bool :=
  match v with
  | JStr s => is_email s
  | _ => false
  end.

Inductive invalid_request (req : Request) : Prop :=
| invalid_json (e : thrown) :
    parsed_fields JSON_parse (body req) = Throw e -> invalid_request req
| invalid_schema parsed :
    parsed_fields JSON_parse (body req) = Normal parsed ->
    issues (safeParse (sendEmailRequestSchema is_email)
                      (requestData (body req) parsed)) <> [] ->
    invalid_request req
| no_recipient sc cc bcc :
    parsed_fields JSON_parse (body req) = Normal (sc, JArr [], cc, bcc) ->
    invalid_request req
| bad_recipient sc items cc bcc :
    parsed_fields JSON_parse (body req) = Normal (sc, JArr items, cc, bcc) ->
    forallb valid_address items = false ->
    invalid_request req
| missing_subject :
    body_subject (body req) = None -> invalid_request req
| missing_htmlBody :
    body_htmlBody (body req) = None -> invalid_request req
| missing_credentials (e : thrown) :
    smtpConfigStr (body req) = None ->
    JSON_parse "undefined" = inr e ->
    invalid_request req
| disallowed_attachment file :
    In file (files_of req) ->
    includes allowedFileTypes (mimetype file) = false ->
    invalid_request req.

End Invalid.

(** No event of a trace uses the network or the stream. *)
Definition quiet (e : event) : bool :=
  match e with
  | EvJson _ _ => true
  | _ => false
  end.

Definition zip_file : MulterFile :=
  {| originalname := "all.zip"; mimetype := "application/zip"; buffer := [] |}.

(** ** Every violated constraint, said directly

    The constraints of the request, one by one, each with the issue its
    violation is reported as; no constraint is skipped because another one
    is violated. *)

Section Constraints.

Variable JSON_parse : string -> json + thrown.
Variable is_email : string -> bool.

Definition string_violations (checks : list StringCheck) (p : list path_elem)
           (v : option json) : list ZodIssue :=
  match v with
  | Some (JStr s) => flat_map (fun chk => chk p s) checks
  | _ => [invalid_type "string" p v]
  end.

Definition number_violations (p : list path_elem) (v : option json) : list ZodIssue :=
  match v with
  | Some (JNum _) => []
  | _ => [invalid_type "number" p v]
  end.

Fixpoint address_violations (p : list path_elem) (i : nat) (items : list json)
  : list ZodIssue :=
  match items with
  | [] => []
  | x :: rest =>
      string_violations [email_check is_email] (p ++ [PIdx i]) (Some x)
      ++ address_violations p (S i) rest
  end.

Definition address_list_violations (min_msg : option string) (p : list path_elem)
           (v : option json) : list ZodIssue :=
  match v with
  | Some (JArr items) =>
      match min_msg, items with
      | Some msg, [] => [mkIssue "too_small" p msg]
      | _, _ => []
      end ++ address_violations p 0 items
  | _ => [invalid_type "array" p v]
  end.

Definition optional_violations (inner : list path_elem -> option json -> list ZodIssue)
           (p : list path_elem) (v : option json) : list ZodIssue :=
  match v with
  | None => []
  | Some _ => inner p v
  end.

(** A member with a default is checked like any other when it is given;
    when it is absent the default stands in for it. *)
Definition default_violations (inner : list path_elem -> option json -> list ZodIssue)
           (d : json) (p : list path_elem) (v : option json) : list ZodIssue :=
  match v with
  | None => inner p (Some d)
  | Some _ => inner p v
  end.

Definition config_violations (p : list path_elem) (v : option json) : list ZodIssue :=
  match v with
  | Some (JObj members) =>
      string_violations [min1 "Username is required"] (p ++ [PKey "username"])
                        (prop members "username")
      ++ string_violations [min1 "Password is required"] (p ++ [PKey "password"])
                           (prop members "password")
      ++ default_violations (string_violations []) (JStr "smtp.zeptomail.in")
                            (p ++ [PKey "host"]) (prop members "host")
      ++ default_violations number_violations (JNum 587)
                            (p ++ [PKey "port"]) (prop members "port")
      ++ default_violations (string_violations [email_check is_email])
                            (JStr "crmsupport@legacylifespaces.com")
                            (p ++ [PKey "fromEmail"]) (prop members "fromEmail")
  | _ => [invalid_type "object" p v]
  end.

(** All the schema constraints the fields of a request violate. *)
Definition violations (b : ReqBody) (parsed : json * json * option json * option json)
  : list ZodIssue :=
  let '(sc, rc, ccv, bccv) := parsed in
  config_violations [PKey "smtpConfig"] (Some sc)
  ++ address_list_violations (Some "At least one recipient is required")
                             [PKey "recipients"] (Some rc)
  ++ string_violations [min1 "Subject is required"] [PKey "subject"]
                       (option_map JStr (body_subject b))
  ++ string_violations [min1 "Email body is required"] [PKey "htmlBody"]
                       (option_map JStr (body_htmlBody b))
  ++ optional_violations (string_violations []) [PKey "textBody"]
                         (option_map JStr (body_textBody b))
  ++ optional_violations (address_list_violations None) [PKey "cc"] ccv
  ++ optional_violations (address_list_violations None) [PKey "bcc"] bccv.

(** What a request can violate. *)
Inductive Violation : Type :=
| VJson
| VSchema (i : ZodIssue)
| VFileType (file : MulterFile).

Definition violated (req : Request) (v : Violation) : Prop :=
  match v with
  | VJson => exists e, parsed_fields JSON_parse (body req) = Throw e
  | VSchema i =>
      exists parsed, parsed_fields JSON_parse (body req) = Normal parsed
                     /\ In i (violations (body req) parsed)
  | VFileType file => In file (files_of req) /\ disallowed file = true
  end.

(** What a 400 answer tells the caller. *)
Definition reports (b : JsonBody) (v : Violation) : Prop :=
  match v with
  | VJson => jb_message b = "Invalid JSON data in request"
  | VSchema i => exists errs, jb_errors b = Some errs /\ In i errs
  | VFileType file => jb_message b = file_type_message file
  end.

End Constraints.


(** ** Removing tags, said directly

    A [<] that has a [>] somewhere after it opens a tag; the tag runs
    through the first [>] that follows, and is dropped.  Every other
    character is kept.  [inside] tells whether the scan is within a tag. *)

Definition has_gt (s : text) : bool := existsb (fun c => Ascii.eqb c ">") s.

Fixpoint remove_tags (inside : bool) (s : text) : text :=
  match s with
  | [] => []
  | c :: s' =>
      if inside then
        if Ascii.eqb c ">" then remove_tags false s' else remove_tags true s'
      else if Ascii.eqb c "<" && has_gt s' then remove_tags true s'
      else c :: remove_tags false s'
  end.

Definition without_tags (s : string) : string :=
  to_string (remove_tags false (of_string s)).

(** The position of the first [>]. *)
Fixpoint index_gt (s : text) : option nat :=
  match s with
  | [] => None
  | c :: s' => if Ascii.eqb c ">" then Some 0 else option_map S (index_gt s')
  end.

(** ** Sample library instances, to run the handler on examples

    [sample_parse] reads a few literal JSON texts the way [JSON.parse]
    does and throws on every other text; [sample_is_email] is the client's
    own pattern taken over the whole string. *)

Definition q (s : string) : string := (dquote ++ s ++ dquote)%string.

Definition sample_texts : list (string * json) :=
  [ (("{" ++ q "username" ++ ":" ++ q "u" ++ "," ++ q "password" ++ ":" ++ q "p" ++ "}")%string,
     JObj [("username", JStr "u"); ("password", JStr "p")]);
    (("{" ++ q "username" ++ ":" ++ q "u" ++ "," ++ q "password" ++ ":" ++ q "p" ++ ","
      ++ q "fromEmail" ++ ":" ++ q "ceo@bank.example" ++ "}")%string,
     JObj [("username", JStr "u"); ("password", JStr "p");
           ("fromEmail", JStr "ceo@bank.example")]);
    (("[" ++ q "a@x.com" ++ "," ++ q "b@x.com" ++ "]")%string,
     JArr [JStr "a@x.com"; JStr "b@x.com"]);
    (("[" ++ q "a@x.com" ++ "," ++ q "b@x.com" ++ "," ++ q "c@x.com" ++ "]")%string,
     JArr [JStr "a@x.com"; JStr "b@x.com"; JStr "c@x.com"]);
    ("[]", JArr []);
    ("{}", JObj []) ].

Fixpoint assoc (table : list (string * json)) (s : string) : option json :=
  match table with
  | [] => None
  | (k, v) :: rest => if String.eqb k s then Some v else assoc rest s
  end.

Definition sample_parse (s : string) : json + thrown :=
  match assoc sample_texts s with
  | Some v => inl v
  | None => inr (ErrorObj "Unexpected token")
  end.

Definition sample_is_email (s : string) : bool :=
  match match_at emailRegex (of_string s) with
  | Some m => text_eqb m (of_string s)
  | None => false
  end.

Definition config_text : string := fst (nth 0 sample_texts ("", JNull)).
Definition config_text_from : string := fst (nth 1 sample_texts ("", JNull)).
Definition two_recipients_text : string := fst (nth 2 sample_texts ("", JNull)).
Definition three_recipients_text : string := fst (nth 3 sample_texts ("", JNull)).

Definition sample_body (config recips : string) : ReqBody :=
  {| smtpConfigStr := Some config;
     recipientsStr := Some recips;
     body_subject := Some "Hello";
     body_htmlBody := Some "<p>Hi <b>there</b></p>";
     body_textBody := None;
     ccStr := None;
     bccStr := None |}.

Definition sample_request : Request :=
  {| body := sample_body config_text two_recipients_text; files := Some [] |}.

(** A mail service that accepts the credentials and every message. *)
Definition env_ok : Env :=
  {| verify_result := fun _ => None; sendMail_result := fun _ _ _ => None |}.

(** A mail service that rejects the [n]-th message of a batch with [e]. *)
Definition env_reject (n : nat) (e : thrown) : Env :=
  {| verify_result := fun _ => None;
     sendMail_result := fun i _ _ => if i =? n then Some e else None |}.

(** A mail service that refuses the credentials. *)
Definition env_bad_login : Env :=
  {| verify_result := fun _ => Some (ErrorObj "Invalid login");
     sendMail_result := fun _ _ _ => None |}.

(** No recipient, and an attachment of a type that is not allowed. *)
Definition doubly_invalid_request : Request :=
  {| body := sample_body config_text "[]"; files := Some [zip_file] |}.

(** What [sample_request] is validated to. *)
Definition sample_validated : SendEmailRequest :=
  {| smtpConfig := {| username := "u"; password := "p";
                      host := "smtp.zeptomail.in"; port := 587;
                      fromEmail := "crmsupport@legacylifespaces.com" |};
     recipients := ["a@x.com"; "b@x.com"];
     subject := "Hello";
     htmlBody := "<p>Hi <b>there</b></p>";
     textBody := None;
     cc := None;
     bcc := None |}.

(** The stream is open once the event-stream header is set. *)
Definition stream_opened (tr : list event) : Prop :=
  In (EvSetHeader "Content-Type" "text/event-stream") tr.

Definition is_final_unit (u : StreamUnit) : Prop :=
  match u with
  | UComplete _ | UError _ => True
  | UStatus _ => False
  end.

(** [e] makes or verifies no transporter, and sends through [t] only. *)
Definition within_session (t : Transporter) (e : event) : Prop :=
  match e with
  | EvCreateTransport _ | EvVerify _ => False
  | EvSendMail t' _ => t' = t
  | _ => True
  end.

(** [sample_request] with a [fromEmail] member in its [smtpConfig] field. *)
Definition request_with_from : Request :=
  {| body := sample_body config_text_from two_recipients_text; files := Some [] |}.

Definition three_recipients_request : Request :=
  {| body := sample_body config_text three_recipients_text; files := Some [] |}.

(** The terminal statuses written on the stream, in order. *)
Definition outcomes (tr : list event) : list EmailStatus :=
  filter is_terminal (written_statuses tr).

(** ** The response schemas ([shared/schema.ts]) and the JSON the handler writes *)

Definition status_name (s : Status) : string :=
  match s with
  | pending => "pending"
  | sending => "sending"
  | sent => "sent"
  | failed => "failed"
  end.

Definition status_values : list Status := [pending; sending; sent; failed].

(** ['pending' | 'sending' | 'sent' | 'failed'] *)
Definition joined_status_values : string :=
  "'pending' | 'sending' | 'sent' | 'failed'".

(** [z.enum(["pending", "sending", "sent", "failed"])] *)
Definition z_enum_status : Schema Status :=
  fun p v =>
    match v with
    | Some (JStr s) =>
        match find (fun x => String.eqb (status_name x) s) status_values with
        | Some x => ParseSuccess x
        | None =>
            ParseError
              [mkIssue "invalid_enum_value" p
                       ("Invalid enum value. Expected " ++ joined_status_values
                        ++ ", received '" ++ s ++ "'")%string]
        end
    | _ => ParseError [invalid_type joined_status_values p v]
    end.

Section ResponseSchemas.

Variable is_email : string -> bool.

Definition emailStatusSchema : Schema EmailStatus :=
  z_object (fun p get =>
    pure Build_EmailStatus
      <*> field (z_string [email_check is_email]) p get "email"
      <*> field z_enum_status p get "status"
      <*> field (z_optional (z_string [])) p get "error").

Fixpoint parse_statuses (p : list path_elem) (i : nat) (items : list json)
  : SafeParseReturn (list EmailStatus) :=
  match items with
  | [] => ParseSuccess []
  | x :: rest =>
      pure cons <*> emailStatusSchema (p ++ [PIdx i]) (Some x)
                <*> parse_statuses p (S i) rest
  end.

(** [z.array(emailStatusSchema)] *)
Definition z_array_statuses : Schema (list EmailStatus) :=
  fun p v =>
    match v with
    | Some (JArr items) => parse_statuses p 0 items
    | _ => ParseError [invalid_type "array" p v]
    end.

(** The parsed response: its results and its two totals, as numbers. *)
Definition sendEmailResponseSchema : Schema (list EmailStatus * Z * Z) :=
  z_object (fun p get =>
    pure (fun results totalSent totalFailed => (results, totalSent, totalFailed))
      <*> field z_array_statuses p get "results"
      <*> field z_number p get "totalSent"
      <*> field z_number p get "totalFailed").

End ResponseSchemas.

(** The object literals the handler hands to [JSON.stringify]; a member
    whose value is [undefined] is left out. *)
Definition status_json (s : EmailStatus) : json :=
  JObj (object_literal
          [ ("email", Some (JStr (email s)));
            ("status", Some (JStr (status_name (status s))));
            ("error", option_map JStr (error s)) ]).

Definition response_json (r : SendEmailResponse) : json :=
  JObj [ ("results", JArr (map status_json (resp_results r)));
         ("totalSent", JNum (Z.of_nat (resp_totalSent r)));
         ("totalFailed", JNum (Z.of_nat (resp_totalFailed r))) ].

Definition unit_json (u : StreamUnit) : json :=
  match u with
  | UStatus s => status_json s
  | UComplete data => JObj [("type", JStr "complete"); ("data", response_json data)]
  | UError msg => JObj [("type", JStr "error"); ("message", JStr msg)]
  end.

(** The units written on the stream, in order. *)
Fixpoint written_units (tr : list event) : list StreamUnit :=
  match tr with
  | [] => []
  | EvWrite u :: rest => u :: written_units rest
  | _ :: rest => written_units rest
  end.

(** A message up to its recipient. *)
Definition with_to (m : MailOptions) (recipient : string) : MailOptions :=
  {| m_from := m_from m; m_to := recipient; m_subject := m_subject m;
     m_html := m_html m; m_text := m_text m; m_cc := m_cc m; m_bcc := m_bcc m;
     m_attachments := m_attachments m |}.

Definition is_json_answer (e : event) : bool :=
  match e with
  | EvJson _ _ => true
  | _ => false
  end.

Definition is_end (e : event) : bool :=
  match e with
  | EvEnd => true
  | _ => false
  end.

Definition is_stream_event (e : event) : bool :=
  match e with
  | EvSetHeader _ _ | EvWrite _ | EvEnd => true
  | _ => false
  end.

(** ** The recipients box and the attachment list of the client page

    From here on a character is read as a UTF-16 code unit below 256, so
    that the no-break space (160) is one character. *)

(** [\s], and the characters [trim] removes: tab, line feed, vertical tab,
    form feed, carriage return, space and no-break space. *)
Definition cls_space (c : ascii) : bool :=
  char_between (ascii_of_nat 9) (ascii_of_nat 13) c
  || one_of [ " "%char; ascii_of_nat 160 ] c.

(** [[\s,;\n]] *)
Definition cls_split (c : ascii) : bool :=
  cls_space c || one_of [ ","%char; ";"%char; nl ] c.

(** /[\s,;\n]+/ *)
Definition splitRegex : regex := Many 1 cls_split.

(** [String.prototype.split] with a regex: [cur] is the piece begun and
    not yet closed, [skip] the characters of the current separator still
    to step over.  A separator that matches the empty text cuts between
    characters. *)
Fixpoint split_from (r : regex) (s : text) (skip : nat) (cur : text) : list text :=
  match s with
  | [] => [cur]
  | c :: s' =>
      match skip with
      | S n => split_from r s' n cur
      | O =>
          match match_at r s with
          | Some (_ :: m) => cur :: split_from r s' (List.length m) []
          | Some [] =>
              match cur with
              | [] => split_from r s' 0 [c]
              | _ => cur :: split_from r s' 0 [c]
              end
          | None => split_from r s' 0 (cur ++ [c])
          end
      end
  end.

Definition String_split (s : text) (r : regex) : list text :=
  match s with
  | [] => match match_at r [] with Some _ => [] | None => [[]] end
  | _ => split_from r s 0 []
  end.

Fixpoint trimStart (s : text) : text :=
  match s with
  | c :: s' => if cls_space c then trimStart s' else s
  | [] => []
  end.

(** [String.prototype.trim] *)
Definition trim (s : text) : text := rev (trimStart (rev (trimStart s))).

(** [Array.prototype.join] *)
Fixpoint join (sep : text) (l : list text) : text :=
  match l with
  | [] => []
  | [x] => x
  | x :: rest => x ++ sep ++ join sep rest
  end.

(** [Array.prototype.filter] with a callback that also reads the index. *)
Fixpoint filter_index {A} (f : A -> nat -> bool) (i : nat) (l : list A) : list A :=
  match l with
  | [] => []
  | x :: rest => if f x i then x :: filter_index f (S i) rest
                 else filter_index f (S i) rest
  end.

(** The state of the page the handlers below read and write: the text of
    the recipients box, the parsed recipients and the chosen files. *)
Record Recipients : Type := {
  box_text : text;
  parsed : list text
}.

Definition handleRecipientsChange (value : text) : Recipients :=
  {| box_text := value; parsed := parseEmails value |}.

Definition removeRecipient (st : Recipients) (emailToRemove : text) : Recipients :=
  let currentText := box_text st in
  let newText :=
    join [nl]
         (filter (fun item => negb (text_eqb (trim item) [])
                              && negb (text_eqb item emailToRemove))
                 (String_split currentText splitRegex)) in
  {| box_text := newText;
     parsed := filter (fun e => negb (text_eqb e emailToRemove)) (parsed st) |}.

Definition handleFileSelect {File} (attachments : list File) (newFiles : option (list File))
  : list File :=
  match newFiles with
  | Some fs => attachments ++ fs
  | None => attachments
  end.

Definition removeAttachment {File} (attachments : list File) (index : nat) : list File :=
  filter_index (fun _ i => negb (i =? index)) 0 attachments.

(** *** Splitting at separators, said directly *)

(** The pieces between runs of characters of a class; [in_sep] tells
    whether the scan is within such a run. *)
Fixpoint pieces (cls : ascii -> bool) (s : text) (cur : text) (in_sep : bool)
  : list text :=
  match s with
  | [] => [cur]
  | c :: s' =>
      if cls c then
        if in_sep then pieces cls s' [] true else cur :: pieces cls s' [] true
      else pieces cls s' (cur ++ [c]) false
  end.

(** The length of the run of the class a text begins with. *)
Fixpoint lead (cls : ascii -> bool) (s : text) : nat :=
  match s with
  | c :: s' => if cls c then S (lead cls s') else 0
  | [] => 0
  end.

(** The text ends, or goes on with a character of the class. *)
Definition at_class (cls : ascii -> bool) (t : text) : Prop :=
  match t with
  | [] => True
  | c :: _ => cls c = true
  end.

(** [plain_listing t addrs]: the text [t] holds nothing but the addresses
    [addrs], in this order, and characters of [[\s,;\n]] before, between
    (at least one) and after them. *)
Inductive plain_listing : text -> list text -> Prop :=
| plain_end : plain_listing [] []
| plain_separator c t addrs :
    cls_split c = true -> plain_listing t addrs -> plain_listing (c :: t) addrs
| plain_address a t addrs :
    full_match emailRegex a = true -> at_class cls_split t -> plain_listing t addrs ->
    plain_listing (a ++ t) (a :: addrs).

(** The test [removeRecipient] keeps a piece of the box by. *)
Definition kept_piece (emailToRemove item : text) : bool :=
  negb (text_eqb (trim item) []) && negb (text_eqb item emailToRemove).

Definition differs (e a : text) : bool := negb (text_eqb a e).

(** ** Reading the event stream on the client page ([handleSSEStream]) *)

(** What the page throws or is thrown: [new Error(message)] with a string,
    [new Error(v)] with a value that is not a string (its message is [v]
    converted to a string), or an error raised by the engine itself (a
    [TypeError] on reading a member of [null] or [undefined], a failed
    [response.json()], a network failure). *)
Inductive Exn : Type :=
| Err (message : string)
| ErrOf (v : json)
| EngineError.

(** A JavaScript value is [undefined] ([None]) or a JSON value. *)
Definition truthy_value (v : option json) : bool :=
  match v with
  | None | Some JNull => false
  | Some (JBool b) => b
  | Some (JNum n) => negb (n =? 0)%Z
  | Some (JStr s) => negb (String.eqb s "")
  | Some (JArr _) | Some (JObj _) => true
  end.

(** [x.key] for one of the keys the page reads: [None] when it throws
    ([x] is [null] or [undefined]); members exist on objects only. *)
Definition member (x : option json) (key : string) : option (option json) :=
  match x with
  | None | Some JNull => None
  | Some (JObj members) => Some (prop members key)
  | Some _ => Some None
  end.

(** [a === b]; two objects or arrays read from different places are never
    the same object. *)
Definition strict_eq (a b : option json) : bool :=
  match a, b with
  | None, None => true
  | Some JNull, Some JNull => true
  | Some (JBool x), Some (JBool y) => Bool.eqb x y
  | Some (JNum x), Some (JNum y) => (x =? y)%Z
  | Some (JStr x), Some (JStr y) => String.eqb x y
  | _, _ => false
  end.

(** [new Error(v || fallback)] *)
Definition make_error (v : option json) (fallback : string) : Exn :=
  if truthy_value v then
    match v with
    | Some (JStr s) => Err s
    | Some x => ErrOf x
    | None => Err fallback
    end
  else Err fallback.

(** The toasts of the page: "No Recipients"; "Emails Sent", whose
    description names the two totals it was given; "Error", whose
    description is the message of the error. *)
Inductive Toast : Type :=
| ToastNoRecipients
| ToastSent (totalSent totalFailed : option json)
| ToastError (e : Exn).

Definition is_sent_toast (t : Toast) : bool :=
  match t with
  | ToastSent _ _ => true
  | _ => false
  end.

(** The progress list ([None] once an update of it has thrown), the
    sending flag and the toasts shown so far. *)
Record Page : Type := {
  emailStatuses : option (list json);
  isSending : bool;
  toasts : list Toast
}.

Record Stream : Type := {
  chunks : list text;
  broken : option Exn
}.

(** What [fetch] resolves to: a response that is not [ok], with what
    [response.json()] gives ([None] when it rejects), or an [ok] response
    with its body ([None] for no body); a body is read chunk by chunk and
    then ends, or breaks. *)
Inductive Response : Type :=
| NotOk (parsed_body : option json)
| Ok (stream : option Stream).

(** [String.prototype.split] with a one-character string. *)
Fixpoint split_char (c : ascii) (s : text) (cur : text) : list text :=
  match s with
  | [] => [cur]
  | x :: s' =>
      if Ascii.eqb x c then cur :: split_char c s' []
      else split_char c s' (cur ++ [x])
  end.

Fixpoint startsWith (s prefix : text) : bool :=
  match prefix, s with
  | [], _ => true
  | p :: prefix', c :: s' => Ascii.eqb c p && startsWith s' prefix'
  | _ :: _, [] => false
  end.

(** [prev.findIndex((s) => s.email === email)]: [None] when reading
    [s.email] throws, [Some None] for -1. *)
Fixpoint findIndex (email : option json) (prev : list json) (i : nat)
  : option (option nat) :=
  match prev with
  | [] => Some None
  | s :: rest =>
      match member (Some s) "email" with
      | None => None
      | Some e => if strict_eq e email then Some (Some i) else findIndex email rest (S i)
      end
  end.

(** [updated[index] = data] on a copy, for an index within the list. *)
Fixpoint set_at (l : list json) (index : nat) (data : json) : list json :=
  match l, index with
  | [], _ => []
  | _ :: rest, O => data :: rest
  | x :: rest, S n => x :: set_at rest n data
  end.

(** The function given to [setEmailStatuses]; [data.email] is read when
    the first entry is looked at. *)
Definition update_statuses (data : json) (prev : list json) : option (list json) :=
  match prev with
  | [] => Some prev
  | _ :: _ =>
      match member (Some data) "email" with
      | None => None
      | Some email =>
          match findIndex email prev 0 with
          | None => None
          | Some (Some index) => Some (set_at prev index data)
          | Some None => Some prev
          end
      end
  end.

(** The variables of the reading loop, the buffer apart. *)
Record Reader : Type := {
  completed : bool;
  serverError : option Exn;
  page : Page
}.

Inductive Step : Type :=
| Continue (st : Reader)
| Break (st : Reader)
| Throws (e : Exn) (st : Reader).

Definition data_prefix : text := of_string "data: ".

Section StreamReader.

Variable JSON_parse : string -> json + thrown.

(** The body of the loop over the lines of a chunk. *)
Definition process_line (line : text) (st : Reader) : Step :=
  if startsWith line data_prefix then
    match JSON_parse (to_string (skipn 6 line)) with
    | inr parseError => Continue st
    | inl data =>
        match member (Some data) "type" with
        | None => Throws EngineError st
        | Some type_ =>
            if strict_eq type_ (Some (JStr "complete")) then
              match member (Some data) "data" with
              | None => Throws EngineError st
              | Some d =>
                  match member d "totalSent", member d "totalFailed" with
                  | Some totalSent, Some totalFailed =>
                      Continue
                        {| completed := true;
                           serverError := serverError st;
                           page := {| emailStatuses := emailStatuses (page st);
                                      isSending := isSending (page st);
                                      toasts := toasts (page st)
                                                ++ [ToastSent totalSent totalFailed] |} |}
                  | _, _ => Throws EngineError st
                  end
              end
            else if strict_eq type_ (Some (JStr "error")) then
              match member (Some data) "message" with
              | None => Throws EngineError st
              | Some message =>
                  Break {| completed := completed st;
                           serverError :=
                             Some (make_error message "Server error during email sending");
                           page := page st |}
              end
            else
              Continue
                {| completed := completed st;
                   serverError := serverError st;
                   page := {| emailStatuses :=
                                match emailStatuses (page st) with
                                | Some prev => update_statuses data prev
                                | None => None
                                end;
                              isSending := isSending (page st);
                              toasts := toasts (page st) |} |}
        end
    end
  else Continue st.

(** [for (const line of lines) { ... }] *)
Fixpoint process_lines (lines : list text) (st : Reader) : Step :=
  match lines with
  | [] => Continue st
  | line :: rest =>
      match process_line line st with
      | Continue st' => process_lines rest st'
      | halted => halted
      end
  end.

(** The [while (true)] loop: the result is the error thrown, if any, and
    the variables at the end. *)
Fixpoint read_loop (chunks : list text) (broken : option Exn) (buffer : text)
         (st : Reader) : option Exn * Reader :=
  match chunks with
  | [] =>
      match broken with
      | None => (None, st)
      | Some e => (Some e, st)
      end
  | value :: rest =>
      let lines := split_char nl (buffer ++ value) [] in
      let buffer' := last lines [] in
      match process_lines (removelast lines) st with
      | Throws e st' => (Some e, st')
      | Break st' => (None, st')
      | Continue st' =>
          match serverError st' with
          | Some _ => (None, st')
          | None => read_loop rest broken buffer' st'
          end
      end
  end.

Definition stop_sending (p : Page) : Page :=
  {| emailStatuses := emailStatuses p; isSending := false; toasts := toasts p |}.

(** [handleSSEStream], from what [fetch] gave: the error it throws, if
    any, and the page afterwards. *)
Definition handleSSEStream (fetched : Exn + Response) (p : Page) : option Exn * Page :=
  match fetched with
  | inl e => (Some e, p)
  | inr (NotOk None) => (Some EngineError, p)
  | inr (NotOk (Some error)) =>
      match member (Some error) "message" with
      | None => (Some EngineError, p)
      | Some message => (Some (make_error message "Failed to send emails"), p)
      end
  | inr (Ok None) => (Some (Err "Response body is not readable"), p)
  | inr (Ok (Some stream)) =>
      let '(thrown_, st) :=
        read_loop (chunks stream) (broken stream) []
                  {| completed := false; serverError := None; page := p |} in
      let p' := stop_sending (page st) in
      match thrown_ with
      | Some e => (Some e, p')
      | None =>
          match serverError st with
          | Some e => (Some e, p')
          | None =>
              if completed st then (None, p')
              else (Some (Err "Stream ended unexpectedly without completion message"), p')
          end
      end
  end.

(** [{ email, status: "pending" }] for each recipient. *)
Definition initialStatuses (recipients : list string) : list json :=
  map (fun e => JObj [("email", JStr e); ("status", JStr "pending")]) recipients.

(** The part of [onSubmit] that follows the making of the request: the
    progress list is reset, the stream is read, and an error is shown. *)
Definition send_and_show (recipients : list string) (fetched : Exn + Response)
           (p : Page) : Page :=
  let p1 := {| emailStatuses := Some (initialStatuses recipients);
               isSending := true;
               toasts := toasts p |} in
  match handleSSEStream fetched p1 with
  | (None, p2) => p2
  | (Some e, p2) =>
      {| emailStatuses := emailStatuses p2;
         isSending := false;
         toasts := toasts p2 ++ [ToastError e] |}
  end.

End StreamReader.

(** *** What the handler puts on the wire *)

Definition no_line_break (t : text) : bool :=
  forallb (fun c => negb (Ascii.eqb c nl)) t.


Section Wire.

Variable JSON_parse : string -> json + thrown.
Variable JSON_stringify : json -> string.

(** [`data: ${JSON.stringify(unit)}\n\n`] *)
Definition wire (u : StreamUnit) : text :=
  data_prefix ++ of_string (JSON_stringify (unit_json u)) ++ [nl; nl].

(** The lines of the units on the wire: each unit is a [data: ] line
    followed by an empty line. *)
Definition lines_of (us : list StreamUnit) : list text :=
  flat_map (fun u => [data_prefix ++ of_string (JSON_stringify (unit_json u)); []]) us.

(** The text of the event stream of a trace. *)
Definition stream_text (tr : list event) : text :=
  List.concat (map wire (written_units tr)).

(** What the transport needs of the two library functions on a unit: the
    text written for it holds no line break, and reading it gives the
    unit back. *)
Definition survives (u : StreamUnit) : Prop :=
  no_line_break (of_string (JSON_stringify (unit_json u))) = true
  /\ JSON_parse (JSON_stringify (unit_json u)) = inl (unit_json u).

(** A value that is read back from the text written for it as that text
    is posted, a text that is not empty. *)
Definition round_trips (v : json) : Prop :=
  posted_value (JSON_stringify v) <> ""%string
  /\ JSON_parse (posted_value (JSON_stringify v)) = inl v.

End Wire.

(** A body whose [message] member is the string [msg], whatever else it
    holds. *)
Definition carries_message (body : json) (msg : string) : Prop :=
  exists members, body = JObj members /\ prop members "message" = Some (JStr msg).

Definition email_member (s : json) (e : string) : Prop :=
  exists members, s = JObj members /\ prop members "email" = Some (JStr e).

(** A progress list with one entry for each of the recipients [rs], in
    their order, each carrying its recipient's address. *)
Definition listed (rs : list string) (p : Page) : Prop :=
  exists l, emailStatuses p = Some l /\ Forall2 email_member l rs.

(** An entry of another address than [r]. *)
Definition other_entry (r : string) (s : json) : Prop :=
  exists e, email_member s e /\ e <> r.

(** What a stretch of the loop may add to the toasts: "Emails Sent"
    toasts only, and one at least if it comes to see a [complete] unit. *)
Definition sent_toasts_added (st st' : Reader) : Prop :=
  exists added,
    toasts (page st') = toasts (page st) ++ added
    /\ forallb is_sent_toast added = true
    /\ (completed st' = true -> completed st = true \/ added <> []).

(** How the reading loop ends once the last complete line is behind it. *)
Definition finish (broken : option Exn) (s : Step) : option Exn * Reader :=
  match s with
  | Throws e st => (Some e, st)
  | Break st => (None, st)
  | Continue st =>
      match serverError st with
      | Some _ => (None, st)
      | None =>
          match broken with
          | None => (None, st)
          | Some e => (Some e, st)
          end
      end
  end.

Definition reader_of (s : Step) : Reader :=
  match s with
  | Continue st | Break st | Throws _ st => st
  end.


(** *** A sample serializer

    [sample_stringify] writes a value the way [JSON.stringify] does when
    its strings need no escape; [wire_parse] reads, besides the texts of
    [sample_parse], what [sample_stringify] writes for the units of a
    sample run. *)

Fixpoint digits_of (fuel n : nat) (acc : string) : string :=
  match fuel with
  | O => acc
  | S fuel' =>
      let acc' := String (ascii_of_nat (48 + n mod 10)) acc in
      if n / 10 =? 0 then acc' else digits_of fuel' (n / 10) acc'
  end.

Definition digits (n : Z) : string :=
  if (n <? 0)%Z then ("-" ++ digits_of (S (Z.to_nat (- n))) (Z.to_nat (- n)) "")%string
  else digits_of (S (Z.to_nat n)) (Z.to_nat n) "".

Fixpoint sample_stringify (v : json) : string :=
  match v with
  | JNull => "null"
  | JBool true => "true"
  | JBool false => "false"
  | JNum n => digits n
  | JStr s => q s
  | JArr items => "[" ++ String.concat "," (map sample_stringify items) ++ "]"
  | JObj members =>
      "{" ++ String.concat ","
               (map (fun kv => q (fst kv) ++ ":" ++ sample_stringify (snd kv)) members)
          ++ "}"
  end%string.

Definition sample_units : list StreamUnit :=
  written_units (run sample_parse sample_is_email
                     (env_reject 1 (ErrorObj "Mailbox full")) sample_request).

Definition wire_parse (s : string) : json + thrown :=
  match sample_parse s with
  | inl v => inl v
  | inr e =>
      match find (fun u => String.eqb (sample_stringify (unit_json u)) s) sample_units with
      | Some u => inl (unit_json u)
      | None => inr e
      end
  end.

(** A mail service that accepts the first message and refuses the second. *)
Definition env_second_refused : Env := env_reject 1 (ErrorObj "Mailbox full").

(** The text of the stream of a sample run, cut after its tenth character. *)
Definition sample_stream : text :=
  stream_text sample_stringify
              (run wire_parse sample_is_email env_second_refused sample_request).

Definition sample_chunks : list text :=
  [firstn 10 sample_stream; skipn 10 sample_stream].

(** ** The form of the page ([emailFormSchema]) *)

(** The schema the form is checked against before [onSubmit] is called
    with the parsed values. *)
Definition emailFormSchema : Schema EmailFormData :=
  z_object (fun p get =>
    pure Build_EmailFormData
      <*> field (z_string [min1 "SMTP username is required"]) p get "smtpUsername"
      <*> field (z_string [min1 "SMTP password is required"]) p get "smtpPassword"
      <*> field (z_string [min1 "Subject is required"]) p get "subject"
      <*> field (z_string [min1 "Email body is required"]) p get "htmlBody"
      <*> field (z_string [min1 "At least one recipient is required"]) p get "recipientsText"
      <*> field (z_optional (z_string [])) p get "cc"
      <*> field (z_optional (z_string [])) p get "bcc").

(** [JSON.stringify] is given this array for a list of addresses. *)
Definition addresses_json (l : list text) : json :=
  JArr (map (fun a => JStr (to_string a)) l).

(** The [cc] and [bcc] lists of a form. *)
Definition ccEmails (data : EmailFormData) : list text :=
  parseEmails (of_string (or_else (form_cc data) "")).

Definition bccEmails (data : EmailFormData) : list text :=
  parseEmails (of_string (or_else (form_bcc data) "")).

(** [undefined] for the empty list, as the field is then not posted. *)
Definition posted_addresses (l : list text) : option (list string) :=
  match l with
  | [] => None
  | _ :: _ => Some (map to_string l)
  end.

(** What the handler validates the request of a form to: the subject, the
    body and its plain text are the form's as they are posted. *)
Definition validated_form (data : EmailFormData) (recipients : list text)
  : SendEmailRequest :=
  {| smtpConfig := {| username := smtpUsername data;
                      password := smtpPassword data;
                      host := "smtp.zeptomail.in";
                      port := 587;
                      fromEmail := "crmsupport@legacylifespaces.com" |};
     recipients := map to_string recipients;
     subject := posted_value (form_subject data);
     htmlBody := posted_value (form_htmlBody data);
     textBody := Some (posted_value (String_replace_tags (form_htmlBody data)));
     cc := posted_addresses (ccEmails data);
     bcc := posted_addresses (bccEmails data) |}.

(** The entry [onSubmit] appends for a chosen file. *)
Definition file_entry (f : MulterFile) : string * FormValue :=
  ("attachments", FormFile f).

Section PostedForm.

Variable JSON_stringify : json -> string.

(** The entry [onSubmit] appends for the [cc] or the [bcc] list: none when
    the list is empty. *)
Definition addresses_entry (name : string) (l : list text) : FormData :=
  match l with
  | [] => []
  | _ :: _ => [(name, FormString (stringify_addresses JSON_stringify l))]
  end.

(** The [cc] or [bcc] field as the handler receives it. *)
Definition posted_addresses_text (l : list text) : option string :=
  match l with
  | [] => None
  | _ :: _ => Some (posted_value (stringify_addresses JSON_stringify l))
  end.

(** The request the handler is called with for a form. *)
Definition posted_request (data : EmailFormData) (rs : list text)
           (fs : list MulterFile) : Request :=
  {| body :=
       {| smtpConfigStr := Some (posted_value (JSON_stringify (client_smtpConfig data)));
          recipientsStr := Some (posted_value (stringify_addresses JSON_stringify rs));
          body_subject := Some (posted_value (form_subject data));
          body_htmlBody := Some (posted_value (form_htmlBody data));
          body_textBody := Some (posted_value (String_replace_tags (form_htmlBody data)));
          ccStr := posted_addresses_text (ccEmails data);
          bccStr := posted_addresses_text (bccEmails data) |};
     files := Some fs |}.

End PostedForm.

Definition allowed (file : MulterFile) : bool :=
  includes allowedFileTypes (mimetype file).

(** The body of a sample form: two paragraphs on two lines. *)
Definition sample_html : string :=
  ("<p>Hi</p>" ++ String nl "<p>there</p>")%string.

(** The values of a sample form, a sample file, a sample limit on string
    values, and a parser that reads what [sample_stringify] writes for
    the fields of the form's request. *)
Definition sample_form_values : json :=
  JObj [ ("smtpUsername", JStr "u"); ("smtpPassword", JStr "p");
         ("subject", JStr "Hello"); ("htmlBody", JStr sample_html);
         ("recipientsText", JStr "a@x.com, b@x.com");
         ("cc", JStr ""); ("bcc", JStr "c@x.com") ].

Definition sample_form : EmailFormData :=
  {| smtpUsername := "u"; smtpPassword := "p";
     form_subject := "Hello"; form_htmlBody := sample_html;
     recipientsText := "a@x.com, b@x.com";
     form_cc := Some ""; form_bcc := Some "c@x.com" |}.

Definition pdf_file : MulterFile :=
  {| originalname := "a.pdf"; mimetype := "application/pdf"; buffer := [] |}.

Definition sample_field_fits (s : string) : bool :=
  (N.of_nat (String.length s) <=? 1048576)%N.

Definition sample_form_recipients : list text :=
  parseEmails (of_string (recipientsText sample_form)).

Definition form_parse (s : string) : json + thrown :=
  match find (fun v => String.eqb (sample_stringify v) s)
             [ client_smtpConfig sample_form;
               addresses_json sample_form_recipients;
               addresses_json (ccEmails sample_form);
               addresses_json (bccEmails sample_form) ] with
  | Some v => inl v
  | None => inr (ErrorObj "Unexpected token")
  end.

(** What the page posts for the sample form with one file. *)
Definition sample_posted : FormData :=
  match onSubmit sample_stringify sample_form sample_form_recipients [pdf_file] with
  | Some formData => formData
  | None => []
  end.

(* ===================================================================== *)
(** * Part II: theorems                                                   *)
(* ===================================================================== *)

Example parseEmails_example :
  map to_string (parseEmails example_text)
  = ["alice@x.com"; "bob@x.com"; "carol@x.com"].
Proof. vm_compute. reflexivity. Qed.

Example stripTags_example :
  String_replace_tags "<p>Hi <b>you</b></p> a<b c>d <e" = "Hi you ad <e".
Proof. vm_compute. reflexivity. Qed.

(** ** The monad and the loop *)

Lemma bind_normal {A B} (m : M A) (k : A -> M B) st a st' :
  m st = (Normal a, st') -> bind m k st = k a st'.
Proof. unfold bind. intros ->. reflexivity. Qed.

Lemma count_status_app s l1 l2 :
  count_status s (l1 ++ l2) = count_status s l1 + count_status s l2.
Proof. unfold count_status. rewrite filter_app, length_app. reflexivity. Qed.

Section LoopFacts.

Variable env : Env.
Variable vd : SendEmailRequest.

Lemma send_one_run (r : string) (st : HState) :
  send_one env vd (transporter_of vd) r st =
  (Normal tt,
   let ts := terminal_status env vd (attachments st) (sendCalls st) r in
   mkState (sseStarted st) (attachments st) (results st ++ [ts])
           (totalSent st + count_status sent [ts])
           (totalFailed st + count_status failed [ts])
           (S (sendCalls st))
           (trace st ++ recipient_events env vd (attachments st) (sendCalls st) r)).
Proof.
  unfold send_one, try_catch, bind, res_write, emit, get_attachments,
    transporter_sendMail, results_push, incr_totalSent, incr_totalFailed,
    recipient_events, terminal_status.
  cbn.
  destruct (sendMail_result env (sendCalls st) (transporter_of vd)
              (mailOptions vd (attachments st) r)) as [e|]; cbn;
    rewrite <- !app_assoc; cbn; do 2 f_equal; lia.
Qed.

Lemma loop_run (rs : list string) : forall st : HState,
  for_of rs (send_one env vd (transporter_of vd)) st =
  (Normal tt,
   let out := loop_results env vd (attachments st) (sendCalls st) rs in
   mkState (sseStarted st) (attachments st) (results st ++ out)
           (totalSent st + count_status sent out)
           (totalFailed st + count_status failed out)
           (sendCalls st + List.length rs)
           (trace st ++ loop_events env vd (attachments st) (sendCalls st) rs)).
Proof.
  induction rs as [|r rest IH]; intros st.
  - cbn. destruct st; cbn. rewrite !app_nil_r, !Nat.add_0_r. reflexivity.
  - cbn [for_of]. rewrite (@bind_normal _ _ _ _ _ _ _ (send_one_run r st)).
    rewrite IH. cbn [attachments sendCalls results totalSent totalFailed trace
                     sseStarted loop_results loop_events List.length].
    f_equal.
    change (terminal_status env vd (attachments st) (sendCalls st) r
              :: loop_results env vd (attachments st) (S (sendCalls st)) rest)
      with ([terminal_status env vd (attachments st) (sendCalls st) r]
              ++ loop_results env vd (attachments st) (S (sendCalls st)) rest).
    rewrite !count_status_app, <- !app_assoc.
    f_equal; lia.
Qed.

End LoopFacts.

Section HandlerFacts.

Variable JSON_parse : string -> json + thrown.
Variable is_email : string -> bool.

Lemma parse_fields_pure (b : ReqBody) (st : HState) :
  parse_fields JSON_parse b st = (parsed_fields JSON_parse b, st)
  /\ parsed_fields JSON_parse b <> Return.
Proof.
  unfold parsed_fields, parse_fields, JSON_parse_m, bind, ret, throw.
  destruct (JSON_parse _); cbn; [|split; [reflexivity|discriminate]].
  destruct (JSON_parse _); cbn; [|split; [reflexivity|discriminate]].
  destruct (truthy (ccStr b)); cbn;
    [destruct (JSON_parse _); cbn; [|split; [reflexivity|discriminate]]|];
    (destruct (truthy (bccStr b)); cbn;
     [destruct (JSON_parse _); cbn|]; split; (reflexivity || discriminate)).
Qed.

Lemma collect_files_ok (fs : list MulterFile) : forall st : HState,
  find disallowed fs = None ->
  for_of fs collect_file st =
  (Normal tt,
   mkState (sseStarted st) (attachments st ++ map to_attachment fs) (results st)
           (totalSent st) (totalFailed st) (sendCalls st) (trace st)).
Proof.
  induction fs as [|f rest IH]; intros st Hfind.
  - cbn. destruct st; cbn. rewrite app_nil_r. reflexivity.
  - cbn in Hfind. destruct (disallowed f) eqn:Hf; [discriminate|].
    cbn [for_of]. unfold bind at 1. unfold collect_file at 1.
    unfold disallowed in Hf. rewrite Hf. unfold attachments_push.
    rewrite (IH _ Hfind). cbn. rewrite <- app_assoc. reflexivity.
Qed.

Lemma collect_files_bad (fs : list MulterFile) : forall (st : HState) f,
  find disallowed fs = Some f ->
  exists atts,
    for_of fs collect_file st =
    (Return,
     mkState (sseStarted st) atts (results st)
             (totalSent st) (totalFailed st) (sendCalls st)
             (trace st ++ [EvJson 400 {| jb_message := file_type_message f;
                                         jb_errors := None |}])).
Proof.
  induction fs as [|g rest IH]; intros st f Hfind; [discriminate|].
  cbn in Hfind. cbn [for_of]. unfold bind at 1. unfold collect_file at 1.
  destruct (disallowed g) eqn:Hg; unfold disallowed in Hg; rewrite Hg.
  - injection Hfind as <-. eexists. cbn. reflexivity.
  - unfold attachments_push. destruct (IH (mkState (sseStarted st)
      (attachments st ++ [to_attachment g]) (results st) (totalSent st)
      (totalFailed st) (sendCalls st) (trace st)) f Hfind) as [atts Hrun].
    exists atts. exact Hrun.
Qed.

(** What the handler does, stage by stage. *)
Lemma run_spec (env : Env) (req : Request) :
  run JSON_parse is_email env req =
  match validate JSON_parse is_email req with
  | inl b => [EvJson 400 b]
  | inr (vd, atts) =>
      EvCreateTransport (transporter_of vd) :: EvVerify (transporter_of vd) ::
      match verify_result env (transporter_of vd) with
      | Some _ => [EvJson 401 auth_failed_body]
      | None =>
          sse_headers ++ loop_events env vd atts 0 (recipients vd)
          ++ [EvWrite (UComplete (summary env vd atts)); EvEnd]
      end
  end.
Proof.
  unfold run, handler, validate.
  unfold try_catch at 1. unfold handler_try. unfold bind at 1.
  unfold try_catch at 1.
  destruct (parse_fields_pure (body req) init_state) as [-> Hnr].
  destruct (parsed_fields JSON_parse (body req)) as [parsed|e|];
    [|reflexivity|congruence].
  destruct (safeParse _ _) as [vd|errs]; [|reflexivity].
  unfold bind at 1. unfold files_of.
  destruct (files req) as [fs|].
  - destruct (find disallowed fs) as [f|] eqn:Hfind.
    + destruct (collect_files_bad fs init_state Hfind) as [atts ->].
      reflexivity.
    + rewrite (collect_files_ok fs init_state Hfind).
      unfold bind, createTransport, emit, ret, try_catch, transporter_verify,
        throw, res_json, res_setHeader, set_sseStarted, get_response,
        res_write, res_end, return_; cbn.
      destruct (verify_result env (transporter_of vd)); [reflexivity|].
      unfold ret; cbn.
      rewrite loop_run. cbn. unfold summary.
      rewrite <- !app_assoc. reflexivity.
  - unfold bind, createTransport, emit, ret, try_catch, transporter_verify,
      throw, res_json, res_setHeader, set_sseStarted, get_response,
      res_write, res_end, return_; cbn.
    destruct (verify_result env (transporter_of vd)); [reflexivity|].
    unfold ret; cbn.
    rewrite loop_run. cbn. unfold summary.
      rewrite <- !app_assoc. reflexivity.
Qed.

End HandlerFacts.

(** ** Reading the events of the loop *)

Lemma written_statuses_app a b :
  written_statuses (a ++ b) = written_statuses a ++ written_statuses b.
Proof.
  induction a as [|e a IH]; [reflexivity|].
  destruct e as [| | | |[]| |]; cbn; rewrite IH; reflexivity.
Qed.

Lemma sent_messages_app a b :
  sent_messages (a ++ b) = sent_messages a ++ sent_messages b.
Proof.
  induction a as [|e a IH]; [reflexivity|].
  destruct e; cbn; rewrite IH; reflexivity.
Qed.

Lemma final_units_app a b :
  final_units (a ++ b) = final_units a ++ final_units b.
Proof.
  induction a as [|e a IH]; [reflexivity|].
  destruct e as [| | | |[]| |]; cbn; rewrite IH; reflexivity.
Qed.

Section LoopEvents.

Variable env : Env.
Variable vd : SendEmailRequest.
Variable atts : list Attachment.

Lemma terminal_status_email i r : email (terminal_status env vd atts i r) = r.
Proof. unfold terminal_status. destruct (sendMail_result _ _ _ _); reflexivity. Qed.

Lemma terminal_status_terminal i r :
  is_terminal (terminal_status env vd atts i r) = true
  /\ is_sending (terminal_status env vd atts i r) = false.
Proof. unfold terminal_status. destruct (sendMail_result _ _ _ _); split; reflexivity. Qed.

Lemma terminal_status_sent_or_failed i r :
  count_status sent [terminal_status env vd atts i r]
  + count_status failed [terminal_status env vd atts i r] = 1.
Proof. unfold terminal_status. destruct (sendMail_result _ _ _ _); reflexivity. Qed.

(** The loop writes, for each recipient in turn, its "sending" unit and
    then its terminal unit. *)
Lemma loop_written rs : forall i,
  written_statuses (loop_events env vd atts i rs) =
  flat_map (fun s => [ {| email := email s; status := sending; error := None |}; s ])
           (loop_results env vd atts i rs).
Proof.
  induction rs as [|r rest IH]; intros i; [reflexivity|].
  cbn. rewrite IH, terminal_status_email. reflexivity.
Qed.

Lemma loop_terminals rs : forall i,
  filter is_terminal (written_statuses (loop_events env vd atts i rs))
  = loop_results env vd atts i rs.
Proof.
  induction rs as [|r rest IH]; intros i; [reflexivity|].
  cbn. destruct (terminal_status_terminal i r) as [-> _]. rewrite IH. reflexivity.
Qed.

Lemma loop_sendings rs : forall i,
  map email (filter is_sending (written_statuses (loop_events env vd atts i rs))) = rs.
Proof.
  induction rs as [|r rest IH]; intros i; [reflexivity|].
  cbn. destruct (terminal_status_terminal i r) as [_ ->]. cbn. rewrite IH. reflexivity.
Qed.

Lemma loop_results_email rs : forall i,
  map email (loop_results env vd atts i rs) = rs.
Proof.
  induction rs as [|r rest IH]; intros i; [reflexivity|].
  cbn. rewrite terminal_status_email, IH. reflexivity.
Qed.

Lemma loop_results_length rs i :
  List.length (loop_results env vd atts i rs) = List.length rs.
Proof. rewrite <- (loop_results_email rs i) at 2. rewrite length_map. reflexivity. Qed.

Lemma loop_results_count rs : forall i,
  count_status sent (loop_results env vd atts i rs)
  + count_status failed (loop_results env vd atts i rs) = List.length rs.
Proof.
  induction rs as [|r rest IH]; intros i; [reflexivity|].
  cbn [loop_results List.length].
  change (terminal_status env vd atts i r :: loop_results env vd atts (S i) rest)
    with ([terminal_status env vd atts i r] ++ loop_results env vd atts (S i) rest).
  rewrite !count_status_app.
  pose proof (terminal_status_sent_or_failed i r). pose proof (IH (S i)). lia.
Qed.

Lemma loop_sent_messages rs : forall i,
  sent_messages (loop_events env vd atts i rs) = map (mailOptions vd atts) rs.
Proof.
  induction rs as [|r rest IH]; intros i; [reflexivity|].
  cbn. rewrite IH. reflexivity.
Qed.

Lemma loop_final_units rs : forall i,
  final_units (loop_events env vd atts i rs) = [].
Proof.
  induction rs as [|r rest IH]; intros i; [reflexivity|].
  cbn. apply IH.
Qed.

Lemma loop_results_nth rs : forall i j,
  nth_error (loop_results env vd atts i rs) j
  = option_map (terminal_status env vd atts (i + j)) (nth_error rs j).
Proof.
  induction rs as [|r rest IH]; intros i j.
  - destruct j; reflexivity.
  - destruct j as [|j]; cbn.
    + rewrite Nat.add_0_r. reflexivity.
    + rewrite IH. f_equal. f_equal. lia.
Qed.

(** The only events of the loop are stream writes and sends through the
    transporter of the batch. *)
Lemma loop_events_shape rs : forall i e,
  In e (loop_events env vd atts i rs) ->
  (exists s, e = EvWrite (UStatus s))
  \/ (exists r, In r rs /\ e = EvSendMail (transporter_of vd) (mailOptions vd atts r)).
Proof.
  induction rs as [|r rest IH]; intros i e Hin; [destruct Hin|].
  cbn in Hin. destruct Hin as [<-|[<-|[<-|Hin]]].
  - left. eexists. reflexivity.
  - right. exists r. split; [left|]; reflexivity.
  - left. eexists. reflexivity.
  - destruct (IH _ _ Hin) as [H|[r' [Hr' ->]]]; [left; exact H|].
    right. exists r'. split; [right; exact Hr'|reflexivity].
Qed.

End LoopEvents.

(** ** The schemas *)

Lemma issues_ap {A B} (f : SafeParseReturn (A -> B)) (x : SafeParseReturn A) :
  issues (f <*> x) = issues f ++ issues x.
Proof. destruct f, x; cbn; rewrite ?app_nil_r; reflexivity. Qed.

Lemma ap_success {A B} (f : SafeParseReturn (A -> B)) (x : SafeParseReturn A) b :
  f <*> x = ParseSuccess b ->
  exists g a, f = ParseSuccess g /\ x = ParseSuccess a /\ b = g a.
Proof.
  destruct f as [g|], x as [a|]; cbn; try discriminate.
  intros [= <-]. exists g, a. repeat split.
Qed.

Lemma success_no_issue {A} (r : SafeParseReturn A) a :
  r = ParseSuccess a -> issues r = [].
Proof. intros ->. reflexivity. Qed.

Lemma issue_no_success {A} (r : SafeParseReturn A) :
  issues r <> [] -> exists es, r = ParseError es.
Proof. destruct r as [a|es]; [intros H; destruct H; reflexivity|eauto]. Qed.

Section SchemaFacts.

Variable is_email : string -> bool.

(** The request schema applied to the object the handler builds: every
    field is parsed, whatever the other fields gave. *)
Lemma safeParse_requestData (b : ReqBody) sc rc ccv bccv :
  safeParse (sendEmailRequestSchema is_email) (requestData b (sc, rc, ccv, bccv)) =
  pure Build_SendEmailRequest
    <*> smtpConfigSchema is_email [PKey "smtpConfig"] (Some sc)
    <*> recipientsSchema is_email [PKey "recipients"] (Some rc)
    <*> z_string [min1 "Subject is required"] [PKey "subject"]
                 (option_map JStr (body_subject b))
    <*> z_string [min1 "Email body is required"] [PKey "htmlBody"]
                 (option_map JStr (body_htmlBody b))
    <*> z_optional (z_string []) [PKey "textBody"] (option_map JStr (body_textBody b))
    <*> addressesSchema is_email [PKey "cc"] ccv
    <*> addressesSchema is_email [PKey "bcc"] bccv.
Proof.
  unfold safeParse, sendEmailRequestSchema, z_object, requestData, field,
    recipientsSchema, addressesSchema.
  destruct (body_subject b), (body_htmlBody b), (body_textBody b), ccv, bccv;
    reflexivity.
Qed.

(** A validated request carries the fields of the raw request. *)
Lemma safeParse_success (b : ReqBody) sc rc ccv bccv vd :
  safeParse (sendEmailRequestSchema is_email) (requestData b (sc, rc, ccv, bccv))
  = ParseSuccess vd ->
  smtpConfigSchema is_email [PKey "smtpConfig"] (Some sc) = ParseSuccess (smtpConfig vd)
  /\ recipientsSchema is_email [PKey "recipients"] (Some rc) = ParseSuccess (recipients vd)
  /\ body_subject b = Some (subject vd)
  /\ body_htmlBody b = Some (htmlBody vd)
  /\ body_textBody b = textBody vd
  /\ addressesSchema is_email [PKey "cc"] ccv = ParseSuccess (cc vd)
  /\ addressesSchema is_email [PKey "bcc"] bccv = ParseSuccess (bcc vd).
Proof.
  rewrite safeParse_requestData. intros H.
  apply ap_success in H. destruct H as (g7 & a7 & H & E7 & ->).
  apply ap_success in H. destruct H as (g6 & a6 & H & E6 & ->).
  apply ap_success in H. destruct H as (g5 & a5 & H & E5 & ->).
  apply ap_success in H. destruct H as (g4 & a4 & H & E4 & ->).
  apply ap_success in H. destruct H as (g3 & a3 & H & E3 & ->).
  apply ap_success in H. destruct H as (g2 & a2 & H & E2 & ->).
  apply ap_success in H. destruct H as (g1 & a1 & H & E1 & ->).
  injection H as <-. cbn.
  repeat split; try assumption.
  - destruct (body_subject b) as [s|]; [|discriminate].
    cbn in E3. destruct (min1 _ _ s); [|discriminate]. cbn in E3. congruence.
  - destruct (body_htmlBody b) as [s|]; [|discriminate].
    cbn in E4. destruct (min1 _ _ s); [|discriminate]. cbn in E4. congruence.
  - destruct (body_textBody b) as [s|]; cbn in E5; congruence.
Qed.

End SchemaFacts.

Section ValidationFacts.

Variable JSON_parse : string -> json + thrown.
Variable is_email : string -> bool.

Lemma request_issues (b : ReqBody) sc rc ccv bccv :
  issues (safeParse (sendEmailRequestSchema is_email) (requestData b (sc, rc, ccv, bccv))) =
  issues (smtpConfigSchema is_email [PKey "smtpConfig"] (Some sc))
  ++ issues (recipientsSchema is_email [PKey "recipients"] (Some rc))
  ++ issues (z_string [min1 "Subject is required"] [PKey "subject"]
                      (option_map JStr (body_subject b)))
  ++ issues (z_string [min1 "Email body is required"] [PKey "htmlBody"]
                      (option_map JStr (body_htmlBody b)))
  ++ issues (z_optional (z_string []) [PKey "textBody"]
                        (option_map JStr (body_textBody b)))
  ++ issues (addressesSchema is_email [PKey "cc"] ccv)
  ++ issues (addressesSchema is_email [PKey "bcc"] bccv).
Proof.
  rewrite safeParse_requestData, !issues_ap. cbn [issues pure app].
  rewrite <- !app_assoc. reflexivity.
Qed.

Lemma parse_items_invalid (p : list path_elem) (items : list json) : forall i,
  forallb (valid_address is_email) items = false ->
  issues (parse_items (z_string [email_check is_email]) p i items) <> [].
Proof.
  induction items as [|x rest IH]; intros i H; [discriminate|].
  cbn [parse_items]. rewrite !issues_ap. cbn [issues pure app].
  cbn in H. apply andb_false_iff in H. destruct H as [H|H].
  - destruct x as [| | |s| |]; cbn; try discriminate.
    cbn in H. unfold email_check. rewrite H. cbn. discriminate.
  - specialize (IH (S i) H).
    destruct (issues (z_string _ _ _)); [exact IH|discriminate].
Qed.

Lemma recipients_invalid (items : list json) :
  items = [] \/ forallb (valid_address is_email) items = false ->
  issues (recipientsSchema is_email [PKey "recipients"] (Some (JArr items))) <> [].
Proof.
  intros [->|H]; [cbn; discriminate|].
  unfold recipientsSchema, z_array. rewrite !issues_ap.
  pose proof (parse_items_invalid [PKey "recipients"] items 0 H) as Hne.
  destruct (issues (parse_items _ _ _ _)); [destruct Hne; reflexivity|].
  intros E. apply app_eq_nil in E. destruct E as [_ E]. discriminate.
Qed.

Lemma find_disallowed (fs : list MulterFile) file :
  In file fs -> includes allowedFileTypes (mimetype file) = false ->
  exists f, find disallowed fs = Some f.
Proof.
  intros Hin Hbad. destruct (find disallowed fs) as [f|] eqn:E; [eauto|].
  pose proof (find_none _ _ E _ Hin) as H. unfold disallowed in H.
  rewrite Hbad in H. discriminate.
Qed.

Lemma invalid_request_rejected (req : Request) :
  invalid_request JSON_parse is_email req ->
  exists b, validate JSON_parse is_email req = inl b.
Proof.
  assert (Hschema : forall parsed,
    issues (safeParse (sendEmailRequestSchema is_email)
                      (requestData (body req) parsed)) <> [] ->
    parsed_fields JSON_parse (body req) = Normal parsed ->
    exists b, validate JSON_parse is_email req = inl b).
  { intros parsed Hne Hp. unfold validate. rewrite Hp.
    destruct (issue_no_success _ Hne) as [es ->]. eauto. }
  assert (Hcases :
    (forall parsed, parsed_fields JSON_parse (body req) = Normal parsed ->
       issues (safeParse (sendEmailRequestSchema is_email)
                         (requestData (body req) parsed)) <> []) ->
    exists b, validate JSON_parse is_email req = inl b).
  { intros H. destruct (parsed_fields JSON_parse (body req)) as [parsed| |] eqn:Hp.
    - apply (Hschema parsed); [apply H|]; assumption || reflexivity.
    - unfold validate. rewrite Hp. eauto.
    - unfold validate. rewrite Hp. eauto. }
  intros [e He|parsed Hp Hne|sc ccv bccv Hp|sc items ccv bccv Hp Hbad|Hs|Hh|e Hc He|file Hin Hbad].
  - unfold validate. rewrite He. eauto.
  - eauto.
  - refine (Hschema _ _ Hp). intros E.
    rewrite request_issues in E.
    apply app_eq_nil in E. destruct E as [_ E].
    apply app_eq_nil in E. destruct E as [E _].
    revert E. apply recipients_invalid. left. reflexivity.
  - refine (Hschema _ _ Hp). intros E.
    rewrite request_issues in E.
    apply app_eq_nil in E. destruct E as [_ E].
    apply app_eq_nil in E. destruct E as [E _].
    revert E. apply recipients_invalid. right. exact Hbad.
  - apply Hcases. intros [[[sc rc] ccv] bccv] _ E.
    rewrite request_issues, Hs in E.
    do 2 (apply app_eq_nil in E; destruct E as [_ E]).
    apply app_eq_nil in E. destruct E as [E _]. discriminate.
  - apply Hcases. intros [[[sc rc] ccv] bccv] _ E.
    rewrite request_issues, Hh in E.
    do 3 (apply app_eq_nil in E; destruct E as [_ E]).
    apply app_eq_nil in E. destruct E as [E _]. discriminate.
  - unfold validate, parsed_fields, parse_fields, JSON_parse_m, bind, throw.
    rewrite Hc, He. cbn. eauto.
  - unfold validate.
    destruct (parsed_fields JSON_parse (body req)); eauto.
    destruct (safeParse _ _); eauto.
    destruct (find_disallowed _ _ Hin Hbad) as [f ->]. eauto.
Qed.

End ValidationFacts.

(** ** The dispatch loop and the status stream *)

(** C1.  For a validated request with N recipients whose credentials were
    verified, the handler writes exactly N "sending" units and exactly N
    terminal units ("sent" or "failed"), each recipient's "sending" unit
    directly followed by its terminal unit, both in the order of the validated
    recipient list; the summary written last lists the terminal statuses,
    its totalSent and totalFailed count the "sent" and the "failed" ones, and
    they add up to N. *)
Theorem dispatch_counts
  (JSON_parse : string -> json + thrown) (is_email : string -> bool)
  (env : Env) (req : Request) (vd : SendEmailRequest) (atts : list Attachment)
  (Hvalid : validate JSON_parse is_email req = inr (vd, atts))
  (Hauth : verify_result env (transporter_of vd) = None) :
  let tr := run JSON_parse is_email env req in
  let ws := written_statuses tr in
  let terminals := filter is_terminal ws in
  let N := List.length (recipients vd) in
  map email (filter is_sending ws) = recipients vd
  /\ List.length (filter is_sending ws) = N
  /\ map email terminals = recipients vd
  /\ List.length terminals = N
  /\ ws = flat_map (fun s => [ {| email := email s; status := sending; error := None |}; s ])
                   terminals
  /\ exists resp,
       final_units tr = [UComplete resp]
       /\ resp_results resp = terminals
       /\ resp_totalSent resp = count_status sent terminals
       /\ resp_totalFailed resp = count_status failed terminals
       /\ resp_totalSent resp + resp_totalFailed resp = N.
Proof.
  intros tr ws terminals N. subst tr ws terminals N.
  rewrite run_spec, Hvalid, Hauth.
  cbn [written_statuses final_units app sse_headers].
  rewrite written_statuses_app, final_units_app, loop_final_units.
  cbn [written_statuses final_units app]. rewrite app_nil_r.
  rewrite loop_terminals, loop_sendings, loop_results_email, loop_results_length.
  repeat split.
  - rewrite <- (loop_sendings env vd atts (recipients vd) 0) at 2.
    rewrite length_map. reflexivity.
  - apply loop_written.
  - eexists. split; [reflexivity|]. unfold summary. cbn.
    repeat split. apply loop_results_count.
Qed.

Lemma dispatch_counts_witness :
  List.length
    (filter is_sending
       (written_statuses
          (run sample_parse sample_is_email (env_reject 0 (ErrorObj "550 mailbox unavailable"))
               sample_request))) = 2.
Proof.
  exact (proj1 (proj2 (@dispatch_counts sample_parse sample_is_email
                         (env_reject 0 (ErrorObj "550 mailbox unavailable"))
                         sample_request sample_validated [] eq_refl eq_refl))).
Defined.

(** C5.  When the verification of the credentials is attempted and fails,
    the handler answers 401 with one JSON body and does nothing else: no
    stream header is set, nothing is written on a stream and no message is
    sent. *)
Theorem auth_failure_aborts
  (JSON_parse : string -> json + thrown) (is_email : string -> bool)
  (env : Env) (req : Request) (t : Transporter) (e : thrown)
  (Hverify : In (EvVerify t) (run JSON_parse is_email env req))
  (Hfail : verify_result env t = Some e) :
  let tr := run JSON_parse is_email env req in
  tr = [EvCreateTransport t; EvVerify t; EvJson 401 auth_failed_body]
  /\ written_statuses tr = []
  /\ final_units tr = []
  /\ sent_messages tr = []
  /\ ~ stream_opened tr.
Proof.
  intros tr. subst tr. revert Hverify. rewrite run_spec.
  destruct (validate JSON_parse is_email req) as [b|[vd atts]].
  - intros [H|[]]. discriminate.
  - destruct (verify_result env (transporter_of vd)) as [e'|] eqn:Hv.
    + intros [H|[H|[H|[]]]]; try discriminate. injection H as <-.
      repeat split. unfold stream_opened. intros [H|[H|[H|[]]]]; discriminate.
    + intros [H|[H|H]]; try discriminate.
      * injection H as <-. congruence.
      * exfalso. unfold sse_headers in H. cbn in H.
        destruct H as [H|[H|[H|H]]]; try discriminate.
        apply in_app_or in H. destruct H as [H|[H|[H|[]]]]; try discriminate.
        apply loop_events_shape in H.
        destruct H as [[s H]|[r [_ H]]]; discriminate.
Qed.

Lemma auth_failure_aborts_witness :
  run sample_parse sample_is_email env_bad_login sample_request
  = [EvCreateTransport (transporter_of sample_validated);
     EvVerify (transporter_of sample_validated);
     EvJson 401 auth_failed_body].
Proof.
  refine (proj1 (@auth_failure_aborts sample_parse sample_is_email env_bad_login
                   sample_request (transporter_of sample_validated)
                   (ErrorObj "Invalid login") _ eq_refl)).
  vm_compute. right. left. reflexivity.
Defined.

(** C6.  A request that is not valid (a JSON field that does not parse, a
    schema issue such as no recipient, an invalid recipient or a missing
    subject or body, or an attachment whose declared type is outside the
    allowed list) is answered with one 400 JSON body and nothing else: no
    transporter is made, nothing is verified or sent, no stream is opened. *)
Theorem invalid_request_is_rejected_whole
  (JSON_parse : string -> json + thrown) (is_email : string -> bool)
  (env : Env) (req : Request)
  (Hinvalid : invalid_request JSON_parse is_email req) :
  let tr := run JSON_parse is_email env req in
  (exists b, tr = [EvJson 400 b])
  /\ forallb quiet tr = true
  /\ written_statuses tr = []
  /\ sent_messages tr = [].
Proof.
  intros tr. subst tr. rewrite run_spec.
  destruct (invalid_request_rejected Hinvalid) as [b ->].
  repeat split. exists b. reflexivity.
Qed.

Lemma invalid_request_is_rejected_whole_witness :
  forallb quiet
    (run sample_parse sample_is_email env_ok
         {| body := sample_body config_text two_recipients_text;
            files := Some [zip_file] |}) = true.
Proof.
  refine (proj1 (proj2 (@invalid_request_is_rejected_whole sample_parse sample_is_email
                          env_ok _ _))).
  apply disallowed_attachment with (file := zip_file).
  - left. reflexivity.
  - reflexivity.
Defined.

Section AcceptedRuns.

Variable JSON_parse : string -> json + thrown.
Variable is_email : string -> bool.

(** The run of a validated request whose credentials were verified. *)
Lemma run_accepted (env : Env) (req : Request) vd atts :
  validate JSON_parse is_email req = inr (vd, atts) ->
  verify_result env (transporter_of vd) = None ->
  run JSON_parse is_email env req =
  EvCreateTransport (transporter_of vd) :: EvVerify (transporter_of vd) ::
  sse_headers ++ loop_events env vd atts 0 (recipients vd)
  ++ [EvWrite (UComplete (summary env vd atts)); EvEnd].
Proof. intros Hv Ha. rewrite run_spec, Hv, Ha. reflexivity. Qed.

Lemma outcomes_accepted (env : Env) (req : Request) vd atts :
  validate JSON_parse is_email req = inr (vd, atts) ->
  verify_result env (transporter_of vd) = None ->
  outcomes (run JSON_parse is_email env req)
  = loop_results env vd atts 0 (recipients vd).
Proof.
  intros Hv Ha. unfold outcomes. rewrite (run_accepted _ _ Hv Ha).
  cbn [written_statuses sse_headers app].
  rewrite written_statuses_app. cbn [written_statuses]. rewrite app_nil_r.
  apply loop_terminals.
Qed.

Lemma sent_messages_accepted (env : Env) (req : Request) vd atts :
  validate JSON_parse is_email req = inr (vd, atts) ->
  verify_result env (transporter_of vd) = None ->
  sent_messages (run JSON_parse is_email env req)
  = map (mailOptions vd atts) (recipients vd).
Proof.
  intros Hv Ha. rewrite (run_accepted _ _ Hv Ha).
  cbn [sent_messages sse_headers app].
  rewrite sent_messages_app. cbn [sent_messages]. rewrite app_nil_r.
  apply loop_sent_messages.
Qed.

(** Whatever the mail service answers, a message that is sent is the one
    the validated request determines for its recipient. *)
Lemma sent_messages_any (env : Env) (req : Request) vd atts m :
  validate JSON_parse is_email req = inr (vd, atts) ->
  In m (sent_messages (run JSON_parse is_email env req)) ->
  exists r, In r (recipients vd) /\ m = mailOptions vd atts r.
Proof.
  intros Hv Hin. rewrite run_spec, Hv in Hin.
  destruct (verify_result env (transporter_of vd)) eqn:Ha; [destruct Hin|].
  cbn [sent_messages sse_headers app] in Hin.
  rewrite sent_messages_app, loop_sent_messages in Hin.
  cbn [sent_messages] in Hin. rewrite app_nil_r in Hin.
  apply in_map_iff in Hin. destruct Hin as (r & <- & Hr). eauto.
Qed.

End AcceptedRuns.

Lemma failure_reason_nonempty (e : thrown) :
  (instanceof_Error e = true -> error_message e <> "") -> failure_reason e <> "".
Proof.
  unfold failure_reason. destruct (instanceof_Error e); [auto|discriminate].
Qed.

(** C2, as the code has it.  A rejected send does not end the batch: every
    recipient of the validated request is attempted, with the message the
    request determines, whatever the mail service answers.  The recipient
    whose send is rejected gets the terminal status "failed", whose reason
    is the message of the thrown Error, or "Unknown error" when what was
    thrown is not an Error (so the reason is non-empty unless an Error with
    an empty message was thrown).  Against a mail service that answers
    differently for that one send only, every other recipient is attempted
    with the same message and ends with the same status. *)
Theorem failure_is_isolated
  (JSON_parse : string -> json + thrown) (is_email : string -> bool)
  (env env' : Env) (req : Request) (vd : SendEmailRequest)
  (atts : list Attachment) (i : nat)
  (Hvalid : validate JSON_parse is_email req = inr (vd, atts))
  (Hauth : verify_result env (transporter_of vd) = None)
  (Hauth' : verify_result env' (transporter_of vd) = None)
  (Hsame : forall j m, j <> i ->
     sendMail_result env j (transporter_of vd) m
     = sendMail_result env' j (transporter_of vd) m) :
  let tr := run JSON_parse is_email env req in
  let tr' := run JSON_parse is_email env' req in
  sent_messages tr = map (mailOptions vd atts) (recipients vd)
  /\ sent_messages tr' = sent_messages tr
  /\ (forall j, j <> i -> nth_error (outcomes tr) j = nth_error (outcomes tr') j)
  /\ (forall r e,
        nth_error (recipients vd) i = Some r ->
        sendMail_result env i (transporter_of vd) (mailOptions vd atts r) = Some e ->
        nth_error (outcomes tr) i
        = Some {| email := r; status := failed; error := Some (failure_reason e) |}
        /\ ((instanceof_Error e = true -> error_message e <> "") ->
            failure_reason e <> "")).
Proof.
  intros tr tr'. subst tr tr'.
  rewrite !(outcomes_accepted _ _ _ _ Hvalid Hauth),
          !(outcomes_accepted _ _ _ _ Hvalid Hauth'),
          !(sent_messages_accepted _ _ _ _ Hvalid Hauth),
          !(sent_messages_accepted _ _ _ _ Hvalid Hauth').
  split; [reflexivity|]. split; [reflexivity|]. split.
  - intros j Hj. rewrite !loop_results_nth. cbn.
    destruct (nth_error (recipients vd) j) as [r|]; [|reflexivity]. cbn.
    unfold terminal_status. rewrite (Hsame j _ Hj). reflexivity.
  - intros r e Hr He. split; [|apply failure_reason_nonempty].
    rewrite loop_results_nth, Hr. cbn. unfold terminal_status. rewrite He.
    reflexivity.
Qed.

Lemma failure_is_isolated_witness :
  nth_error (outcomes (run sample_parse sample_is_email
                           (env_reject 0 (ErrorObj "550 mailbox unavailable"))
                           sample_request)) 0
  = Some {| email := "a@x.com"; status := failed;
            error := Some "550 mailbox unavailable" |}.
Proof.
  refine (proj1 (proj2 (proj2 (proj2
    (@failure_is_isolated sample_parse sample_is_email
       (env_reject 0 (ErrorObj "550 mailbox unavailable")) env_ok
       sample_request sample_validated [] 0 eq_refl eq_refl eq_refl _)))
    "a@x.com" (ErrorObj "550 mailbox unavailable") eq_refl eq_refl)).
  intros j m Hj. destruct j as [|j]; [destruct Hj; reflexivity|reflexivity].
Defined.

(** C2 as stated fails: an Error with an empty message leaves the failed
    recipient with an empty reason. *)
Lemma empty_reason_counterexample :
  outcomes (run sample_parse sample_is_email (env_reject 0 (ErrorObj "")) sample_request)
  = [ {| email := "a@x.com"; status := failed; error := Some "" |};
      {| email := "b@x.com"; status := sent; error := None |} ].
Proof. vm_compute. reflexivity. Qed.

(** The example of C2: the first of two recipients fails, the second is sent. *)
Example first_fails_second_sent :
  outcomes (run sample_parse sample_is_email
                (env_reject 0 (ErrorObj "550 mailbox unavailable")) sample_request)
  = [ {| email := "a@x.com"; status := failed;
         error := Some "550 mailbox unavailable" |};
      {| email := "b@x.com"; status := sent; error := None |} ].
Proof. vm_compute. reflexivity. Qed.

(** Three recipients, the second rejected: two sent, one failed. *)
Example second_of_three_rejected :
  final_units (run sample_parse sample_is_email
                   (env_reject 1 (ErrorObj "550 mailbox unavailable"))
                   three_recipients_request)
  = [ UComplete
        {| resp_results :=
             [ {| email := "a@x.com"; status := sent; error := None |};
               {| email := "b@x.com"; status := failed;
                  error := Some "550 mailbox unavailable" |};
               {| email := "c@x.com"; status := sent; error := None |} ];
           resp_totalSent := 2;
           resp_totalFailed := 1 |} ].
Proof. vm_compute. reflexivity. Qed.

(** ** The transporter and the end of the stream *)

Lemma loop_within_session env vd atts rs i e :
  In e (loop_events env vd atts i rs) -> within_session (transporter_of vd) e.
Proof.
  intros H. apply loop_events_shape in H.
  destruct H as [[s ->]|[r [_ ->]]]; exact I || reflexivity.
Qed.

(** C8.  Once the stream is opened, the trace ends with the write of one
    final unit followed by the end of the response, and no final unit and
    no end of the response comes before. *)
Theorem stream_ends_with_one_final_unit
  (JSON_parse : string -> json + thrown) (is_email : string -> bool)
  (env : Env) (req : Request)
  (Hopen : stream_opened (run JSON_parse is_email env req)) :
  let tr := run JSON_parse is_email env req in
  exists before u,
    tr = before ++ [EvWrite u; EvEnd]
    /\ is_final_unit u
    /\ final_units before = []
    /\ ~ In EvEnd before
    /\ final_units tr = [u].
Proof.
  intros tr. subst tr. revert Hopen. unfold stream_opened. rewrite run_spec.
  destruct (validate JSON_parse is_email req) as [b|[vd atts]].
  { intros [H|[]]. discriminate. }
  destruct (verify_result env (transporter_of vd)).
  { intros [H|[H|[H|[]]]]; discriminate. }
  intros _.
  exists (EvCreateTransport (transporter_of vd) :: EvVerify (transporter_of vd)
          :: sse_headers ++ loop_events env vd atts 0 (recipients vd)),
         (UComplete (summary env vd atts)).
  split; [cbn; reflexivity|].
  split; [exact I|].
  split; [cbn; apply loop_final_units|].
  split.
  - cbn. intros [H|[H|[H|[H|[H|H]]]]]; try discriminate.
    apply loop_events_shape in H. destruct H as [[s H]|[r [_ H]]]; discriminate.
  - cbn. rewrite final_units_app, loop_final_units. reflexivity.
Qed.

Lemma stream_ends_with_one_final_unit_witness :
  exists before u,
    run sample_parse sample_is_email env_ok sample_request = before ++ [EvWrite u; EvEnd]
    /\ is_final_unit u
    /\ final_units before = []
    /\ ~ In EvEnd before
    /\ final_units (run sample_parse sample_is_email env_ok sample_request) = [u].
Proof.
  apply (@stream_ends_with_one_final_unit sample_parse sample_is_email env_ok sample_request).
  vm_compute. do 2 right. left. reflexivity.
Defined.

(** In this model nothing escapes the loop, so the final unit is always
    the summary. *)
Lemma final_unit_is_summary
  (JSON_parse : string -> json + thrown) (is_email : string -> bool)
  (env : Env) (req : Request) (msg : string) :
  ~ In (EvWrite (UError msg)) (run JSON_parse is_email env req).
Proof.
  rewrite run_spec.
  destruct (validate JSON_parse is_email req) as [b|[vd atts]].
  { intros [H|[]]. discriminate. }
  destruct (verify_result env (transporter_of vd)).
  { intros [H|[H|[H|[]]]]; discriminate. }
  cbn. intros [H|[H|[H|[H|[H|H]]]]]; try discriminate.
  apply in_app_or in H. destruct H as [H|[H|[H|[]]]]; try discriminate.
  apply loop_events_shape in H. destruct H as [[s H]|[r [_ H]]]; discriminate.
Qed.

(** ** The sender address *)

(** C3 fails on the handler: the sender address of every message is the
    [fromEmail] member of the request's [smtpConfig] field when the caller
    supplies one, and the fixed address only when that member is absent.
    Two requests that differ in that member only are sent from different
    addresses. *)
Theorem from_address_follows_request :
  map m_from (sent_messages (run sample_parse sample_is_email env_ok sample_request))
  = ["crmsupport@legacylifespaces.com"; "crmsupport@legacylifespaces.com"]
  /\ map m_from (sent_messages (run sample_parse sample_is_email env_ok request_with_from))
     = ["ceo@bank.example"; "ceo@bank.example"].
Proof. vm_compute. split; reflexivity. Qed.

(** ** The plain-text body *)

Lemma index_gt_lt (s : text) : forall j, index_gt s = Some j -> j < List.length s.
Proof.
  induction s as [|c s IH]; intros j H; [discriminate|].
  cbn in H. destruct (Ascii.eqb c ">").
  - injection H as <-. cbn. lia.
  - destruct (index_gt s) as [j'|]; [|discriminate].
    injection H as <-. specialize (IH j' eq_refl). cbn. lia.
Qed.

Lemma has_gt_index (s : text) :
  has_gt s = match index_gt s with Some _ => true | None => false end.
Proof.
  induction s as [|c s IH]; [reflexivity|].
  change (has_gt (c :: s)) with (Ascii.eqb c ">" || has_gt s).
  cbn [index_gt]. destruct (Ascii.eqb c ">"); [reflexivity|].
  cbn [orb]. rewrite IH. destruct (index_gt s); reflexivity.
Qed.

Lemma many_cons cls min (c : ascii) (s : text) k :
  many cls min (c :: s) k =
  if cls c then
    match many cls (pred min) s k with
    | Some r => Some r
    | None => if min =? 0 then k (c :: s) else None
    end
  else if min =? 0 then k (c :: s) else None.
Proof. reflexivity. Qed.

Lemma many_nil cls min k :
  many cls min [] k = if min =? 0 then k [] else None.
Proof. reflexivity. Qed.

Lemma exec_chr_cons (c x : ascii) (s : text) k :
  exec (Chr c) (x :: s) k = if Ascii.eqb x c then k s else None.
Proof. reflexivity. Qed.

(** [[^>]*>] from a given position: greedy up to the first [>]. *)
Lemma many_not_gt (s : text) :
  many cls_not_gt 0 s (fun s1 => exec (Chr ">") s1 (fun rest => Some rest))
  = match index_gt s with
    | Some j => Some (skipn (S j) s)
    | None => None
    end.
Proof.
  induction s as [|c s IH]; [reflexivity|].
  rewrite many_cons. change (pred 0) with 0. rewrite IH.
  change (0 =? 0) with true. cbn beta iota. rewrite exec_chr_cons.
  cbn [index_gt]. unfold cls_not_gt.
  destruct (Ascii.eqb c ">") eqn:E; cbn [negb].
  - reflexivity.
  - destruct (index_gt s); reflexivity.
Qed.

Lemma match_at_tag (c : ascii) (s : text) :
  match_at tagRegex (c :: s) =
  if Ascii.eqb c "<" then
    match index_gt s with
    | Some j => Some (c :: firstn (S j) s)
    | None => None
    end
  else None.
Proof.
  unfold match_at, tagRegex. cbn [exec].
  destruct (Ascii.eqb c "<"); [|reflexivity].
  rewrite many_not_gt. destruct (index_gt s) as [j|] eqn:E; [|reflexivity].
  apply index_gt_lt in E. rewrite length_skipn. cbn [List.length].
  replace (S (List.length s) - (List.length s - S j)) with (S (S j)) by lia.
  reflexivity.
Qed.

Lemma match_at_tag_nil : match_at tagRegex [] = None.
Proof. reflexivity. Qed.

(** The regex replacement computes [remove_tags]. *)
Lemma replace_from_tags (s : text) :
  replace_from tagRegex [] s 0 = remove_tags false s
  /\ forall j, index_gt s = Some j ->
       replace_from tagRegex [] s (S j) = remove_tags true s.
Proof.
  induction s as [|c s [IH0 IH1]]; [split; [reflexivity|discriminate]|].
  split.
  - cbn [replace_from remove_tags]. rewrite match_at_tag, has_gt_index.
    destruct (Ascii.eqb c "<"); cbn [andb].
    + destruct (index_gt s) as [j|] eqn:E.
      * cbn [app List.length]. rewrite Nat.sub_succ, Nat.sub_0_r.
        rewrite length_firstn. apply index_gt_lt in E as Hlt.
        replace (Nat.min (S j) (List.length s)) with (S j) by lia.
        apply IH1. reflexivity.
      * rewrite IH0. reflexivity.
    + rewrite IH0. reflexivity.
  - intros j Hj. cbn [replace_from remove_tags]. cbn in Hj.
    destruct (Ascii.eqb c ">").
    + injection Hj as <-. exact IH0.
    + destruct (index_gt s) as [j'|]; [|discriminate].
      injection Hj as <-. apply IH1. reflexivity.
Qed.

Lemma String_replace_tags_spec (s : string) :
  String_replace_tags s = without_tags s.
Proof.
  unfold String_replace_tags, without_tags, String_replace.
  rewrite (proj1 (replace_from_tags (of_string s))). reflexivity.
Qed.

(** Nothing that [/<[^>]*>/g] matches is left in the result. *)
Lemma has_gt_cons (c : ascii) (s : text) :
  has_gt (c :: s) = Ascii.eqb c ">" || has_gt s.
Proof. reflexivity. Qed.

Lemma remove_tags_no_gt (s : text) :
  has_gt s = false -> remove_tags false s = s.
Proof.
  induction s as [|c s IH]; [reflexivity|].
  rewrite has_gt_cons. intros H. apply orb_false_iff in H. destruct H as [_ H].
  cbn [remove_tags]. rewrite H, andb_false_r, (IH H). reflexivity.
Qed.

Lemma remove_tags_clean (s : text) : forall inside,
  (inside = true -> has_gt s = true) ->
  match_all_from tagRegex (remove_tags inside s) 0 = [].
Proof.
  induction s as [|c s IH]; intros inside Hin; [reflexivity|].
  cbn [remove_tags]. destruct inside.
  - specialize (Hin eq_refl). rewrite has_gt_cons in Hin.
    destruct (Ascii.eqb c ">"); [apply IH; discriminate|].
    apply IH. intros _. exact Hin.
  - destruct (Ascii.eqb c "<" && has_gt s) eqn:E.
    + apply andb_true_iff in E. destruct E as [_ E]. apply IH. intros _. exact E.
    + cbn [match_all_from]. rewrite match_at_tag.
      destruct (Ascii.eqb c "<") eqn:Ec; [|apply IH; discriminate].
      cbn [andb] in E. pose proof (remove_tags_no_gt _ E) as Hs.
      rewrite Hs. rewrite has_gt_index in E.
      destruct (index_gt s); [discriminate|].
      rewrite <- Hs. apply IH. discriminate.
Qed.

Section Validated.

Variable JSON_parse : string -> json + thrown.
Variable is_email : string -> bool.

(** What a validated request says about the raw request. *)
Lemma validate_inr (req : Request) vd atts :
  validate JSON_parse is_email req = inr (vd, atts) ->
  exists parsed,
    parsed_fields JSON_parse (body req) = Normal parsed
    /\ safeParse (sendEmailRequestSchema is_email) (requestData (body req) parsed)
       = ParseSuccess vd
    /\ find disallowed (files_of req) = None
    /\ atts = map to_attachment (files_of req).
Proof.
  unfold validate.
  destruct (parsed_fields JSON_parse (body req)) as [parsed| |]; try discriminate.
  destruct (safeParse _ _) as [vd'|] eqn:E; try discriminate.
  destruct (find disallowed (files_of req)); try discriminate.
  intros [= <- <-]. exists parsed. repeat split. exact E.
Qed.

Lemma validated_bodies (req : Request) vd atts :
  validate JSON_parse is_email req = inr (vd, atts) ->
  body_subject (body req) = Some (subject vd)
  /\ body_htmlBody (body req) = Some (htmlBody vd)
  /\ body_textBody (body req) = textBody vd.
Proof.
  intros H. apply validate_inr in H.
  destruct H as ([[[sc rc] ccv] bccv] & _ & H & _).
  apply safeParse_success in H. tauto.
Qed.

End Validated.

Lemma plain_text_cases
  (JSON_parse : string -> json + thrown) (is_email : string -> bool)
  (env : Env) (req : Request) (vd : SendEmailRequest) (atts : list Attachment)
  (m : MailOptions) :
  validate JSON_parse is_email req = inr (vd, atts) ->
  In m (sent_messages (run JSON_parse is_email env req)) ->
  body_htmlBody (body req) = Some (m_html m)
  /\ (body_textBody (body req) = None \/ body_textBody (body req) = Some "" ->
      m_text m = without_tags (m_html m))
  /\ (forall t, body_textBody (body req) = Some t -> t <> "" -> m_text m = t).
Proof.
  intros Hvalid Hsent.
  destruct (validated_bodies _ _ _ Hvalid) as (_ & Hh & Ht).
  destruct (sent_messages_any _ _ _ _ _ Hvalid Hsent) as (r & _ & ->).
  cbn [m_html m_text mailOptions]. rewrite Hh, Ht, String_replace_tags_spec.
  repeat split.
  - intros [->| ->]; reflexivity.
  - intros t -> Hne. cbn. destruct (String.eqb_spec t ""); [contradiction|reflexivity].
Qed.

(** C10.  In every message sent for a validated request, the HTML body is
    the request's htmlBody; when the request's textBody is absent or empty
    the plain-text body is the htmlBody with every tag removed, and when
    textBody is present and not empty it is used unchanged. *)
Theorem plain_text_body
  (JSON_parse : string -> json + thrown) (is_email : string -> bool)
  (env : Env) (req : Request) (vd : SendEmailRequest) (atts : list Attachment)
  (m : MailOptions)
  (Hvalid : validate JSON_parse is_email req = inr (vd, atts))
  (Hsent : In m (sent_messages (run JSON_parse is_email env req))) :
  body_htmlBody (body req) = Some (m_html m)
  /\ (body_textBody (body req) = None \/ body_textBody (body req) = Some "" ->
      m_text m = without_tags (m_html m))
  /\ (forall t, body_textBody (body req) = Some t -> t <> "" -> m_text m = t)
  /\ match_all_from tagRegex (of_string (without_tags (m_html m))) 0 = [].
Proof.
  destruct (@plain_text_cases _ _ _ _ _ _ _ Hvalid Hsent) as (Hh & Hempty & Hgiven).
  repeat split; try assumption.
  unfold without_tags, of_string, to_string.
  rewrite list_ascii_of_string_of_list_ascii.
  apply remove_tags_clean. discriminate.
Qed.

Lemma plain_text_body_witness :
  m_text (mailOptions sample_validated [] "a@x.com") = "Hi there".
Proof.
  refine (eq_trans
    (proj1 (proj2 (@plain_text_body sample_parse sample_is_email env_ok sample_request
                     sample_validated [] (mailOptions sample_validated [] "a@x.com")
                     eq_refl _)) (or_introl eq_refl)) _).
  - vm_compute. left. reflexivity.
  - vm_compute. reflexivity.
Defined.

(** ** The sender address, in general *)

Lemma z_string_value checks p v s :
  z_string checks p v = ParseSuccess s -> v = Some (JStr s).
Proof.
  unfold z_string. destruct v as [[| | |s'| |]|]; try discriminate.
  generalize (flat_map (fun chk : list path_elem -> string -> list ZodIssue => chk p s')
                       checks).
  intros [|z l]; [|discriminate]. intros [= <-]. reflexivity.
Qed.

Lemma smtpConfig_fromEmail (is_email : string -> bool) p members c :
  smtpConfigSchema is_email p (Some (JObj members)) = ParseSuccess c ->
  prop members "fromEmail" = Some (JStr (fromEmail c))
  \/ (prop members "fromEmail" = None
      /\ fromEmail c = "crmsupport@legacylifespaces.com").
Proof.
  unfold smtpConfigSchema, z_object, field. intros H.
  apply ap_success in H. destruct H as (g5 & a5 & H & E5 & ->).
  apply ap_success in H. destruct H as (g4 & a4 & H & _ & ->).
  apply ap_success in H. destruct H as (g3 & a3 & H & _ & ->).
  apply ap_success in H. destruct H as (g2 & a2 & H & _ & ->).
  apply ap_success in H. destruct H as (g1 & a1 & H & _ & ->).
  injection H as <-. cbn [fromEmail].
  unfold z_default in E5. destruct (prop members "fromEmail") as [v|].
  - left. apply z_string_value in E5. exact E5.
  - right. apply z_string_value in E5. injection E5 as <-. split; reflexivity.
Qed.

(** Whatever address the caller puts in the [fromEmail] member of
    [smtpConfig], once it passes the e-mail test it is the sender of every
    message of the batch. *)
Lemma from_address_is_request_member
  (JSON_parse : string -> json + thrown) (is_email : string -> bool)
  (env : Env) (req : Request) (vd : SendEmailRequest) (atts : list Attachment)
  members rc ccv bccv (m : MailOptions) :
  validate JSON_parse is_email req = inr (vd, atts) ->
  parsed_fields JSON_parse (body req) = Normal (JObj members, rc, ccv, bccv) ->
  In m (sent_messages (run JSON_parse is_email env req)) ->
  match prop members "fromEmail" with
  | Some v => v = JStr (m_from m)
  | None => m_from m = "crmsupport@legacylifespaces.com"
  end.
Proof.
  intros Hvalid Hp Hsent.
  destruct (sent_messages_any _ _ _ _ _ Hvalid Hsent) as (r & _ & ->).
  cbn [m_from mailOptions].
  apply validate_inr in Hvalid. destruct Hvalid as (parsed & Hp' & Hs & _).
  rewrite Hp in Hp'. injection Hp' as <-.
  apply safeParse_success in Hs. destruct Hs as (Hc & _).
  apply smtpConfig_fromEmail in Hc. destruct Hc as [->|[-> ->]]; reflexivity.
Qed.

(** ** The validator's answer *)

Section ConstraintFacts.

Variable JSON_parse : string -> json + thrown.
Variable is_email : string -> bool.

Lemma z_string_issues checks p v :
  issues (z_string checks p v) = string_violations checks p v.
Proof.
  unfold z_string, string_violations.
  destruct v as [[| | |s| |]|]; try reflexivity.
  generalize (flat_map (fun chk : list path_elem -> string -> list ZodIssue => chk p s)
                       checks).
  intros [|z l]; reflexivity.
Qed.

Lemma z_number_issues p v : issues (z_number p v) = number_violations p v.
Proof. destruct v as [[]|]; reflexivity. Qed.

Lemma parse_items_issues p items : forall i,
  issues (parse_items (z_string [email_check is_email]) p i items)
  = address_violations is_email p i items.
Proof.
  induction items as [|x rest IH]; intros i; [reflexivity|].
  cbn [parse_items address_violations].
  rewrite !issues_ap, z_string_issues, IH. reflexivity.
Qed.

Lemma z_array_issues min_msg p v :
  issues (z_array (z_string [email_check is_email]) min_msg p v)
  = address_list_violations is_email min_msg p v.
Proof.
  unfold z_array, address_list_violations.
  destruct v as [[| | | |items|]|]; try reflexivity.
  rewrite !issues_ap, parse_items_issues. cbn [issues pure app].
  destruct min_msg as [msg|], items as [|x rest]; reflexivity.
Qed.

Lemma z_optional_issues {A} (inner : Schema A) p v :
  issues (z_optional inner p v) = optional_violations (fun p v => issues (inner p v)) p v.
Proof.
  unfold z_optional, optional_violations. destruct v; [|reflexivity].
  rewrite issues_ap. reflexivity.
Qed.

Lemma smtpConfig_issues p v :
  issues (smtpConfigSchema is_email p v) = config_violations is_email p v.
Proof.
  unfold smtpConfigSchema, z_object, config_violations, field.
  destruct v as [[| | | | |members]|]; try reflexivity.
  rewrite !issues_ap, !z_string_issues. cbn [issues pure app].
  rewrite <- !app_assoc. repeat f_equal.
  - unfold z_default, default_violations.
    destruct (prop members "host"); apply z_string_issues.
  - unfold z_default, default_violations.
    destruct (prop members "port"); apply z_number_issues.
  - unfold z_default, default_violations.
    destruct (prop members "fromEmail"); apply z_string_issues.
Qed.

Lemma optional_violations_ext f g p v :
  (forall p v, f p v = g p v) -> optional_violations f p v = optional_violations g p v.
Proof. intros H. destruct v; [apply H|reflexivity]. Qed.

(** zod's answer lists the violations of all the constraints. *)
Lemma safeParse_issues (b : ReqBody) parsed :
  issues (safeParse (sendEmailRequestSchema is_email) (requestData b parsed))
  = violations is_email b parsed.
Proof.
  destruct parsed as [[[sc rc] ccv] bccv].
  rewrite request_issues. unfold violations, recipientsSchema, addressesSchema.
  rewrite smtpConfig_issues, z_array_issues, !z_string_issues, !z_optional_issues.
  rewrite (optional_violations_ext
             (fun p v => issues (z_string [] p v)) (string_violations []))
    by (intros; apply z_string_issues).
  rewrite !(optional_violations_ext
              (fun p v => issues (z_array (z_string [email_check is_email]) None p v))
              (address_list_violations is_email None))
    by (intros; apply z_array_issues).
  reflexivity.
Qed.

End ConstraintFacts.

(** *** A failed parse names at least one issue *)

Lemma informative_ap {A B} (f : SafeParseReturn (A -> B)) (x : SafeParseReturn A) :
  informative f -> informative x -> informative (f <*> x).
Proof.
  intros Hf Hx es. destruct f as [g|ef], x as [a|ex]; cbn; try discriminate;
    intros [= <-].
  - apply (Hx ex eq_refl).
  - rewrite app_nil_r. apply (Hf ef eq_refl).
  - intros E. apply app_eq_nil in E. destruct E as [E _]. apply (Hf ef eq_refl E).
Qed.

Lemma informative_pure {A} (a : A) : informative (pure a).
Proof. intros es. discriminate. Qed.

Lemma informative_z_string checks p v : informative (z_string checks p v).
Proof.
  intros es. unfold z_string. destruct v as [[| | |s| |]|];
    try (intros [= <-]; discriminate).
  generalize (flat_map (fun chk : list path_elem -> string -> list ZodIssue => chk p s)
                       checks).
  intros [|z l]; [discriminate|]. intros [= <-]. discriminate.
Qed.

Lemma informative_z_number p v : informative (z_number p v).
Proof. intros es. destruct v as [[]|]; cbn; intros [= <-]; discriminate. Qed.

Lemma informative_z_default {A} (inner : Schema A) d p v :
  (forall v, informative (inner p v)) -> informative (z_default inner d p v).
Proof. intros H. unfold z_default. destruct v; apply H. Qed.

Lemma informative_z_optional {A} (inner : Schema A) p v :
  (forall v, informative (inner p v)) -> informative (z_optional inner p v).
Proof.
  intros H. unfold z_optional. destruct v; [|apply informative_pure].
  apply informative_ap; [apply informative_pure|apply H].
Qed.

Lemma informative_parse_items (is_email : string -> bool) p items : forall i,
  informative (parse_items (z_string [email_check is_email]) p i items).
Proof.
  induction items as [|x rest IH]; intros i; [apply informative_pure|].
  cbn [parse_items]. repeat apply informative_ap.
  - apply informative_pure.
  - apply informative_z_string.
  - apply IH.
Qed.

Lemma informative_z_array (is_email : string -> bool) min_msg p v :
  informative (z_array (z_string [email_check is_email]) min_msg p v).
Proof.
  unfold z_array. destruct v as [[| | | |items|]|];
    try (intros es [= <-]; discriminate).
  repeat apply informative_ap.
  - apply informative_pure.
  - intros es. destruct min_msg as [msg|]; [|discriminate].
    destruct (List.length items <? 1); [|discriminate]. intros [= <-]. discriminate.
  - apply informative_parse_items.
Qed.

Lemma informative_smtpConfig (is_email : string -> bool) p v :
  informative (smtpConfigSchema is_email p v).
Proof.
  unfold smtpConfigSchema, z_object, field. destruct v as [[| | | | |members]|];
    try (intros es [= <-]; discriminate).
  repeat apply informative_ap; try apply informative_pure;
    try apply informative_z_string;
    apply informative_z_default; intros;
    (apply informative_z_string || apply informative_z_number).
Qed.

Lemma informative_request (is_email : string -> bool) (b : ReqBody) parsed :
  informative (safeParse (sendEmailRequestSchema is_email) (requestData b parsed)).
Proof.
  destruct parsed as [[[sc rc] ccv] bccv]. rewrite safeParse_requestData.
  unfold recipientsSchema, addressesSchema.
  repeat apply informative_ap; try apply informative_pure;
    try apply informative_z_string; try apply informative_smtpConfig;
    try apply informative_z_array;
    apply informative_z_optional; intros;
    (apply informative_z_string || apply informative_z_array).
Qed.

(** C9, as the code has it.  A payload that violates something is
    answered with one 400 body.  When its JSON fields parse and schema
    constraints are violated, the body lists the issue of every violated
    schema constraint, not just the first.  The attachments are looked at
    only when no schema constraint is violated, and then the body names
    the first attachment of a disallowed type.  When a JSON field does not
    parse, the body says so and no more. *)
Theorem schema_violations_all_reported
  (JSON_parse : string -> json + thrown) (is_email : string -> bool)
  (env : Env) (req : Request) (v : Violation)
  (Hviolated : violated JSON_parse is_email req v) :
  exists b,
    run JSON_parse is_email env req = [EvJson 400 b]
    /\ (forall i, violated JSON_parse is_email req (VSchema i) -> reports b (VSchema i))
    /\ (forall parsed file,
          parsed_fields JSON_parse (body req) = Normal parsed ->
          violations is_email (body req) parsed = [] ->
          find disallowed (files_of req) = Some file ->
          reports b (VFileType file))
    /\ (violated JSON_parse is_email req VJson -> reports b VJson).
Proof.
  rewrite run_spec. unfold validate.
  destruct (parsed_fields JSON_parse (body req)) as [parsed|e|] eqn:Hp.
  - destruct (safeParse _ _) as [vd|errs] eqn:E.
    + pose proof (f_equal issues E) as Hi. rewrite safeParse_issues in Hi. cbn in Hi.
      destruct (find disallowed (files_of req)) as [file|] eqn:Hf.
      * eexists. split; [reflexivity|]. repeat split.
        -- intros i (parsed' & Hp' & Hin). rewrite Hp in Hp'. injection Hp' as <-.
           rewrite Hi in Hin. destruct Hin.
        -- intros parsed' file' _ _ [= <-]. reflexivity.
        -- intros [e He]. congruence.
      * exfalso. destruct v as [|i|file]; cbn in Hviolated.
        -- destruct Hviolated as [e He]. congruence.
        -- destruct Hviolated as (parsed' & Hp' & Hin). rewrite Hp in Hp'. injection Hp' as <-.
           rewrite Hi in Hin. destruct Hin.
        -- destruct Hviolated as [Hin Hd].
           pose proof (find_none _ _ Hf _ Hin) as Hn. congruence.
    + pose proof (f_equal issues E) as Hi. rewrite safeParse_issues in Hi. cbn in Hi.
      eexists. split; [reflexivity|]. repeat split.
      * intros i (parsed' & Hp' & Hin). rewrite Hp in Hp'. injection Hp' as <-. cbn.
        exists errs. split; [reflexivity|]. rewrite <- Hi. exact Hin.
      * intros parsed' file [= <-] Hnone _. exfalso.
        apply (informative_request is_email (body req) parsed E).
        rewrite <- Hi. exact Hnone.
      * intros [e He]. congruence.
  - eexists. split; [reflexivity|]. repeat split.
    + intros i (parsed' & Hp' & _). congruence.
    + intros parsed' file Hp'. discriminate.
  - destruct (parse_fields_pure JSON_parse (body req) init_state) as [_ Hnr].
    destruct (Hnr Hp).
Qed.

Lemma schema_violations_all_reported_witness :
  exists b,
    run sample_parse sample_is_email env_ok
        {| body := {| smtpConfigStr := Some "[]"; recipientsStr := Some "[]";
                      body_subject := Some ""; body_htmlBody := None;
                      body_textBody := None; ccStr := None; bccStr := None |};
           files := Some [] |}
    = [EvJson 400 b]
    /\ jb_errors b
       = Some [ mkIssue "invalid_type" [PKey "smtpConfig"] "Expected object, received array";
                mkIssue "too_small" [PKey "recipients"] "At least one recipient is required";
                mkIssue "too_small" [PKey "subject"] "Subject is required";
                mkIssue "invalid_type" [PKey "htmlBody"] "Required" ].
Proof.
  destruct (@schema_violations_all_reported sample_parse sample_is_email env_ok
              {| body := {| smtpConfigStr := Some "[]"; recipientsStr := Some "[]";
                            body_subject := Some ""; body_htmlBody := None;
                            body_textBody := None; ccStr := None; bccStr := None |};
                 files := Some [] |}
              (VSchema (mkIssue "invalid_type" [PKey "htmlBody"] "Required")))
    as [b [Hrun _]].
  - eexists. split; [vm_compute; reflexivity|].
    vm_compute. do 3 right. left. reflexivity.
  - exists b. split; [exact Hrun|].
    vm_compute in Hrun. injection Hrun as <-. reflexivity.
Defined.

(** C9 as stated fails: this request has no recipient and carries an
    attachment of a type that is not allowed; the answer lists the schema
    issue and says nothing of the attachment. *)
Lemma attachment_not_reported_counterexample :
  run sample_parse sample_is_email env_ok doubly_invalid_request
  = [EvJson 400
       {| jb_message := "Invalid request data";
          jb_errors :=
            Some [ mkIssue "too_small" [PKey "recipients"]
                           "At least one recipient is required" ] |}]
  /\ violated sample_parse sample_is_email doubly_invalid_request (VFileType zip_file)
  /\ ~ reports {| jb_message := "Invalid request data";
                  jb_errors :=
                    Some [ mkIssue "too_small" [PKey "recipients"]
                                   "At least one recipient is required" ] |}
               (VFileType zip_file).
Proof.
  split; [vm_compute; reflexivity|].
  split; [split; [left; reflexivity|reflexivity]|].
  cbn. discriminate.
Qed.

(** ** The recipient normalizer *)

Lemma text_eqb_eq (a b : text) : text_eqb a b = true <-> a = b.
Proof. unfold text_eqb. destruct (list_eq_dec ascii_dec a b); split; congruence. Qed.

Lemma text_eqb_refl (a : text) : text_eqb a a = true.
Proof. apply text_eqb_eq. reflexivity. Qed.

(** *** What is matched is described by the pattern and stands in the text *)

Lemma many_sound cls (s : text) : forall n k rest,
  many cls n s k = Some rest ->
  exists w mid, s = w ++ mid /\ n <= List.length w /\ forallb cls w = true
                /\ k mid = Some rest.
Proof.
  induction s as [|c s IH]; intros n k rest H.
  - rewrite many_nil in H. destruct (n =? 0) eqn:E; [|discriminate].
    apply Nat.eqb_eq in E. subst n. exists [], []. repeat split; auto.
  - rewrite many_cons in H.
    assert (Hstop : (if n =? 0 then k (c :: s) else None) = Some rest ->
                    exists w mid, c :: s = w ++ mid /\ n <= List.length w
                                  /\ forallb cls w = true /\ k mid = Some rest).
    { destruct (n =? 0) eqn:E; [|discriminate]. apply Nat.eqb_eq in E. subst n.
      intros Hk. exists [], (c :: s). repeat split; auto. }
    destruct (cls c) eqn:Ec; [|auto].
    destruct (many cls (pred n) s k) as [r|] eqn:Em; [|auto].
    injection H as <-. destruct (IH _ _ _ Em) as (w & mid & -> & Hn & Hw & Hk).
    exists (c :: w), mid. repeat split; [cbn; lia| |exact Hk].
    cbn. rewrite Ec, Hw. reflexivity.
Qed.

Lemma exec_sound (r : regex) : forall (s : text) k rest,
  exec r s k = Some rest ->
  exists w mid, s = w ++ mid /\ lang r w /\ k mid = Some rest.
Proof.
  induction r as [c|n cls|r1 IH1 r2 IH2]; intros s k rest H.
  - destruct s as [|x s]; [discriminate|]. rewrite exec_chr_cons in H.
    destruct (Ascii.eqb x c) eqn:E; [|discriminate]. apply Ascii.eqb_eq in E. subst x.
    exists [c], s. repeat split. exact H.
  - cbn [exec] in H. apply many_sound in H.
    destruct H as (w & mid & -> & Hn & Hw & Hk). exists w, mid. repeat split; assumption.
  - cbn [exec] in H. apply IH1 in H. destruct H as (u & mid1 & -> & Hu & H).
    apply IH2 in H. destruct H as (v & mid & -> & Hv & Hk).
    exists (u ++ v), mid. rewrite app_assoc. repeat split; [|exact Hk].
    exists u, v. repeat split; assumption.
Qed.

Lemma firstn_prefix (w rest : text) :
  firstn (List.length (w ++ rest) - List.length rest) (w ++ rest) = w.
Proof.
  rewrite length_app. replace (List.length w + List.length rest - List.length rest)
    with (List.length w) by lia.
  rewrite firstn_app, Nat.sub_diag, firstn_all. cbn. apply app_nil_r.
Qed.

Lemma match_at_sound (r : regex) (s m : text) :
  match_at r s = Some m -> lang r m /\ exists post, s = m ++ post.
Proof.
  unfold match_at. destruct (exec r s _) as [rest|] eqn:E; [|discriminate].
  intros [= <-]. apply exec_sound in E. destruct E as (w & mid & -> & Hw & [= ->]).
  rewrite firstn_prefix. split; [exact Hw|]. exists rest. reflexivity.
Qed.

Lemma match_all_sound (r : regex) (s : text) : forall skip m,
  In m (match_all_from r s skip) ->
  lang r m /\ exists pre post, s = pre ++ m ++ post.
Proof.
  induction s as [|c s IH]; intros skip m Hin.
  - cbn in Hin. destruct skip; [|destruct Hin].
    destruct (match_at r []) as [m'|] eqn:E; [|destruct Hin].
    destruct Hin as [<-|[]]. apply match_at_sound in E. destruct E as [Hl [post Hp]].
    split; [exact Hl|]. exists [], post. exact Hp.
  - cbn [match_all_from] in Hin.
    assert (Hrest : forall n, In m (match_all_from r s n) ->
                    lang r m /\ exists pre post, c :: s = pre ++ m ++ post).
    { intros n Hn. destruct (IH _ _ Hn) as [Hl (pre & post & ->)].
      split; [exact Hl|]. exists (c :: pre), post. reflexivity. }
    destruct skip as [|n]; [|eauto].
    destruct (match_at r (c :: s)) as [m'|] eqn:E; [|eauto].
    destruct Hin as [<-|Hin]; [|eauto].
    apply match_at_sound in E. destruct E as [Hl [post Hp]].
    split; [exact Hl|]. exists [], post. exact Hp.
Qed.

Lemma full_match_lang (r : regex) (s : text) : full_match r s = true -> lang r s.
Proof.
  unfold full_match. destruct (exec r s _) as [x|] eqn:E; [|discriminate].
  intros _. apply exec_sound in E. destruct E as (w & mid & -> & Hw & Hk).
  destruct mid; [|discriminate]. rewrite app_nil_r. exact Hw.
Qed.

(** *** Sets keep the first occurrences *)

Lemma filter_filter {A} (f g : A -> bool) (l : list A) :
  filter f (filter g l) = filter (fun y => f y && g y) l.
Proof.
  induction l as [|x l IH]; [reflexivity|].
  cbn. destruct (g x); cbn; destruct (f x); cbn; rewrite IH; reflexivity.
Qed.

Lemma filter_all {A} (f : A -> bool) (l : list A) :
  (forall y, f y = true) -> filter f l = l.
Proof.
  intros H. induction l as [|x l IH]; [reflexivity|]. cbn. rewrite H, IH. reflexivity.
Qed.

Lemma Set_of_from (l : list text) : forall seen,
  fold_left Set_add l seen
  = seen ++ filter (fun y => negb (existsb (text_eqb y) seen)) (first_occurrences l).
Proof.
  induction l as [|x l IH]; intros seen; [cbn; rewrite app_nil_r; reflexivity|].
  cbn [fold_left first_occurrences filter]. unfold Set_add at 2.
  destruct (existsb (text_eqb x) seen) eqn:E; cbn [negb].
  - rewrite IH, filter_filter. f_equal. apply filter_ext. intros y.
    destruct (text_eqb y x) eqn:Ey; cbn; [|symmetry; apply andb_true_r].
    apply text_eqb_eq in Ey. subst y. rewrite E. reflexivity.
  - rewrite IH, filter_filter, <- app_assoc. cbn [app]. do 2 f_equal.
    apply filter_ext. intros y. rewrite existsb_app. cbn [existsb].
    rewrite orb_false_r, negb_orb. reflexivity.
Qed.

Lemma Set_of_first_occurrences (l : list text) : Set_of l = first_occurrences l.
Proof.
  unfold Set_of. rewrite Set_of_from. cbn [app]. apply filter_all. reflexivity.
Qed.

Lemma first_occurrences_In (l : list text) a : In a (first_occurrences l) -> In a l.
Proof.
  induction l as [|x l IH]; [auto|].
  cbn. intros [H|H]; [left; exact H|]. apply filter_In in H. right. apply IH, H.
Qed.

Lemma first_occurrences_NoDup (l : list text) : NoDup (first_occurrences l).
Proof.
  induction l as [|x l IH]; [constructor|].
  cbn. constructor; [|apply NoDup_filter, IH].
  intros H. apply filter_In in H. destruct H as [_ H].
  rewrite text_eqb_refl in H. discriminate.
Qed.

Lemma parseEmails_first_occurrences (t : text) :
  parseEmails t = first_occurrences (match_all_from emailRegex t 0).
Proof.
  unfold parseEmails, String_match, Array_from.
  destruct (match_all_from emailRegex t 0) as [|m ms]; [reflexivity|].
  apply Set_of_first_occurrences.
Qed.

(** *** Separators and the character classes *)

Lemma separator_cases (c : ascii) (P : ascii -> Prop) :
  is_separator c = true ->
  P " "%char -> P ","%char -> P ";"%char -> P nl -> P (ascii_of_nat 13) ->
  P (ascii_of_nat 9) -> P c.
Proof.
  unfold is_separator, one_of. cbn [existsb]. intros H.
  repeat (apply orb_true_iff in H; destruct H as [H|H]);
    try discriminate; apply Ascii.eqb_eq in H; subst c; auto.
Qed.

Lemma separator_not_local c : is_separator c = true -> cls_local c = false.
Proof.
  intros H. apply (@separator_cases c (fun x => cls_local x = false) H); reflexivity.
Qed.

Lemma separator_not_domain c : is_separator c = true -> cls_domain c = false.
Proof.
  intros H. apply (@separator_cases c (fun x => cls_domain x = false) H); reflexivity.
Qed.

Lemma separator_not_alpha c : is_separator c = true -> cls_alpha c = false.
Proof.
  intros H. apply (@separator_cases c (fun x => cls_alpha x = false) H); reflexivity.
Qed.

Lemma separator_not_dot c : is_separator c = true -> Ascii.eqb c "." = false.
Proof.
  intros H. apply (@separator_cases c (fun x => Ascii.eqb x "." = false) H); reflexivity.
Qed.

Lemma alpha_domain c : cls_alpha c = true -> cls_domain c = true.
Proof. unfold cls_alpha, cls_domain. intros ->. reflexivity. Qed.

Lemma alpha_not_dot c : cls_alpha c = true -> Ascii.eqb c "." = false.
Proof.
  destruct (Ascii.eqb c ".") eqn:E; [|reflexivity].
  apply Ascii.eqb_eq in E. subst c. discriminate.
Qed.

Lemma dot_domain c : Ascii.eqb c "." = true -> cls_domain c = true.
Proof. intros H. apply Ascii.eqb_eq in H. subst c. reflexivity. Qed.

Lemma local_not_at c : cls_local c = true -> Ascii.eqb c "@" = false.
Proof.
  destruct (Ascii.eqb c "@") eqn:E; [|reflexivity].
  apply Ascii.eqb_eq in E. subst c. discriminate.
Qed.

Lemma outside_weaken (f g : ascii -> bool) (t : text) :
  (forall c, f c = true -> g c = true) -> outside g t -> outside f t.
Proof.
  intros H. destruct t as [|c t]; [auto|]. cbn. intros Hg.
  destruct (f c) eqn:E; [|reflexivity]. rewrite (H _ E) in Hg. discriminate.
Qed.

(** *** Greedy repetition on a run of the class *)

(** When the rest of the pattern succeeds right after the run, so does
    the repetition, there. *)
Lemma many_greedy cls (run : text) : forall n (rest : text) k r,
  forallb cls run = true -> outside cls rest -> n <= List.length run ->
  k rest = Some r ->
  many cls n (run ++ rest) k = Some r.
Proof.
  induction run as [|c run IH]; intros n rest k r Hrun Hout Hn Hk.
  - cbn in Hn. assert (n = 0) as -> by lia. cbn [app].
    destruct rest as [|c rest]; [rewrite many_nil; exact Hk|].
    rewrite many_cons. cbn in Hout. rewrite Hout. exact Hk.
  - cbn in Hrun. apply andb_true_iff in Hrun. destruct Hrun as [Hc Hrun].
    cbn [app]. rewrite many_cons, Hc.
    rewrite (IH (pred n) rest k r Hrun Hout); [reflexivity| |exact Hk].
    cbn in Hn. lia.
Qed.

(** A success found further on is kept. *)
Lemma many_prefix cls (run : text) : forall n (s : text) k r,
  forallb cls run = true ->
  many cls (n - List.length run) s k = Some r ->
  many cls n (run ++ s) k = Some r.
Proof.
  induction run as [|c run IH]; intros n s k r Hrun H.
  - cbn in H. rewrite Nat.sub_0_r in H. exact H.
  - cbn in Hrun. apply andb_true_iff in Hrun. destruct Hrun as [Hc Hrun].
    cbn [app]. rewrite many_cons, Hc.
    rewrite (IH (pred n) s k r Hrun); [reflexivity|].
    cbn [List.length] in H. replace (pred n - List.length run) with (n - S (List.length run)) by lia.
    exact H.
Qed.

(** When the rest of the pattern fails wherever the repetition could stop
    later, the repetition stops at once. *)
Lemma many_stop cls (run : text) : forall (rest : text) k,
  forallb cls run = true -> outside cls rest ->
  (forall run1 c run2, run = run1 ++ c :: run2 -> k (run2 ++ rest) = None) ->
  many cls 0 (run ++ rest) k = k (run ++ rest).
Proof.
  induction run as [|c run IH]; intros rest k Hrun Hout Hfail.
  - cbn [app]. destruct rest as [|c rest]; [reflexivity|].
    rewrite many_cons. cbn in Hout. rewrite Hout. reflexivity.
  - cbn in Hrun. apply andb_true_iff in Hrun. destruct Hrun as [Hc Hrun].
    cbn [app]. rewrite many_cons, Hc. change (pred 0) with 0.
    rewrite (IH rest k Hrun Hout).
    + rewrite (Hfail [] c run eq_refl). reflexivity.
    + intros run1 c' run2 E. apply (Hfail (c :: run1) c' run2). rewrite E. reflexivity.
Qed.

(** *** One address, then a boundary *)

Lemma forallb_impl {A} (f g : A -> bool) (l : list A) :
  (forall x, f x = true -> g x = true) -> forallb f l = true -> forallb g l = true.
Proof.
  intros H. induction l as [|x l IH]; [reflexivity|].
  cbn. intros E. apply andb_true_iff in E. destruct E as [E1 E2].
  rewrite (H _ E1), (IH E2). reflexivity.
Qed.

Lemma exec_email_address (a t : text) :
  valid_email a -> outside cls_domain t ->
  exec emailRegex (a ++ t) (fun rest => Some rest) = Some t.
Proof.
  intros Ha Ht.
  destruct Ha as (l & v1 & -> & [Hl1 Hl2] & at_ & v2 & -> & -> & d & v3 & -> & [Hd1 Hd2]
                  & dot & tld & -> & -> & [Ht1 Ht2]).
  unfold emailRegex. cbn [exec].
  rewrite <- !app_assoc. cbn [app].
  apply many_greedy; [exact Hl2|reflexivity|exact Hl1|].
  change (Ascii.eqb "@" "@") with true. cbn iota.
  apply many_prefix; [exact Hd2|].
  replace (1 - List.length d) with 0 by lia.
  change ("."%char :: tld ++ t) with (("."%char :: tld) ++ t).
  rewrite many_stop.
  - cbn [app]. change (Ascii.eqb "." ".") with true. cbn iota.
    apply many_greedy; [exact Ht2| |exact Ht1|reflexivity].
    apply (outside_weaken _ _ _ alpha_domain Ht).
  - cbn [forallb]. apply andb_true_iff. split; [reflexivity|].
    apply (forallb_impl _ _ _ alpha_domain Ht2).
  - exact Ht.
  - intros run1 c run2 E.
    assert (Hrun2 : forallb cls_alpha run2 = true).
    { destruct run1 as [|x run1]; injection E as _ E; subst tld; [exact Ht2|].
      rewrite forallb_app in Ht2. apply andb_true_iff in Ht2. destruct Ht2 as [_ Ht2].
      cbn in Ht2. apply andb_true_iff in Ht2. apply Ht2. }
    destruct run2 as [|x run2]; cbn [app].
    + destruct t as [|x t]; [reflexivity|].
      pose proof (outside_weaken (fun c => Ascii.eqb c ".") _ (x :: t) dot_domain Ht) as Hx.
      cbn in Hx. rewrite Hx. reflexivity.
    + cbn in Hrun2. apply andb_true_iff in Hrun2.
      destruct Hrun2 as [Hx _]. rewrite (alpha_not_dot _ Hx). reflexivity.
Qed.

Lemma match_at_address (a t : text) :
  valid_email a -> outside cls_domain t -> match_at emailRegex (a ++ t) = Some a.
Proof.
  intros Ha Ht. unfold match_at. rewrite (@exec_email_address _ _ Ha Ht).
  rewrite firstn_prefix. reflexivity.
Qed.

Lemma match_at_other (c : ascii) (t : text) :
  cls_local c = false -> match_at emailRegex (c :: t) = None.
Proof.
  intros H. unfold match_at, emailRegex. cbn [exec].
  rewrite many_cons, H. reflexivity.
Qed.

(** When the rest of the pattern fails wherever the repetition could
    stop, the repetition fails. *)
Lemma many_none cls (run : text) : forall n (rest : text) k,
  forallb cls run = true -> outside cls rest ->
  (forall run1 run2, run = run1 ++ run2 -> k (run2 ++ rest) = None) ->
  many cls n (run ++ rest) k = None.
Proof.
  induction run as [|c run IH]; intros n rest k Hrun Hout Hfail.
  - cbn [app]. pose proof (Hfail [] [] eq_refl) as Hk. cbn [app] in Hk.
    destruct rest as [|c rest].
    + rewrite many_nil, Hk. destruct (n =? 0); reflexivity.
    + rewrite many_cons. cbn in Hout. rewrite Hout, Hk. destruct (n =? 0); reflexivity.
  - cbn in Hrun. apply andb_true_iff in Hrun. destruct Hrun as [Hc Hrun].
    cbn [app]. rewrite many_cons, Hc.
    rewrite (IH (pred n) rest k Hrun Hout).
    + pose proof (Hfail [] (c :: run) eq_refl) as Hk. cbn [app] in Hk.
      rewrite Hk. destruct (n =? 0); reflexivity.
    + intros run1 run2 E. apply (Hfail (c :: run1) run2). rewrite E. reflexivity.
Qed.

Lemma match_at_word (w t : text) :
  forallb cls_local w = true -> outside cls_local t -> outside is_at t ->
  match_at emailRegex (w ++ t) = None.
Proof.
  intros Hw Ht1 Ht2. unfold match_at, emailRegex. cbn [exec].
  rewrite many_none; [reflexivity|exact Hw|exact Ht1|].
  intros run1 run2 E. subst w.
  rewrite forallb_app in Hw. apply andb_true_iff in Hw. destruct Hw as [_ Hw].
  destruct run2 as [|x run2]; cbn [app].
  - destruct t as [|x t]; [reflexivity|].
    cbn in Ht2. unfold is_at in Ht2. rewrite Ht2. reflexivity.
  - cbn in Hw. apply andb_true_iff in Hw. destruct Hw as [Hx _].
    rewrite (local_not_at _ Hx). reflexivity.
Qed.

Lemma match_all_word (w : text) : forall t,
  forallb cls_local w = true -> outside cls_local t -> outside is_at t ->
  match_all_from emailRegex (w ++ t) 0 = match_all_from emailRegex t 0.
Proof.
  induction w as [|c w IH]; intros t Hw Ht1 Ht2; [reflexivity|].
  change ((c :: w) ++ t) with (c :: w ++ t). cbn [match_all_from].
  change (c :: w ++ t) with ((c :: w) ++ t).
  rewrite (match_at_word _ _ Hw Ht1 Ht2).
  cbn in Hw. apply andb_true_iff in Hw. destruct Hw as [_ Hw].
  apply IH; assumption.
Qed.

Lemma match_all_skip (r : regex) (pre : text) : forall t,
  match_all_from r (pre ++ t) (List.length pre) = match_all_from r t 0.
Proof.
  induction pre as [|c pre IH]; intros t; [reflexivity|]. cbn. apply IH.
Qed.

Lemma valid_email_nonempty (a : text) : valid_email a -> a <> [].
Proof.
  intros (l & v1 & -> & [Hl1 _] & _) E. apply app_eq_nil in E. destruct E as [-> _].
  cbn in Hl1. lia.
Qed.

(** A listing is read back address by address. *)
Lemma listing_matches (t : text) (addrs : list text) :
  listing t addrs -> match_all_from emailRegex t 0 = addrs.
Proof.
  induction 1 as [|c t addrs Hc _ IH|c t addrs Hc _ IH|w t addrs Hw Ht1 Ht2 _ IH
                  |a t addrs Ha Ht _ IH].
  - reflexivity.
  - cbn [match_all_from].
    rewrite (@match_at_other _ _ (separator_not_local _ Hc)). exact IH.
  - cbn [match_all_from]. rewrite (@match_at_other _ _ Hc). exact IH.
  - rewrite (match_all_word _ _ Hw Ht1 Ht2). exact IH.
  - apply full_match_lang in Ha. pose proof (valid_email_nonempty Ha) as Hne.
    destruct a as [|c a]; [destruct Hne; reflexivity|].
    change ((c :: a) ++ t) with (c :: a ++ t). cbn [match_all_from].
    change (c :: a ++ t) with ((c :: a) ++ t).
    rewrite (@match_at_address _ _ Ha Ht). cbn [List.length].
    rewrite Nat.sub_succ, Nat.sub_0_r, match_all_skip, IH. reflexivity.
Qed.

(** *** The matcher takes the longest address, or finds none *)

Lemma many_complete cls (w : text) : forall n (mid : text) k,
  many cls n (w ++ mid) k = None ->
  n <= List.length w -> forallb cls w = true -> k mid = None.
Proof.
  induction w as [|c w IH]; intros n mid k H Hn Hw.
  - cbn in Hn. assert (n = 0) as -> by lia. cbn [app] in H.
    destruct mid as [|c mid].
    + rewrite many_nil in H. exact H.
    + rewrite many_cons in H. cbn [Nat.eqb] in H.
      destruct (cls c); [|exact H].
      destruct (many cls (pred 0) mid k); [discriminate|exact H].
  - cbn in Hw. apply andb_true_iff in Hw. destruct Hw as [Hc Hw].
    cbn [app] in H. rewrite many_cons, Hc in H.
    destruct (many cls (pred n) (w ++ mid) k) eqn:E; [discriminate|].
    apply (IH (pred n) mid k E); [cbn in Hn; lia|exact Hw].
Qed.

(** The matcher fails only where the pattern describes no start of the
    text that the rest accepts. *)
Lemma exec_complete (r : regex) : forall (w mid : text) k,
  exec r (w ++ mid) k = None -> lang r w -> k mid = None.
Proof.
  induction r as [c|n cls|r1 IH1 r2 IH2]; intros w mid k H Hw.
  - cbn in Hw. subst w. cbn [app] in H. rewrite exec_chr_cons in H.
    rewrite Ascii.eqb_refl in H. exact H.
  - destruct Hw as [Hn Hw]. cbn [exec] in H. exact (@many_complete cls w n mid k H Hn Hw).
  - destruct Hw as (u & v & -> & Hu & Hv). cbn [exec] in H.
    rewrite <- app_assoc in H.
    apply (IH2 v mid k); [|exact Hv].
    apply (IH1 u (v ++ mid) (fun s1 => exec r2 s1 k) H Hu).
Qed.

(** What a greedy repetition settles on: the rest of the pattern accepts
    there, and refuses after every longer run of the class. *)
Lemma many_longest cls (s : text) : forall n k rest,
  many cls n s k = Some rest ->
  exists w mid, s = w ++ mid /\ n <= List.length w /\ forallb cls w = true
    /\ k mid = Some rest
    /\ forall w' mid', s = w' ++ mid' -> forallb cls w' = true ->
                       List.length w < List.length w' -> k mid' = None.
Proof.
  induction s as [|c s IH]; intros n k rest H.
  - rewrite many_nil in H. destruct (n =? 0) eqn:E; [|discriminate].
    apply Nat.eqb_eq in E. subst n. exists [], []. repeat split; auto.
    intros w' mid' E _ Hlt. symmetry in E. apply app_eq_nil in E. destruct E as [-> _].
    cbn in Hlt. lia.
  - rewrite many_cons in H.
    destruct (cls c) eqn:Ec.
    + destruct (many cls (pred n) s k) as [r|] eqn:Em.
      * injection H as <-. destruct (IH _ _ _ Em) as (w & mid & -> & Hn & Hw & Hk & Hl).
        exists (c :: w), mid. repeat split; [cbn; lia|cbn; rewrite Ec, Hw; reflexivity|exact Hk|].
        intros w' mid' E Hw' Hlt. destruct w' as [|c' w']; [cbn in Hlt; lia|].
        injection E as <- E. cbn in Hw'. apply andb_true_iff in Hw'.
        apply (Hl w' mid' E (proj2 Hw')). cbn in Hlt. lia.
      * destruct (n =? 0) eqn:E0; [|discriminate].
        apply Nat.eqb_eq in E0. subst n. exists [], (c :: s).
        repeat split; auto.
        intros w' mid' E Hw' Hlt. destruct w' as [|c' w']; [cbn in Hlt; lia|].
        injection E as <- E. cbn in Hw'. apply andb_true_iff in Hw'.
        subst s. apply (@many_complete cls w' (pred 0) mid' k Em); [lia|apply Hw'].
    + destruct (n =? 0) eqn:E0; [|discriminate].
      apply Nat.eqb_eq in E0. subst n. exists [], (c :: s).
      repeat split; auto.
      intros w' mid' E Hw' Hlt. destruct w' as [|c' w']; [cbn in Hlt; lia|].
      injection E as <- E. cbn in Hw'. rewrite Ec in Hw'. discriminate.
Qed.

Lemma run_unique cls (l : text) : forall (l' : text) c x c' x',
  l ++ c :: x = l' ++ c' :: x' ->
  forallb cls l = true -> forallb cls l' = true ->
  cls c = false -> cls c' = false ->
  l = l' /\ x = x'.
Proof.
  induction l as [|a l IH]; intros l' c x c' x' E Hl Hl' Hc Hc'.
  - destruct l' as [|a' l']; [injection E as _ E; auto|].
    injection E as -> E. cbn in Hl'. rewrite Hc in Hl'. discriminate.
  - destruct l' as [|a' l'].
    + injection E as -> E. cbn in Hl. rewrite Hc' in Hl. discriminate.
    + injection E as <- E. cbn in Hl, Hl'.
      apply andb_true_iff in Hl, Hl'.
      destruct (IH l' c x c' x' E (proj2 Hl) (proj2 Hl') Hc Hc') as [-> ->]. auto.
Qed.

Lemma app_eq_app_le (A : Type) (d d' X Y : list A) :
  d ++ X = d' ++ Y -> List.length d' <= List.length d ->
  exists z, d = d' ++ z /\ Y = z ++ X.
Proof.
  intros E Hle. apply app_eq_app in E. destruct E as [z [[-> ->]|[-> ->]]].
  - exists z. auto.
  - rewrite length_app in Hle. destruct z; [|cbn in Hle; lia].
    exists []. rewrite !app_nil_r. auto.
Qed.

Lemma valid_email_parts (a : text) :
  valid_email a ->
  exists l d tld,
    a = l ++ "@"%char :: d ++ "."%char :: tld
    /\ 1 <= List.length l /\ forallb cls_local l = true
    /\ 1 <= List.length d /\ forallb cls_domain d = true
    /\ 2 <= List.length tld /\ forallb cls_alpha tld = true.
Proof.
  intros (l & v1 & -> & [Hl1 Hl2] & at_ & v2 & -> & -> & d & v3 & -> & [Hd1 Hd2]
          & dot & tld & -> & -> & [Ht1 Ht2]).
  exists l, d, tld. cbn [app]. repeat split; assumption.
Qed.

Lemma parts_valid_email (l d tld : text) :
  1 <= List.length l -> forallb cls_local l = true ->
  1 <= List.length d -> forallb cls_domain d = true ->
  2 <= List.length tld -> forallb cls_alpha tld = true ->
  valid_email (l ++ "@"%char :: d ++ "."%char :: tld).
Proof.
  intros. exists l, ("@"%char :: d ++ "."%char :: tld). split; [reflexivity|].
  split; [split; assumption|].
  exists ["@"%char], (d ++ "."%char :: tld). split; [reflexivity|]. split; [reflexivity|].
  exists d, ("."%char :: tld). split; [reflexivity|]. split; [split; assumption|].
  exists ["."%char], tld. split; [reflexivity|]. split; [reflexivity|]. split; assumption.
Qed.

(** What one attempt of the e-mail pattern takes: the parts of the match,
    and why no longer address starts there. *)
Lemma exec_email_parts (s rest : text) :
  exec emailRegex s (fun r => Some r) = Some rest ->
  exists l d tld,
    s = l ++ "@"%char :: d ++ "."%char :: tld ++ rest
    /\ 1 <= List.length l /\ forallb cls_local l = true
    /\ 1 <= List.length d /\ forallb cls_domain d = true
    /\ 2 <= List.length tld /\ forallb cls_alpha tld = true
    /\ (forall d' tld' post,
          d ++ "."%char :: tld ++ rest = d' ++ "."%char :: tld' ++ post ->
          forallb cls_domain d' = true -> 2 <= List.length tld' ->
          forallb cls_alpha tld' = true -> List.length d' <= List.length d)
    /\ (forall tld' post,
          tld ++ rest = tld' ++ post -> forallb cls_alpha tld' = true ->
          List.length tld' <= List.length tld).
Proof.
  unfold emailRegex. cbn [exec]. intros H.
  apply many_longest in H.
  destruct H as (l & s1 & -> & Hl1 & Hl2 & H & _).
  destruct s1 as [|x s2]; [discriminate|].
  destruct (Ascii.eqb x "@") eqn:Ex; [|discriminate].
  apply Ascii.eqb_eq in Ex. subst x.
  apply many_longest in H.
  destruct H as (d & s3 & -> & Hd1 & Hd2 & H & Hdl).
  destruct s3 as [|x s4]; [discriminate|].
  destruct (Ascii.eqb x ".") eqn:Ex; [|discriminate].
  apply Ascii.eqb_eq in Ex. subst x.
  apply many_longest in H.
  destruct H as (tld & s5 & -> & Ht1 & Ht2 & H & Htl).
  injection H as ->.
  exists l, d, tld. repeat split; try assumption.
  - intros d' tld' post E Hd' Ht1' Ht2'.
    destruct (Nat.le_gt_cases (List.length d') (List.length d)) as [Hle|Hgt]; [exact Hle|].
    exfalso. pose proof (Hdl d' ("."%char :: tld' ++ post) E Hd' Hgt) as Hk.
    cbn in Hk.
    pose proof (@many_complete cls_alpha tld' 2 post (fun r => Some r) Hk Ht1' Ht2').
    discriminate.
  - intros tld' post E Ht'.
    destruct (Nat.le_gt_cases (List.length tld') (List.length tld)) as [Hle|Hgt]; [exact Hle|].
    exfalso. pose proof (Htl tld' post E Ht' Hgt). discriminate.
Qed.

Lemma alpha_no_dot (w u v : text) :
  forallb cls_alpha w = true -> w <> u ++ "."%char :: v.
Proof.
  intros Hw ->. rewrite forallb_app in Hw. apply andb_true_iff in Hw.
  destruct Hw as [_ Hw]. cbn in Hw. discriminate.
Qed.

Lemma match_at_longest (s m : text) :
  match_at emailRegex s = Some m -> longest_address_at s m.
Proof.
  intros H. unfold match_at in H.
  destruct (exec emailRegex s (fun rest => Some rest)) as [rest|] eqn:E; [|discriminate].
  injection H as <-.
  apply exec_email_parts in E.
  destruct E as (l & d & tld & -> & Hl1 & Hl2 & Hd1 & Hd2 & Ht1 & Ht2 & Hdl & Htl).
  replace (l ++ "@"%char :: d ++ "."%char :: tld ++ rest)
    with ((l ++ "@"%char :: d ++ "."%char :: tld) ++ rest)
    by (rewrite <- !app_assoc; cbn; rewrite <- !app_assoc; reflexivity).
  rewrite firstn_prefix.
  split; [apply parts_valid_email; assumption|].
  split; [exists rest; reflexivity|].
  intros a' Ha' [post' E].
  apply valid_email_parts in Ha'.
  destruct Ha' as (l' & d' & tld' & -> & Hl1' & Hl2' & Hd1' & Hd2' & Ht1' & Ht2').
  rewrite <- !app_assoc in E. cbn [app] in E. rewrite <- !app_assoc in E. cbn [app] in E.
  destruct (run_unique cls_local l l' _ _ _ _ E Hl2 Hl2' eq_refl eq_refl) as [<- E2].
  pose proof (Hdl d' tld' post' E2 Hd2' Ht1' Ht2') as Hle.
  destruct (app_eq_app_le _ _ _ _ E2 Hle) as (z & -> & E3).
  repeat (rewrite length_app || cbn [List.length]).
  destruct z as [|c z].
  - cbn [app] in E3. injection E3 as E3. symmetry in E3.
    pose proof (Htl tld' post' E3 Ht2'). cbn. lia.
  - cbn [app] in E3. injection E3 as <- E3.
    assert (List.length tld' <= List.length z); [|cbn; lia].
    destruct (Nat.le_gt_cases (List.length tld') (List.length z)) as [H|H]; [exact H|].
    exfalso.
    assert (Hz : List.length z <= List.length tld') by lia.
    destruct (app_eq_app_le _ _ _ _ E3 Hz) as (y & Ey & Ey').
    destruct y as [|c y]; [rewrite app_nil_r in Ey; subst tld'; lia|].
    cbn [app] in Ey'. injection Ey' as <- _.
    exact (alpha_no_dot _ _ Ht2' Ey).
Qed.

Lemma match_at_none (s : text) :
  match_at emailRegex s = None -> no_address_at s.
Proof.
  unfold match_at. intros H a Ha [post ->].
  destruct (exec emailRegex (a ++ post) (fun rest => Some rest)) eqn:E; [discriminate|].
  pose proof (@exec_complete emailRegex a post (fun rest => Some rest) E Ha).
  discriminate.
Qed.

Lemma starts_same_length (s a b : text) :
  starts s a -> starts s b -> List.length a = List.length b -> a = b.
Proof.
  intros [pa ->] [pb E] Hlen.
  apply app_eq_app in E. destruct E as [z [[-> _]|[-> _]]];
    rewrite length_app in Hlen; destruct z; try (cbn in Hlen; lia);
    rewrite app_nil_r; reflexivity.
Qed.

Lemma longest_address_match (a t : text) :
  longest_address_at (a ++ t) a -> match_at emailRegex (a ++ t) = Some a.
Proof.
  intros (Ha & Hs & Hmax).
  destruct (match_at emailRegex (a ++ t)) as [m|] eqn:E.
  - f_equal. pose proof (@match_at_longest _ _ E) as (Hm & Hsm & Hmmax).
    apply (@starts_same_length _ _ _ Hsm Hs).
    apply Nat.le_antisymm; [apply Hmax|apply Hmmax]; assumption.
  - exfalso. exact (@match_at_none _ E a Ha Hs).
Qed.

(** A scan is read back by the matcher, address by address. *)
Lemma scanned_matches (t : text) (l : list text) :
  scanned t l -> match_all_from emailRegex t 0 = l.
Proof.
  induction 1 as [|c t l Hno _ IH|a t l Ha _ IH].
  - reflexivity.
  - cbn [match_all_from].
    destruct (match_at emailRegex (c :: t)) as [m|] eqn:E; [|exact IH].
    exfalso. pose proof (@match_at_longest _ _ E) as (Hm & Hsm & _).
    exact (Hno m Hm Hsm).
  - pose proof (valid_email_nonempty (proj1 Ha)) as Hne.
    pose proof (@longest_address_match a t Ha) as Hm.
    destruct a as [|c a]; [destruct Hne; reflexivity|].
    change ((c :: a) ++ t) with (c :: a ++ t) in *. cbn [match_all_from].
    rewrite Hm. cbn [List.length].
    rewrite Nat.sub_succ, Nat.sub_0_r, match_all_skip, IH. reflexivity.
Qed.

(** The matcher's reading of a text is a scan of it. *)
Lemma matches_scanned_len (n : nat) : forall t,
  List.length t <= n -> scanned t (match_all_from emailRegex t 0).
Proof.
  induction n as [|n IH]; intros t Hlen.
  - destruct t; [|cbn in Hlen; lia]. apply scanned_end.
  - destruct t as [|c t]; [apply scanned_end|].
    cbn [match_all_from].
    destruct (match_at emailRegex (c :: t)) as [m|] eqn:E.
    + pose proof (@match_at_longest _ _ E) as Hm.
      destruct Hm as (Hv & [post Hpost] & Hmax).
      pose proof (valid_email_nonempty Hv) as Hne.
      destruct m as [|c' m]; [destruct Hne; reflexivity|].
      injection Hpost as <- ->. cbn [List.length].
      rewrite Nat.sub_succ, Nat.sub_0_r, match_all_skip.
      apply (scanned_address (a := c :: m)).
      * split; [exact Hv|]. split; [exists post; reflexivity|exact Hmax].
      * apply IH. cbn in Hlen. rewrite length_app in Hlen. lia.
    + apply scanned_pass.
      * exact (@match_at_none _ E).
      * apply IH. cbn in Hlen. lia.
Qed.

Lemma matches_scanned (t : text) : scanned t (match_all_from emailRegex t 0).
Proof. apply (matches_scanned_len (n := List.length t)). lia. Qed.

(** C4, as the code has it.  For every text, the normalizer returns the
    addresses met by one reading of the text from left to right, each
    once, at its first occurrence: where a syntactically valid address
    starts, the longest one that starts there is taken and the reading
    goes on after it; where none starts, one character is passed over.
    So the result has no duplicate; each element is a syntactically valid
    address and stands in the text; and a text that lists addresses among
    separators of whatever kind and number (and other text that is no
    address) gives these addresses, in order of first occurrence,
    whichever separators are used.  The example text gives alice, bob,
    carol. *)
Theorem parseEmails_spec :
  (forall t, exists l, scanned t l /\ parseEmails t = first_occurrences l)
  /\ (forall t l, scanned t l -> parseEmails t = first_occurrences l)
  /\ (forall t, NoDup (parseEmails t))
  /\ (forall t a, In a (parseEmails t) ->
        valid_email a /\ exists pre post, t = pre ++ a ++ post)
  /\ (forall t addrs, listing t addrs -> parseEmails t = first_occurrences addrs)
  /\ map to_string (parseEmails example_text)
     = ["alice@x.com"; "bob@x.com"; "carol@x.com"].
Proof.
  split.
  { intros t. exists (match_all_from emailRegex t 0).
    split; [apply matches_scanned|apply parseEmails_first_occurrences]. }
  split.
  { intros t l H. rewrite parseEmails_first_occurrences, (scanned_matches H).
    reflexivity. }
  split; [intros t; rewrite parseEmails_first_occurrences;
          apply first_occurrences_NoDup|].
  split.
  { intros t a Hin. rewrite parseEmails_first_occurrences in Hin.
    apply first_occurrences_In in Hin. apply (match_all_sound _ _ _ _ Hin). }
  split.
  { intros t addrs H. rewrite parseEmails_first_occurrences, (listing_matches H).
    reflexivity. }
  exact parseEmails_example.
Qed.

Lemma parseEmails_spec_witness :
  parseEmails example_text = [alice; bob; carol].
Proof.
  refine (eq_trans (proj1 (proj2 (proj2 (proj2 (proj2 parseEmails_spec))))
                      example_text [alice; bob; alice; bob; carol] _) eq_refl).
  change example_text
    with (alice ++ ","%char :: " "%char ::
          (bob ++ nl ::
           (alice ++ " "%char ::
            (bob ++ ";"%char :: (carol ++ []))))).
  apply listing_address; [reflexivity|reflexivity|].
  apply listing_separator; [reflexivity|].
  apply listing_separator; [reflexivity|].
  apply listing_address; [reflexivity|reflexivity|].
  apply listing_separator; [reflexivity|].
  apply listing_address; [reflexivity|reflexivity|].
  apply listing_separator; [reflexivity|].
  apply listing_address; [reflexivity|reflexivity|].
  apply listing_separator; [reflexivity|].
  apply listing_address; [reflexivity|exact I|].
  apply listing_end.
Defined.

Example trailing_dot_example :
  map to_string (parseEmails (of_string "Write to a@b.co. Thanks"))
  = ["a@b.co"].
Proof. vm_compute. reflexivity. Qed.

Example stray_at_example :
  map to_string (parseEmails (of_string "x@a.bc@d.ef"))
  = ["x@a.bc"].
Proof. vm_compute. reflexivity. Qed.

(** C4 as stated fails: in a text of two addresses glued together the
    second is a syntactically valid address that stands in the text, and
    the normalizer does not return it; it returns the first with the
    letter that follows it. *)
Lemma glued_addresses_counterexample :
  parseEmails glued_text = [of_string "a@x.comb"]
  /\ valid_email (of_string "b@y.org")
  /\ (exists pre post, glued_text = pre ++ of_string "b@y.org" ++ post)
  /\ ~ In (of_string "b@y.org") (parseEmails glued_text).
Proof.
  split; [vm_compute; reflexivity|].
  split; [apply full_match_lang; vm_compute; reflexivity|].
  split; [exists (of_string "a@x.com"), []; vm_compute; reflexivity|].
  intros [H|[]]. vm_compute in H. discriminate.
Qed.

(* ===================================================================== *)
(** * Part III: further properties of the code                            *)
(* ===================================================================== *)

(** ** What a validated request is *)

Lemma min1_passes msg p s : min1 msg p s = [] -> s <> "".
Proof. unfold min1. destruct s; [discriminate|]. intros _. discriminate. Qed.

Lemma z_string_min1 msg p v s :
  z_string [min1 msg] p v = ParseSuccess s -> s <> "".
Proof.
  intros H. pose proof (z_string_value _ _ _ H) as ->. cbn in H.
  rewrite app_nil_r in H. apply (min1_passes msg p). destruct (min1 msg p s); [reflexivity|discriminate].
Qed.

Lemma z_string_email (is_email : string -> bool) p v s :
  z_string [email_check is_email] p v = ParseSuccess s -> is_email s = true.
Proof.
  intros H. pose proof (z_string_value _ _ _ H) as ->. cbn in H.
  unfold email_check in H. destruct (is_email s); [reflexivity|discriminate].
Qed.

Lemma parse_items_success (is_email : string -> bool) p items : forall i l,
  parse_items (z_string [email_check is_email]) p i items = ParseSuccess l ->
  items = map JStr l /\ Forall (fun a => is_email a = true) l.
Proof.
  induction items as [|x rest IH]; intros i l H.
  - injection H as <-. split; [reflexivity|constructor].
  - cbn [parse_items] in H.
    apply ap_success in H. destruct H as (g & tl & H & Hrest & ->).
    apply ap_success in H. destruct H as (g0 & a & H & Ha & ->).
    injection H as <-. destruct (IH _ _ Hrest) as [-> Hall].
    pose proof (z_string_email _ _ _ Ha) as He.
    apply z_string_value in Ha. injection Ha as ->.
    split; [reflexivity|constructor; assumption].
Qed.

Lemma z_array_success (is_email : string -> bool) min_msg p v l :
  z_array (z_string [email_check is_email]) min_msg p v = ParseSuccess l ->
  v = Some (JArr (map JStr l)) /\ Forall (fun a => is_email a = true) l
  /\ (min_msg <> None -> l <> []).
Proof.
  unfold z_array. destruct v as [[| | | |items|]|]; try discriminate.
  intros H. apply ap_success in H. destruct H as (g & l' & H & Hitems & ->).
  apply ap_success in H. destruct H as (g0 & u & H & Hmin & ->).
  injection H as <-. destruct (parse_items_success _ _ _ _ Hitems) as [-> Hall].
  repeat split; [exact Hall|].
  intros Hsome ->. destruct min_msg as [msg|]; [|destruct Hsome; reflexivity].
  cbn in Hmin. discriminate.
Qed.

Lemma addresses_success (is_email : string -> bool) p v o :
  addressesSchema is_email p v = ParseSuccess o ->
  v = option_map (fun l => JArr (map JStr l)) o
  /\ forall l, o = Some l -> Forall (fun a => is_email a = true) l.
Proof.
  unfold addressesSchema, z_optional. destruct v as [x|].
  - intros H. apply ap_success in H. destruct H as (g & l & H & Hl & ->).
    injection H as <-. apply z_array_success in Hl. destruct Hl as (-> & Hall & _).
    split; [reflexivity|]. intros l' [= <-]. exact Hall.
  - intros [= <-]. split; [reflexivity|discriminate].
Qed.

Lemma smtpConfig_success (is_email : string -> bool) p v c :
  smtpConfigSchema is_email p v = ParseSuccess c ->
  exists members,
    v = Some (JObj members)
    /\ prop members "username" = Some (JStr (username c)) /\ username c <> ""
    /\ prop members "password" = Some (JStr (password c)) /\ password c <> ""
    /\ match prop members "host" with
       | Some x => x = JStr (host c)
       | None => host c = "smtp.zeptomail.in"
       end
    /\ match prop members "port" with
       | Some x => x = JNum (port c)
       | None => port c = 587%Z
       end
    /\ is_email (fromEmail c) = true.
Proof.
  unfold smtpConfigSchema, z_object, field.
  destruct v as [[| | | | |members]|]; try discriminate. intros H.
  apply ap_success in H. destruct H as (g5 & a5 & H & E5 & ->).
  apply ap_success in H. destruct H as (g4 & a4 & H & E4 & ->).
  apply ap_success in H. destruct H as (g3 & a3 & H & E3 & ->).
  apply ap_success in H. destruct H as (g2 & a2 & H & E2 & ->).
  apply ap_success in H. destruct H as (g1 & a1 & H & E1 & ->).
  injection H as <-. cbn [username password host port fromEmail].
  exists members. split; [reflexivity|].
  split; [apply (z_string_value _ _ _ E1)|].
  split; [apply (z_string_min1 _ _ _ E1)|].
  split; [apply (z_string_value _ _ _ E2)|].
  split; [apply (z_string_min1 _ _ _ E2)|].
  split.
  { unfold z_default in E3. destruct (prop members "host").
    - apply z_string_value in E3. injection E3 as ->. reflexivity.
    - apply z_string_value in E3. injection E3 as <-. reflexivity. }
  split.
  { unfold z_default, z_number in E4. destruct (prop members "port") as [[]|];
      try discriminate; injection E4 as <-; reflexivity. }
  unfold z_default in E5.
  destruct (prop members "fromEmail"); apply (z_string_email _ _ _ E5).
Qed.

Section Accepted.

Variable JSON_parse : string -> json + thrown.
Variable is_email : string -> bool.

Lemma accepted_recipients (req : Request) vd atts :
  validate JSON_parse is_email req = inr (vd, atts) ->
  Forall (fun a => is_email a = true) (recipients vd).
Proof.
  intros Hvalid. apply validate_inr in Hvalid.
  destruct Hvalid as ([[[sc rc] ccv] bccv] & _ & Hs & _).
  rewrite safeParse_requestData in Hs.
  apply ap_success in Hs. destruct Hs as (g7 & a7 & Hs & _ & ->).
  apply ap_success in Hs. destruct Hs as (g6 & a6 & Hs & _ & ->).
  apply ap_success in Hs. destruct Hs as (g5 & a5 & Hs & _ & ->).
  apply ap_success in Hs. destruct Hs as (g4 & a4 & Hs & _ & ->).
  apply ap_success in Hs. destruct Hs as (g3 & a3 & Hs & _ & ->).
  apply ap_success in Hs. destruct Hs as (g2 & a2 & Hs & E2 & ->).
  apply ap_success in Hs. destruct Hs as (g1 & a1 & Hs & _ & ->).
  injection Hs as <-. cbn [recipients].
  unfold recipientsSchema in E2. apply z_array_success in E2. apply E2.
Qed.

(** X1.  A request that passes validation has at least one recipient,
    every recipient and every cc and bcc address passes the e-mail test,
    subject, HTML body, user name and password are not empty, and the
    recipients are, in order, the strings of the posted JSON array. *)
Theorem accepted_request_is_well_formed
  (req : Request) (vd : SendEmailRequest) (atts : list Attachment)
  (Hvalid : validate JSON_parse is_email req = inr (vd, atts)) :
  recipients vd <> []
  /\ Forall (fun a => is_email a = true) (recipients vd)
  /\ (exists sc ccv bccv,
        parsed_fields JSON_parse (body req)
        = Normal (sc, JArr (map JStr (recipients vd)), ccv, bccv))
  /\ subject vd <> "" /\ htmlBody vd <> ""
  /\ username (smtpConfig vd) <> "" /\ password (smtpConfig vd) <> ""
  /\ is_email (fromEmail (smtpConfig vd)) = true
  /\ (forall l, cc vd = Some l -> Forall (fun a => is_email a = true) l)
  /\ (forall l, bcc vd = Some l -> Forall (fun a => is_email a = true) l).
Proof.
  apply validate_inr in Hvalid.
  destruct Hvalid as ([[[sc rc] ccv] bccv] & Hp & Hs & _).
  rewrite safeParse_requestData in Hs.
  apply ap_success in Hs. destruct Hs as (g7 & a7 & Hs & E7 & ->).
  apply ap_success in Hs. destruct Hs as (g6 & a6 & Hs & E6 & ->).
  apply ap_success in Hs. destruct Hs as (g5 & a5 & Hs & E5 & ->).
  apply ap_success in Hs. destruct Hs as (g4 & a4 & Hs & E4 & ->).
  apply ap_success in Hs. destruct Hs as (g3 & a3 & Hs & E3 & ->).
  apply ap_success in Hs. destruct Hs as (g2 & a2 & Hs & E2 & ->).
  apply ap_success in Hs. destruct Hs as (g1 & a1 & Hs & E1 & ->).
  injection Hs as <-.
  cbn [recipients subject htmlBody smtpConfig cc bcc].
  apply smtpConfig_success in E1.
  destruct E1 as (members & _ & _ & Hu & _ & Hpw & _ & _ & Hfrom).
  unfold recipientsSchema in E2. apply z_array_success in E2.
  destruct E2 as (Hrc & Hall & Hne). injection Hrc as ->.
  apply addresses_success in E6. apply addresses_success in E7.
  split; [apply Hne; discriminate|].
  split; [exact Hall|].
  split; [exists sc, ccv, bccv; exact Hp|].
  split; [apply (z_string_min1 _ _ _ E3)|].
  split; [apply (z_string_min1 _ _ _ E4)|].
  split; [exact Hu|]. split; [exact Hpw|]. split; [exact Hfrom|].
  split; [apply E6|apply E7].
Qed.

End Accepted.

Lemma accepted_request_is_well_formed_witness :
  Forall (fun a => sample_is_email a = true) (recipients sample_validated).
Proof.
  exact (proj1 (proj2 (@accepted_request_is_well_formed sample_parse sample_is_email
                         sample_request sample_validated [] eq_refl))).
Defined.

Section AcceptedMore.

Variable JSON_parse : string -> json + thrown.
Variable is_email : string -> bool.

(** X2.  A request passes validation exactly when it violates nothing: its
    JSON fields parse, no schema constraint is violated and no attachment
    has a disallowed type. *)
Theorem accepted_iff_nothing_violated (req : Request) :
  (exists vd atts, validate JSON_parse is_email req = inr (vd, atts))
  <-> (forall v, ~ violated JSON_parse is_email req v).
Proof.
  split.
  - intros (vd & atts & Hvalid) v Hv. apply validate_inr in Hvalid.
    destruct Hvalid as (parsed & Hp & Hs & Hfind & _).
    destruct v as [|i|file]; cbn in Hv.
    + destruct Hv as [e He]. congruence.
    + destruct Hv as (parsed' & Hp' & Hin). rewrite Hp in Hp'. injection Hp' as <-.
      rewrite <- safeParse_issues, Hs in Hin. destruct Hin.
    + destruct Hv as [Hin Hd]. pose proof (find_none _ _ Hfind _ Hin). congruence.
  - intros Hnone. unfold validate.
    destruct (parsed_fields JSON_parse (body req)) as [parsed|e|] eqn:Hp.
    + destruct (safeParse _ _) as [vd|errs] eqn:Hs.
      * destruct (find disallowed (files_of req)) as [file|] eqn:Hfind; [|eauto].
        exfalso. apply (Hnone (VFileType file)). apply find_some in Hfind. exact Hfind.
      * exfalso. pose proof (informative_request is_email (body req) parsed Hs) as Hne.
        destruct errs as [|i errs]; [apply Hne; reflexivity|].
        apply (Hnone (VSchema i)). exists parsed. split; [exact Hp|].
        rewrite <- safeParse_issues, Hs. left. reflexivity.
    + exfalso. apply (Hnone VJson). exists e. exact Hp.
    + destruct (parse_fields_pure JSON_parse (body req) init_state) as [_ Hnr].
      destruct (Hnr Hp).
Qed.

(** X3.  The messages of one batch differ in their recipient only: sender,
    subject, bodies, cc, bcc and attachments are the same in all of them;
    each goes to a recipient of the validated request; and the attachments
    are all the uploaded files, in order, every one of an allowed type. *)
Theorem batch_messages_differ_in_recipient_only
  (env : Env) (req : Request) (vd : SendEmailRequest) (atts : list Attachment)
  (m1 m2 : MailOptions)
  (Hvalid : validate JSON_parse is_email req = inr (vd, atts))
  (H1 : In m1 (sent_messages (run JSON_parse is_email env req)))
  (H2 : In m2 (sent_messages (run JSON_parse is_email env req))) :
  m2 = with_to m1 (m_to m2)
  /\ In (m_to m2) (recipients vd)
  /\ m_attachments m2 = map to_attachment (files_of req)
  /\ forallb (fun f => includes allowedFileTypes (mimetype f)) (files_of req) = true.
Proof.
  destruct (sent_messages_any _ _ _ _ _ Hvalid H1) as (r1 & _ & ->).
  destruct (sent_messages_any _ _ _ _ _ Hvalid H2) as (r2 & Hr2 & ->).
  apply validate_inr in Hvalid. destruct Hvalid as (parsed & _ & _ & Hfind & ->).
  repeat split; [exact Hr2|].
  apply forallb_forall. intros f Hf. pose proof (find_none _ _ Hfind _ Hf) as Hd.
  unfold disallowed in Hd. apply negb_false_iff in Hd. exact Hd.
Qed.

End AcceptedMore.

Lemma batch_messages_differ_in_recipient_only_witness :
  mailOptions sample_validated [] "b@x.com"
  = with_to (mailOptions sample_validated [] "a@x.com") "b@x.com".
Proof.
  refine (proj1 (@batch_messages_differ_in_recipient_only sample_parse sample_is_email env_ok sample_request
                   sample_validated [] (mailOptions sample_validated [] "a@x.com")
                   (mailOptions sample_validated [] "b@x.com") eq_refl _ _)).
  - vm_compute. left. reflexivity.
  - vm_compute. right. left. reflexivity.
Defined.


(** ** The answer, the transporter and the shared schemas *)

Lemma loop_no_answer env vd atts rs : forall i,
  filter is_json_answer (loop_events env vd atts i rs) = []
  /\ filter is_end (loop_events env vd atts i rs) = [].
Proof.
  induction rs as [|r rest IH]; intros i; [split; reflexivity|].
  cbn. apply IH.
Qed.

(** X4.  Whatever the request and the mail service, the handler completes
    the response exactly once, and as the last thing it does: either with
    one JSON answer, and then it has set no header and written nothing on
    a stream, or by ending the stream it opened. *)
Theorem handler_answers_once
  (JSON_parse : string -> json + thrown) (is_email : string -> bool)
  (env : Env) (req : Request) :
  let tr := run JSON_parse is_email env req in
  List.length (filter is_json_answer tr) + List.length (filter is_end tr) = 1
  /\ (exists before e, tr = before ++ [e] /\ is_json_answer e || is_end e = true)
  /\ (existsb is_json_answer tr = true -> existsb is_stream_event tr = false)
  /\ (existsb is_end tr = true <-> stream_opened tr).
Proof.
  intros tr. subst tr. rewrite run_spec.
  destruct (validate JSON_parse is_email req) as [b|[vd atts]].
  { split; [reflexivity|]. split; [exists [], (EvJson 400 b); split; reflexivity|].
    split; [reflexivity|]. split; [discriminate|]. intros [H|[]]. discriminate. }
  destruct (verify_result env (transporter_of vd)).
  { split; [reflexivity|].
    split; [exists [EvCreateTransport (transporter_of vd); EvVerify (transporter_of vd)],
                   (EvJson 401 auth_failed_body); split; reflexivity|].
    split; [reflexivity|]. split; [discriminate|].
    intros [H|[H|[H|[]]]]; discriminate. }
  destruct (loop_no_answer env vd atts (recipients vd) 0) as [Hj He].
  split.
  { cbn. rewrite !filter_app, Hj, He. reflexivity. }
  split.
  { exists (EvCreateTransport (transporter_of vd) :: EvVerify (transporter_of vd)
            :: sse_headers ++ loop_events env vd atts 0 (recipients vd)
            ++ [EvWrite (UComplete (summary env vd atts))]), EvEnd.
    split; [|reflexivity]. cbn. rewrite <- !app_assoc. reflexivity. }
  split.
  { intros H. exfalso. cbn in H. rewrite existsb_app in H. cbn in H.
    rewrite !orb_false_r in H. apply existsb_exists in H. destruct H as (e & Hin & Hj').
    assert (In e (filter is_json_answer (loop_events env vd atts 0 (recipients vd))))
      by (apply filter_In; split; assumption).
    rewrite Hj in H. destruct H. }
  split; [intros _; right; right; left; reflexivity|].
  intros _. cbn. rewrite existsb_app. cbn. apply orb_true_r.
Qed.

Section Conformity.

Variable JSON_parse : string -> json + thrown.
Variable is_email : string -> bool.

Lemma created_transporter (env : Env) (req : Request) vd atts t :
  validate JSON_parse is_email req = inr (vd, atts) ->
  In (EvCreateTransport t) (run JSON_parse is_email env req) ->
  t = transporter_of vd.
Proof.
  intros Hvalid Hin. rewrite run_spec, Hvalid in Hin.
  destruct Hin as [H|[H|Hin]]; [congruence|discriminate|].
  exfalso. destruct (verify_result env (transporter_of vd)).
  - destruct Hin as [H|[]]. discriminate.
  - cbn in Hin. destruct Hin as [H|[H|[H|Hin]]]; try discriminate.
    apply in_app_or in Hin. destruct Hin as [Hin|[H|[H|[]]]]; try discriminate.
    apply loop_events_shape in Hin. destruct Hin as [[s H]|[r [_ H]]]; discriminate.
Qed.

(** X5.  The transporter of a batch is made without TLS on connect, with
    the user name and password of the request, neither empty, and for the
    host and port the request names: [smtp.zeptomail.in] and 587 only when
    the request names none. *)
Theorem transporter_settings
  (env : Env) (req : Request) (vd : SendEmailRequest) (atts : list Attachment)
  (t : Transporter)
  (Hvalid : validate JSON_parse is_email req = inr (vd, atts))
  (Hmade : In (EvCreateTransport t) (run JSON_parse is_email env req)) :
  exists members rc ccv bccv,
    parsed_fields JSON_parse (body req) = Normal (JObj members, rc, ccv, bccv)
    /\ t_secure t = false
    /\ prop members "username" = Some (JStr (t_user t)) /\ t_user t <> ""
    /\ prop members "password" = Some (JStr (t_pass t)) /\ t_pass t <> ""
    /\ match prop members "host" with
       | Some x => x = JStr (t_host t)
       | None => t_host t = "smtp.zeptomail.in"
       end
    /\ match prop members "port" with
       | Some x => x = JNum (t_port t)
       | None => t_port t = 587%Z
       end.
Proof.
  rewrite (created_transporter _ _ _ Hvalid Hmade).
  apply validate_inr in Hvalid.
  destruct Hvalid as ([[[sc rc] ccv] bccv] & Hp & Hs & _).
  apply safeParse_success in Hs. destruct Hs as (Hc & _).
  apply smtpConfig_success in Hc.
  destruct Hc as (members & Hsc & Hu1 & Hu2 & Hp1 & Hp2 & Hh & Hport & _).
  injection Hsc as ->.
  exists members, rc, ccv, bccv. cbn [transporter_of t_secure t_user t_pass t_host t_port].
  repeat split; assumption.
Qed.

Lemma emailStatus_conforms (s : EmailStatus) p :
  is_email (email s) = true ->
  emailStatusSchema is_email p (Some (status_json s)) = ParseSuccess s.
Proof.
  intros H. destruct s as [e st er]. cbn [email] in H.
  unfold emailStatusSchema, z_object, field, status_json.
  destruct st, er; cbn; unfold email_check; rewrite H; reflexivity.
Qed.

Lemma statuses_conform (l : list EmailStatus) p : forall i,
  Forall (fun s => is_email (email s) = true) l ->
  parse_statuses is_email p i (map status_json l) = ParseSuccess l.
Proof.
  induction l as [|s l IH]; intros i H; [reflexivity|].
  inversion H as [|? ? Hs Hl]; subst. cbn [map parse_statuses].
  rewrite (emailStatus_conforms s _ Hs), (IH _ Hl). reflexivity.
Qed.

Lemma written_statuses_emails (env : Env) vd atts rs : forall i s,
  In s (written_statuses (loop_events env vd atts i rs)) -> In (email s) rs.
Proof.
  induction rs as [|r rest IH]; intros i s Hin; [destruct Hin|].
  cbn in Hin. destruct Hin as [<-|[<-|Hin]].
  - left. reflexivity.
  - left. symmetry. apply terminal_status_email.
  - right. apply (IH _ _ Hin).
Qed.

(** X6.  What the handler writes conforms to the shared schemas: every
    status unit of a batch parses under [emailStatusSchema] to the status
    it was made from, and the data of the final unit parses under
    [sendEmailResponseSchema] to the results and totals of the batch. *)
Theorem written_units_conform
  (env : Env) (req : Request) (vd : SendEmailRequest) (atts : list Attachment)
  (Hvalid : validate JSON_parse is_email req = inr (vd, atts)) :
  let tr := run JSON_parse is_email env req in
  (forall s, In s (written_statuses tr) ->
     emailStatusSchema is_email [] (Some (status_json s)) = ParseSuccess s)
  /\ (forall data, In (UComplete data) (final_units tr) ->
        sendEmailResponseSchema is_email [] (Some (response_json data))
        = ParseSuccess (resp_results data,
                        Z.of_nat (resp_totalSent data),
                        Z.of_nat (resp_totalFailed data))).
Proof.
  intros tr. subst tr.
  pose proof (@accepted_recipients JSON_parse is_email req vd atts Hvalid) as Hall.
  rewrite Forall_forall in Hall.
  rewrite run_spec, Hvalid.
  destruct (verify_result env (transporter_of vd)).
  { split; [intros s []|intros data []]. }
  cbn [written_statuses final_units sse_headers app].
  rewrite written_statuses_app, final_units_app, loop_final_units.
  cbn [written_statuses final_units app]. rewrite app_nil_r.
  split.
  - intros s Hin. apply emailStatus_conforms, Hall.
    apply (written_statuses_emails _ _ _ _ _ _ Hin).
  - intros data [[= <-]|[]].
    unfold sendEmailResponseSchema, z_object, field, response_json, summary.
    cbn. rewrite statuses_conform; [reflexivity|].
    apply Forall_forall. intros s Hs. apply Hall.
    rewrite <- (loop_results_email env vd atts (recipients vd) 0).
    apply in_map. exact Hs.
Qed.

End Conformity.

Lemma transporter_settings_witness :
  exists members rc ccv bccv,
    parsed_fields sample_parse (body sample_request) = Normal (JObj members, rc, ccv, bccv)
    /\ t_secure (transporter_of sample_validated) = false
    /\ prop members "username" = Some (JStr "u") /\ "u" <> ""
    /\ prop members "password" = Some (JStr "p") /\ "p" <> ""
    /\ match prop members "host" with
       | Some x => x = JStr "smtp.zeptomail.in"
       | None => "smtp.zeptomail.in" = "smtp.zeptomail.in"
       end
    /\ match prop members "port" with
       | Some x => x = JNum 587
       | None => 587%Z = 587%Z
       end.
Proof.
  refine (@transporter_settings sample_parse sample_is_email env_ok sample_request
            sample_validated [] (transporter_of sample_validated) eq_refl _).
  vm_compute. left. reflexivity.
Defined.

Lemma written_units_conform_witness :
  emailStatusSchema sample_is_email []
    (Some (status_json {| email := "a@x.com"; status := sending; error := None |}))
  = ParseSuccess {| email := "a@x.com"; status := sending; error := None |}.
Proof.
  refine (proj1 (@written_units_conform sample_parse sample_is_email env_ok sample_request
                   sample_validated [] eq_refl) _ _).
  vm_compute. left. reflexivity.
Defined.

(** ** More on the normalizer and the tag remover *)

Lemma valid_email_has_at (a : text) : valid_email a -> In "@"%char a.
Proof.
  intros (l & v1 & -> & _ & at_ & v2 & -> & -> & _).
  apply in_or_app. right. left. reflexivity.
Qed.

(** X7.  A text without an [@] holds no address: the normalizer returns
    the empty list for it. *)
Theorem parseEmails_needs_at (t : text) (Hno : ~ In "@"%char t) :
  parseEmails t = [].
Proof.
  rewrite parseEmails_first_occurrences.
  destruct (match_all_from emailRegex t 0) as [|m ms] eqn:E; [reflexivity|].
  exfalso. apply Hno.
  destruct (@match_all_sound emailRegex t 0 m) as [Hm (pre & post & ->)].
  { rewrite E. left. reflexivity. }
  apply in_or_app. right. apply in_or_app. left. apply valid_email_has_at, Hm.
Qed.

Lemma parseEmails_needs_at_witness :
  parseEmails (of_string "to whom it may concern, see list.txt") = [].
Proof.
  apply (@parseEmails_needs_at (of_string "to whom it may concern, see list.txt")).
  vm_compute. intros H.
  repeat (destruct H as [H|H]; [discriminate H|]). exact H.
Defined.

Lemma match_all_address (a t : text) :
  valid_email a -> outside cls_domain t ->
  match_all_from emailRegex (a ++ t) 0 = a :: match_all_from emailRegex t 0.
Proof.
  intros Ha Ht. pose proof (valid_email_nonempty Ha) as Hne.
  destruct a as [|c a]; [destruct Hne; reflexivity|].
  change ((c :: a) ++ t) with (c :: a ++ t). cbn [match_all_from].
  change (c :: a ++ t) with ((c :: a) ++ t).
  rewrite (@match_at_address _ _ Ha Ht). cbn [List.length].
  rewrite Nat.sub_succ, Nat.sub_0_r, match_all_skip. reflexivity.
Qed.

Lemma match_all_others (s t : text) :
  forallb (fun c => negb (cls_local c)) s = true ->
  match_all_from emailRegex (s ++ t) 0 = match_all_from emailRegex t 0.
Proof.
  induction s as [|c s IH]; intros H; [reflexivity|].
  cbn in H. apply andb_true_iff in H. destruct H as [Hc Hs].
  apply negb_true_iff in Hc. cbn [app match_all_from].
  rewrite (@match_at_other _ _ Hc). apply IH, Hs.
Qed.

Lemma separators_not_local (sep : text) :
  forallb is_separator sep = true ->
  forallb (fun c => negb (cls_local c)) sep = true.
Proof.
  apply forallb_impl. intros c Hc. rewrite (separator_not_local _ Hc). reflexivity.
Qed.

Lemma separators_outside (sep t : text) :
  sep <> [] -> forallb is_separator sep = true -> outside cls_domain (sep ++ t).
Proof.
  destruct sep as [|c sep]; [intros H; destruct H; reflexivity|].
  intros _ H. cbn in H. apply andb_true_iff in H. destruct H as [Hc _].
  cbn. apply separator_not_domain, Hc.
Qed.

Lemma match_all_join (sep : text) (l : list text) :
  sep <> [] -> forallb is_separator sep = true -> Forall valid_email l ->
  match_all_from emailRegex (join sep l) 0 = l.
Proof.
  intros Hne Hsep. induction l as [|x l IH]; intros Hall; [reflexivity|].
  inversion Hall as [|? ? Hx Hl]; subst. specialize (IH Hl).
  destruct l as [|y l].
  - cbn [join]. rewrite <- (app_nil_r x) at 1.
    rewrite (@match_all_address x [] Hx I). reflexivity.
  - change (join sep (x :: y :: l)) with (x ++ sep ++ join sep (y :: l)).
    rewrite (@match_all_address x (sep ++ join sep (y :: l)) Hx
               (@separators_outside sep _ Hne Hsep)).
    rewrite (@match_all_others sep _ (@separators_not_local sep Hsep)).
    rewrite IH. reflexivity.
Qed.

Lemma filter_keeps_all {A} (f : A -> bool) (l : list A) :
  (forall y, In y l -> f y = true) -> filter f l = l.
Proof.
  induction l as [|x l IH]; intros H; [reflexivity|].
  cbn. rewrite (H x (or_introl eq_refl)), IH; [reflexivity|].
  intros y Hy. apply H. right. exact Hy.
Qed.

Lemma first_occurrences_NoDup_id (l : list text) :
  NoDup l -> first_occurrences l = l.
Proof.
  induction 1 as [|x l Hx _ IH]; [reflexivity|].
  cbn. rewrite IH. f_equal. apply filter_keeps_all.
  intros y Hy. apply negb_true_iff. destruct (text_eqb y x) eqn:E; [|reflexivity].
  apply text_eqb_eq in E. subst y. contradiction.
Qed.

Lemma parseEmails_valid (t : text) : Forall valid_email (parseEmails t).
Proof.
  apply Forall_forall. intros a Hin. rewrite parseEmails_first_occurrences in Hin.
  apply first_occurrences_In in Hin. apply (match_all_sound _ _ _ _ Hin).
Qed.

Lemma parseEmails_NoDup (t : text) : NoDup (parseEmails t).
Proof. rewrite parseEmails_first_occurrences. apply first_occurrences_NoDup. Qed.

(** X8.  Writing the parsed addresses out again, joined by any non-empty
    run of separators, and parsing that text gives the same addresses
    back, in the same order. *)
Theorem parseEmails_join_round_trip (t sep : text)
  (Hne : sep <> []) (Hsep : forallb is_separator sep = true) :
  parseEmails (join sep (parseEmails t)) = parseEmails t.
Proof.
  rewrite (parseEmails_first_occurrences (join sep (parseEmails t))).
  rewrite (@match_all_join sep _ Hne Hsep (parseEmails_valid t)).
  apply first_occurrences_NoDup_id, parseEmails_NoDup.
Qed.

Lemma parseEmails_join_round_trip_witness :
  parseEmails (join [nl] (parseEmails example_text)) = parseEmails example_text.
Proof.
  apply (@parseEmails_join_round_trip example_text [nl]).
  - discriminate.
  - reflexivity.
Defined.

(** *** The tag remover *)

Lemma replace_no_match (r : regex) (by_ s : text) :
  match_all_from r s 0 = [] -> replace_from r by_ s 0 = s.
Proof.
  induction s as [|c s IH]; cbn [match_all_from replace_from].
  - destruct (match_at r []); [discriminate|reflexivity].
  - destruct (match_at r (c :: s)); [discriminate|].
    intros H. rewrite (IH H). reflexivity.
Qed.

Lemma remove_tags_length (s : text) : forall inside,
  List.length (remove_tags inside s) <= List.length s.
Proof.
  induction s as [|c s IH]; intros inside; [reflexivity|].
  cbn [remove_tags List.length].
  pose proof (IH true). pose proof (IH false).
  destruct inside; [destruct (Ascii.eqb c ">"); lia|].
  destruct (Ascii.eqb c "<" && has_gt s); cbn [List.length]; lia.
Qed.

Lemma remove_tags_no_lt (s : text) :
  existsb (fun c => Ascii.eqb c "<") s = false -> remove_tags false s = s.
Proof.
  induction s as [|c s IH]; [reflexivity|].
  cbn [existsb remove_tags]. intros H. apply orb_false_iff in H. destruct H as [Hc Hs].
  rewrite Hc, (IH Hs). reflexivity.
Qed.

Lemma of_to_string (t : text) : of_string (to_string t) = t.
Proof. apply list_ascii_of_string_of_list_ascii. Qed.

Lemma to_of_string (s : string) : to_string (of_string s) = s.
Proof. apply string_of_list_ascii_of_string. Qed.

(** X9.  Removing the tags twice is the same as removing them once, the
    result is never longer than the text, and a text that has no [<] or
    no [>] is returned unchanged. *)
Theorem String_replace_tags_stable (s : string) :
  String_replace_tags (String_replace_tags s) = String_replace_tags s
  /\ List.length (of_string (String_replace_tags s)) <= List.length (of_string s)
  /\ (existsb (fun c => Ascii.eqb c "<") (of_string s) = false
      \/ existsb (fun c => Ascii.eqb c ">") (of_string s) = false ->
      String_replace_tags s = s).
Proof.
  rewrite !String_replace_tags_spec. unfold without_tags.
  rewrite !of_to_string. split; [|split].
  - f_equal. rewrite <- (proj1 (replace_from_tags (remove_tags false (of_string s)))).
    apply replace_no_match, remove_tags_clean. discriminate.
  - apply remove_tags_length.
  - intros [H|H].
    + rewrite (remove_tags_no_lt _ H). apply to_of_string.
    + rewrite (remove_tags_no_gt _ H). apply to_of_string.
Qed.

Lemma String_replace_tags_stable_witness :
  String_replace_tags "2 > 1 and x" = "2 > 1 and x".
Proof.
  apply (proj2 (proj2 (String_replace_tags_stable "2 > 1 and x"))).
  left. reflexivity.
Defined.

(** ** The attachment list *)

Lemma filter_index_drop {A} (index : nat) (l : list A) : forall k,
  filter_index (fun _ i => negb (i =? index)) k l =
  if index <? k then l else firstn (index - k) l ++ skipn (S (index - k)) l.
Proof.
  induction l as [|x l IH]; intros k.
  - destruct (index <? k); [reflexivity|]. rewrite firstn_nil, skipn_nil. reflexivity.
  - cbn [filter_index]. rewrite IH.
    destruct (Nat.eqb_spec k index) as [->|Hne].
    + cbn [negb]. rewrite Nat.sub_diag.
      destruct (Nat.ltb_spec index (S index)); [|lia].
      destruct (Nat.ltb_spec index index); [lia|]. reflexivity.
    + cbn [negb]. destruct (Nat.ltb_spec index (S k)), (Nat.ltb_spec index k);
        try lia; [reflexivity|].
      replace (index - k) with (S (index - S k)) by lia. reflexivity.
Qed.

(** X10.  Removing the attachment at an index drops exactly the file at
    that index and keeps the others in order; an index past the end leaves
    the list as it is; and removing the index a newly chosen file was
    appended at gives the former list back. *)
Theorem removeAttachment_spec {File} (attachments : list File) (index : nat) :
  removeAttachment attachments index
  = firstn index attachments ++ skipn (S index) attachments
  /\ (List.length attachments <= index ->
      removeAttachment attachments index = attachments)
  /\ (index < List.length attachments ->
      S (List.length (removeAttachment attachments index)) = List.length attachments)
  /\ (forall file,
        removeAttachment (handleFileSelect attachments (Some [file]))
                         (List.length attachments) = attachments).
Proof.
  unfold removeAttachment. rewrite !filter_index_drop.
  destruct (Nat.ltb_spec index 0); [lia|]. rewrite Nat.sub_0_r.
  split; [reflexivity|]. split; [|split].
  - intros H1. rewrite firstn_all2 by lia. rewrite skipn_all2 by lia. apply app_nil_r.
  - intros H1. rewrite length_app, length_firstn, length_skipn. lia.
  - intros file. rewrite filter_index_drop.
    destruct (Nat.ltb_spec (List.length attachments) 0); [lia|]. rewrite Nat.sub_0_r.
    cbn [handleFileSelect].
    rewrite firstn_app, Nat.sub_diag, firstn_all. cbn [firstn].
    rewrite skipn_all2 by (rewrite length_app; cbn; lia).
    rewrite !app_nil_r. reflexivity.
Qed.

(** ** Splitting the recipients box *)

Lemma lead_le cls (s : text) : lead cls s <= List.length s.
Proof. induction s as [|c s IH]; cbn; [lia|]. destruct (cls c); cbn; lia. Qed.

Lemma lead_run cls (s : text) : forallb cls (firstn (lead cls s) s) = true.
Proof.
  induction s as [|c s IH]; [reflexivity|].
  cbn [lead]. destruct (cls c) eqn:E; [|reflexivity]. cbn. rewrite E, IH. reflexivity.
Qed.

Lemma lead_outside cls (s : text) : outside cls (skipn (lead cls s) s).
Proof.
  induction s as [|c s IH]; [exact I|].
  cbn [lead]. destruct (cls c) eqn:E; [exact IH|exact E].
Qed.

Lemma match_at_run (r : regex) (run rest : text) :
  exec r (run ++ rest) (fun x => Some x) = Some rest ->
  match_at r (run ++ rest) = Some run.
Proof. intros H. unfold match_at. rewrite H, firstn_prefix. reflexivity. Qed.

Lemma match_at_many1 cls (c : ascii) (s : text) :
  match_at (Many 1 cls) (c :: s)
  = if cls c then Some (c :: firstn (lead cls s) s) else None.
Proof.
  destruct (cls c) eqn:E.
  - assert (Hsplit : c :: s = (c :: firstn (lead cls s) s) ++ skipn (lead cls s) s).
    { cbn. rewrite firstn_skipn. reflexivity. }
    rewrite Hsplit. apply match_at_run. cbn [exec].
    apply many_greedy.
    + cbn. rewrite E. apply lead_run.
    + apply lead_outside.
    + cbn. lia.
    + reflexivity.
  - unfold match_at. cbn [exec]. rewrite many_cons, E. reflexivity.
Qed.

(** Splitting at [[class]+] gives the pieces between the runs of the class. *)
Lemma split_pieces cls (s : text) :
  (forall cur, split_from (Many 1 cls) s 0 cur = pieces cls s cur false)
  /\ split_from (Many 1 cls) s (lead cls s) [] = pieces cls s [] true.
Proof.
  induction s as [|c s [IH0 IH1]]; [split; reflexivity|].
  assert (H0 : forall cur,
    split_from (Many 1 cls) (c :: s) 0 cur = pieces cls (c :: s) cur false).
  { intros cur. cbn [split_from pieces]. rewrite match_at_many1.
    destruct (cls c).
    - rewrite length_firstn. replace (Nat.min (lead cls s) (List.length s))
        with (lead cls s) by (pose proof (lead_le cls s); lia).
      rewrite IH1. reflexivity.
    - apply IH0. }
  split; [exact H0|].
  cbn [lead]. destruct (cls c) eqn:E.
  - cbn [split_from pieces]. rewrite E. exact IH1.
  - rewrite H0. cbn [pieces]. rewrite E. reflexivity.
Qed.

Lemma String_split_pieces (s : text) :
  String_split s splitRegex = pieces cls_split s [] false.
Proof.
  destruct s as [|c s]; [reflexivity|].
  unfold String_split, splitRegex. apply split_pieces.
Qed.

Lemma pieces_run cls (x : text) : forall (rest cur : text) b,
  x <> [] -> forallb (fun c => negb (cls c)) x = true ->
  pieces cls (x ++ rest) cur b = pieces cls rest (cur ++ x) false.
Proof.
  induction x as [|c x IH]; intros rest cur b Hne Hx; [destruct Hne; reflexivity|].
  cbn in Hx. apply andb_true_iff in Hx. destruct Hx as [Hc Hx].
  apply negb_true_iff in Hc. cbn [app pieces]. rewrite Hc.
  destruct x as [|d x].
  - cbn [app]. reflexivity.
  - rewrite IH; [|discriminate|exact Hx]. rewrite <- app_assoc. reflexivity.
Qed.

(** *** Addresses hold no separator *)

Lemma split_cases (c : ascii) (P : ascii -> Prop) :
  cls_split c = true ->
  P (ascii_of_nat 9) -> P nl -> P (ascii_of_nat 11) -> P (ascii_of_nat 12) ->
  P (ascii_of_nat 13) -> P " "%char -> P (ascii_of_nat 160) ->
  P ","%char -> P ";"%char -> P c.
Proof.
  intros H P9 P10 P11 P12 P13 P32 P160 Pc Ps.
  unfold cls_split, cls_space, char_between, one_of in H. cbn [existsb] in H.
  rewrite <- (ascii_nat_embedding c).
  assert (Hlt : nat_of_ascii c < 256) by apply nat_ascii_bounded.
  repeat (apply orb_true_iff in H; destruct H as [H|H]); try discriminate.
  - apply andb_true_iff in H. destruct H as [H1 H2].
    apply Nat.leb_le in H1, H2. cbn in H1, H2.
    assert (Hc : nat_of_ascii c = 9 \/ nat_of_ascii c = 10 \/ nat_of_ascii c = 11
                 \/ nat_of_ascii c = 12 \/ nat_of_ascii c = 13) by lia.
    destruct Hc as [->|[->|[->|[->| ->]]]]; assumption.
  - apply Ascii.eqb_eq in H. subst c. exact P32.
  - apply Ascii.eqb_eq in H. subst c. exact P160.
  - apply Ascii.eqb_eq in H. subst c. exact Pc.
  - apply Ascii.eqb_eq in H. subst c. exact Ps.
  - apply Ascii.eqb_eq in H. subst c. exact P10.
Qed.

Lemma split_not_local c : cls_split c = true -> cls_local c = false.
Proof.
  intros H. apply (@split_cases c (fun x => cls_local x = false) H); reflexivity.
Qed.

Lemma split_not_domain c : cls_split c = true -> cls_domain c = false.
Proof.
  intros H. apply (@split_cases c (fun x => cls_domain x = false) H); reflexivity.
Qed.

Lemma split_not_at c : cls_split c = true -> Ascii.eqb c "@" = false.
Proof.
  intros H. apply (@split_cases c (fun x => Ascii.eqb x "@" = false) H); reflexivity.
Qed.

Lemma not_split_of (f : ascii -> bool) (w : text) :
  (forall c, cls_split c = true -> f c = false) ->
  forallb f w = true -> forallb (fun c => negb (cls_split c)) w = true.
Proof.
  intros H. apply forallb_impl. intros c Hc.
  destruct (cls_split c) eqn:E; [|reflexivity]. rewrite (H c E) in Hc. discriminate.
Qed.

Lemma domain_not_split (w : text) :
  forallb cls_domain w = true -> forallb (fun c => negb (cls_split c)) w = true.
Proof. apply not_split_of, split_not_domain. Qed.

Lemma valid_email_no_separator (a : text) :
  valid_email a -> forallb (fun c => negb (cls_split c)) a = true.
Proof.
  intros (l & v1 & -> & [_ Hl] & at_ & v2 & -> & -> & d & v3 & -> & [_ Hd]
          & dot & tld & -> & -> & [_ Ht]).
  rewrite !forallb_app. cbn [forallb].
  rewrite (not_split_of _ _ split_not_local Hl), (domain_not_split _ Hd),
    (domain_not_split _ (forallb_impl _ _ _ alpha_domain Ht)).
  reflexivity.
Qed.

(** ** Removing a recipient *)

Lemma forallb_rev {A} (f : A -> bool) (l : list A) :
  forallb f (rev l) = forallb f l.
Proof.
  induction l as [|x l IH]; [reflexivity|].
  cbn. rewrite forallb_app, IH. cbn. rewrite andb_true_r. apply andb_comm.
Qed.

Lemma trimStart_id (s : text) :
  forallb (fun c => negb (cls_space c)) s = true -> trimStart s = s.
Proof.
  destruct s as [|c s]; [reflexivity|]. cbn. intros H.
  apply andb_true_iff in H. destruct H as [H _]. apply negb_true_iff in H.
  rewrite H. reflexivity.
Qed.

Lemma no_split_no_space (s : text) :
  forallb (fun c => negb (cls_split c)) s = true ->
  forallb (fun c => negb (cls_space c)) s = true.
Proof.
  apply forallb_impl. intros c H. apply negb_true_iff in H. apply negb_true_iff.
  unfold cls_split in H. apply orb_false_iff in H. apply H.
Qed.

Lemma trim_id (s : text) :
  forallb (fun c => negb (cls_split c)) s = true -> trim s = s.
Proof.
  intros H. apply no_split_no_space in H. unfold trim.
  rewrite (@trimStart_id _ H), trimStart_id, rev_involutive; [reflexivity|].
  rewrite forallb_rev. exact H.
Qed.

Lemma kept_piece_nil e : kept_piece e [] = false.
Proof. reflexivity. Qed.

Lemma kept_piece_plain e (a : text) :
  a <> [] -> forallb (fun c => negb (cls_split c)) a = true ->
  kept_piece e a = differs e a.
Proof.
  intros Hne Ha. unfold kept_piece, differs. rewrite (@trim_id _ Ha).
  destruct (text_eqb a []) eqn:E; [apply text_eqb_eq in E; contradiction|reflexivity].
Qed.

Lemma kept_piece_nonempty e (a : text) : kept_piece e a = true -> a <> [].
Proof. intros H ->. discriminate. Qed.

Lemma pieces_sep_free cls (s : text) : forall cur b,
  forallb (fun c => negb (cls c)) cur = true ->
  Forall (fun x => forallb (fun c => negb (cls c)) x = true) (pieces cls s cur b).
Proof.
  induction s as [|c s IH]; intros cur b Hcur.
  - constructor; [exact Hcur|constructor].
  - cbn [pieces]. destruct (cls c) eqn:E.
    + destruct b; [apply IH; reflexivity|].
      constructor; [exact Hcur|apply IH; reflexivity].
    + apply IH. rewrite forallb_app, Hcur. cbn. rewrite E. reflexivity.
Qed.

Lemma pieces_join (l : list text) :
  l <> [] ->
  Forall (fun x => x <> [] /\ forallb (fun c => negb (cls_split c)) x = true) l ->
  forall b, pieces cls_split (join [nl] l) [] b = l.
Proof.
  induction l as [|x l IH]; intros Hne Hall b; [destruct Hne; reflexivity|].
  inversion Hall as [|? ? [Hx1 Hx2] Hl]; subst.
  destruct l as [|y l].
  - cbn [join]. rewrite <- (app_nil_r x) at 1.
    rewrite (@pieces_run cls_split x [] [] b Hx1 Hx2). reflexivity.
  - change (join [nl] (x :: y :: l)) with (x ++ [nl] ++ join [nl] (y :: l)).
    rewrite (@pieces_run cls_split x _ [] b Hx1 Hx2). cbn [app pieces].
    change (cls_split nl) with true. cbn iota.
    rewrite IH; [reflexivity|discriminate|exact Hl].
Qed.

Lemma filter_idem {A} (f : A -> bool) (l : list A) :
  filter f (filter f l) = filter f l.
Proof.
  rewrite filter_filter. apply filter_ext. intros y. destruct (f y); reflexivity.
Qed.

(** The new text of the box, split the same way again. *)
Lemma split_kept (e : text) (s : text) :
  let kept := filter (kept_piece e) (String_split s splitRegex) in
  String_split (join [nl] kept) splitRegex
  = match kept with [] => [[]] | _ :: _ => kept end.
Proof.
  intros kept. destruct kept as [|x l] eqn:E; [reflexivity|].
  rewrite String_split_pieces. apply pieces_join; [discriminate|].
  apply Forall_forall. intros y Hy. rewrite <- E in Hy. subst kept.
  apply filter_In in Hy. destruct Hy as [Hy Hk].
  split; [apply (@kept_piece_nonempty _ _ Hk)|].
  rewrite String_split_pieces in Hy.
  pose proof (pieces_sep_free cls_split s [] false eq_refl) as Hall.
  rewrite Forall_forall in Hall. apply Hall, Hy.
Qed.

(** X11.  After a recipient is removed, the new text of the box, split
    the same way again, is exactly the pieces that were kept (those that
    are not blank and differ from the removed address), in their order,
    or the one empty piece when none was kept; the same test keeps all of
    them again, so that removing the same address a second time changes
    neither the box nor the recipients; and the removed address is among
    neither the kept pieces nor the recipients that are left. *)
Theorem removeRecipient_removes (st : Recipients) (emailToRemove : text) :
  let st' := removeRecipient st emailToRemove in
  let kept := filter (kept_piece emailToRemove) (String_split (box_text st) splitRegex) in
  String_split (box_text st') splitRegex = match kept with [] => [[]] | _ :: _ => kept end
  /\ filter (kept_piece emailToRemove) (String_split (box_text st') splitRegex) = kept
  /\ removeRecipient st' emailToRemove = st'
  /\ ~ In emailToRemove kept
  /\ ~ In emailToRemove (parsed st').
Proof.
  intros st' kept.
  assert (Hsplit : String_split (box_text st') splitRegex
                   = match kept with [] => [[]] | _ :: _ => kept end).
  { exact (split_kept emailToRemove (box_text st)). }
  assert (Hfilter : filter (kept_piece emailToRemove)
                           (String_split (box_text st') splitRegex) = kept).
  { rewrite Hsplit. destruct kept as [|x l] eqn:E; [reflexivity|].
    rewrite <- E. subst kept. apply filter_idem. }
  split; [exact Hsplit|]. split; [exact Hfilter|]. split; [|split].
  - unfold removeRecipient at 1. fold (kept_piece emailToRemove).
    rewrite Hfilter. subst st'. unfold removeRecipient. cbn [parsed box_text].
    fold (kept_piece emailToRemove). rewrite filter_idem. reflexivity.
  - intros H. apply filter_In in H. destruct H as [_ H].
    unfold kept_piece in H. rewrite text_eqb_refl, andb_false_r in H. discriminate.
  - intros H. apply filter_In in H. destruct H as [_ H].
    rewrite text_eqb_refl in H. discriminate.
Qed.

(** *** A box that holds addresses and separators only *)

Lemma at_class_outside (f : ascii -> bool) (t : text) :
  (forall c, cls_split c = true -> f c = false) ->
  at_class cls_split t -> outside f t.
Proof. intros H. destruct t as [|c t]; [auto|]. apply H. Qed.

Lemma plain_valid (t : text) (addrs : list text) :
  plain_listing t addrs -> Forall valid_email addrs.
Proof.
  induction 1 as [|c t addrs _ _ IH|a t addrs Ha _ _ IH]; [constructor|exact IH|].
  constructor; [apply full_match_lang, Ha|exact IH].
Qed.

Lemma plain_matches (t : text) (addrs : list text) :
  plain_listing t addrs -> match_all_from emailRegex t 0 = addrs.
Proof.
  induction 1 as [|c t addrs Hc _ IH|a t addrs Ha Ht _ IH].
  - reflexivity.
  - cbn [match_all_from]. rewrite (@match_at_other _ _ (@split_not_local _ Hc)). exact IH.
  - rewrite (@match_all_address a t (@full_match_lang _ _ Ha)
               (@at_class_outside cls_domain t split_not_domain Ht)).
    rewrite IH. reflexivity.
Qed.

Lemma plain_pieces e (t : text) (addrs : list text) :
  plain_listing t addrs ->
  forall b, filter (kept_piece e) (pieces cls_split t [] b) = filter (differs e) addrs.
Proof.
  induction 1 as [|c t addrs Hc _ IH|a t addrs Ha Ht _ IH]; intros b.
  - reflexivity.
  - cbn [pieces]. rewrite Hc. destruct b; [apply IH|].
    cbn [filter]. rewrite kept_piece_nil. apply IH.
  - apply full_match_lang in Ha.
    pose proof (valid_email_nonempty Ha) as Hne.
    pose proof (valid_email_no_separator Ha) as Hsep.
    rewrite (@pieces_run cls_split a t [] b Hne Hsep). cbn [app filter].
    destruct t as [|c t].
    + specialize (IH true). cbn [pieces filter] in IH. rewrite kept_piece_nil in IH.
      cbn [pieces filter]. rewrite (@kept_piece_plain e a Hne Hsep), <- IH. reflexivity.
    + cbn in Ht. cbn [pieces]. rewrite Ht. cbn [filter].
      rewrite (@kept_piece_plain e a Hne Hsep).
      specialize (IH true). cbn [pieces] in IH. rewrite Ht in IH. rewrite IH.
      reflexivity.
Qed.

Lemma first_occurrences_filter e (l : list text) :
  first_occurrences (filter (differs e) l) = filter (differs e) (first_occurrences l).
Proof.
  induction l as [|x l IH]; [reflexivity|].
  cbn [filter first_occurrences]. destruct (differs e x) eqn:E.
  - cbn [first_occurrences filter]. rewrite IH, !filter_filter. f_equal.
    apply filter_ext. intros y. apply andb_comm.
  - rewrite IH, filter_filter. apply filter_ext. intros y.
    unfold differs in E. apply negb_false_iff, text_eqb_eq in E. subst x.
    unfold differs. destruct (text_eqb y e); reflexivity.
Qed.

Lemma filter_valid (f : text -> bool) (l : list text) :
  Forall valid_email l -> Forall valid_email (filter f l).
Proof.
  rewrite !Forall_forall. intros H a Ha. apply filter_In in Ha. apply H, Ha.
Qed.

(** X12.  When the box holds nothing but addresses and their separators,
    removing a recipient keeps the box and the parsed list together:
    parsing the new text of the box gives exactly the new parsed list,
    which is the former list without the removed address. *)
Theorem removeRecipient_keeps_box_and_list_together
  (t : text) (addrs : list text) (emailToRemove : text)
  (Hplain : plain_listing t addrs) :
  let st := handleRecipientsChange t in
  let st' := removeRecipient st emailToRemove in
  parsed st = first_occurrences addrs
  /\ box_text st' = join [nl] (filter (differs emailToRemove) addrs)
  /\ parseEmails (box_text st') = parsed st'
  /\ parsed st' = filter (differs emailToRemove) (parsed st)
  /\ NoDup (parsed st').
Proof.
  intros st st'. subst st st'.
  cbn [handleRecipientsChange removeRecipient box_text parsed].
  fold (kept_piece emailToRemove). fold (differs emailToRemove).
  rewrite String_split_pieces, (@plain_pieces emailToRemove _ _ Hplain false).
  rewrite (parseEmails_first_occurrences t), (@plain_matches _ _ Hplain).
  split; [reflexivity|]. split; [reflexivity|]. split; [|split; [reflexivity|]].
  - rewrite parseEmails_first_occurrences.
    rewrite (@match_all_join [nl] _); [apply first_occurrences_filter|discriminate|reflexivity|].
    apply filter_valid, (@plain_valid _ _ Hplain).
  - apply NoDup_filter, first_occurrences_NoDup.
Qed.

Lemma removeRecipient_keeps_box_and_list_together_witness :
  parseEmails (box_text (removeRecipient (handleRecipientsChange example_text) bob))
  = parsed (removeRecipient (handleRecipientsChange example_text) bob).
Proof.
  refine (proj1 (proj2 (proj2
    (@removeRecipient_keeps_box_and_list_together example_text
       [alice; bob; alice; bob; carol] bob _)))).
  change example_text
    with (alice ++ ","%char :: " "%char ::
          (bob ++ nl ::
           (alice ++ " "%char ::
            (bob ++ ";"%char :: (carol ++ []))))).
  apply plain_address; [reflexivity|reflexivity|].
  apply plain_separator; [reflexivity|].
  apply plain_separator; [reflexivity|].
  apply plain_address; [reflexivity|reflexivity|].
  apply plain_separator; [reflexivity|].
  apply plain_address; [reflexivity|reflexivity|].
  apply plain_separator; [reflexivity|].
  apply plain_address; [reflexivity|reflexivity|].
  apply plain_separator; [reflexivity|].
  apply plain_address; [reflexivity|exact I|].
  apply plain_end.
Defined.

(** ** The client's reading of the event stream *)

Lemma split_char_nonempty c s : forall cur, split_char c s cur <> [].
Proof.
  induction s as [|x s IH]; intros cur; cbn; [discriminate|].
  destruct (Ascii.eqb x c); [discriminate|apply IH].
Qed.

Lemma removelast_cons (A : Type) (x : A) l :
  l <> [] -> removelast (x :: l) = x :: removelast l.
Proof. destruct l; [congruence|reflexivity]. Qed.

Lemma last_cons (A : Type) (x : A) l d :
  l <> [] -> last (x :: l) d = last l d.
Proof. destruct l; [congruence|reflexivity]. Qed.

Lemma split_char_app c x y : forall cur,
  split_char c (x ++ y) cur
  = removelast (split_char c x cur) ++ split_char c y (last (split_char c x cur) []).
Proof.
  induction x as [|a x IH]; intros cur; [reflexivity|].
  cbn [app split_char]. destruct (Ascii.eqb a c).
  - rewrite removelast_cons, last_cons by apply split_char_nonempty.
    cbn [app]. f_equal. apply IH.
  - apply IH.
Qed.

Lemma split_char_buffer c buf v : forall cur,
  forallb (fun x => negb (Ascii.eqb x c)) buf = true ->
  split_char c (buf ++ v) cur = split_char c v (cur ++ buf).
Proof.
  induction buf as [|a buf IH]; intros cur H.
  - cbn. rewrite app_nil_r. reflexivity.
  - cbn in H. apply andb_true_iff in H. destruct H as [Ha H].
    cbn [app split_char]. apply negb_true_iff in Ha. rewrite Ha.
    rewrite IH by exact H. rewrite <- app_assoc. reflexivity.
Qed.

Lemma last_split_no_break c s : forall cur,
  forallb (fun x => negb (Ascii.eqb x c)) cur = true ->
  forallb (fun x => negb (Ascii.eqb x c)) (last (split_char c s cur) []) = true.
Proof.
  induction s as [|a s IH]; intros cur H; [exact H|].
  cbn [split_char]. destruct (Ascii.eqb a c) eqn:E.
  - rewrite last_cons by apply split_char_nonempty. apply IH. reflexivity.
  - apply IH. rewrite forallb_app, H. cbn. rewrite E. reflexivity.
Qed.

Section ReaderFacts.

Variable JSON_parse : string -> json + thrown.

Lemma process_lines_app l1 l2 st :
  process_lines JSON_parse (l1 ++ l2) st
  = match process_lines JSON_parse l1 st with
    | Continue st' => process_lines JSON_parse l2 st'
    | halted => halted
    end.
Proof.
  revert st. induction l1 as [|l l1 IH]; intros st; [reflexivity|].
  cbn. destruct (process_line JSON_parse l st); auto.
Qed.

Lemma process_line_continue line st st' :
  process_line JSON_parse line st = Continue st' ->
  serverError st' = serverError st.
Proof.
  unfold process_line.
  destruct (startsWith line data_prefix); [|intros [= <-]; reflexivity].
  destruct (JSON_parse _) as [data|]; [|intros [= <-]; reflexivity].
  destruct (member (Some data) "type") as [ty|]; [|discriminate].
  destruct (strict_eq ty (Some (JStr "complete"))).
  { destruct (member (Some data) "data") as [d|]; [|discriminate].
    destruct (member d "totalSent"); [|discriminate].
    destruct (member d "totalFailed"); [|discriminate].
    intros [= <-]. reflexivity. }
  destruct (strict_eq ty (Some (JStr "error"))).
  { destruct (member (Some data) "message"); discriminate. }
  intros [= <-]. reflexivity.
Qed.

Lemma process_lines_continue lines : forall st st',
  process_lines JSON_parse lines st = Continue st' ->
  serverError st' = serverError st.
Proof.
  induction lines as [|l lines IH]; intros st st'; cbn.
  - intros [= <-]. reflexivity.
  - destruct (process_line JSON_parse l st) as [st1|st1|e st1] eqn:E; try discriminate.
    intros H. rewrite (IH _ _ H). exact (process_line_continue _ _ E).
Qed.

(** The loop handles the complete lines of the whole text, one after the
    other, however the text is cut. *)
Lemma read_loop_lines b : forall cs buf st,
  no_line_break buf = true ->
  serverError st = None ->
  read_loop JSON_parse cs b buf st
  = finish b
      (process_lines JSON_parse
         (removelast (split_char nl (List.concat cs) buf)) st).
Proof.
  induction cs as [|value rest IH]; intros buf st Hb Hs.
  - cbn. rewrite Hs. reflexivity.
  - cbn [read_loop List.concat].
    rewrite (split_char_buffer nl buf value [] Hb). cbn [app].
    rewrite split_char_app.
    rewrite removelast_app by apply split_char_nonempty.
    rewrite process_lines_app.
    destruct (process_lines JSON_parse (removelast (split_char nl value buf)) st)
      as [st1|st1|e st1] eqn:E; try reflexivity.
    rewrite (process_lines_continue _ _ E), Hs.
    apply IH.
    + apply last_split_no_break. exact Hb.
    + rewrite (process_lines_continue _ _ E). exact Hs.
Qed.

(** X13.  How the body of the response is cut into chunks makes no
    difference to the page: two bodies with the same text and the same
    ending leave [handleSSEStream] with the same result and the same
    page. *)
Theorem chunking_is_irrelevant (cs cs' : list text) (b : option Exn) (p : Page) :
  List.concat cs = List.concat cs' ->
  handleSSEStream JSON_parse (inr (Ok (Some {| chunks := cs; broken := b |}))) p
  = handleSSEStream JSON_parse (inr (Ok (Some {| chunks := cs'; broken := b |}))) p.
Proof.
  intros H. unfold handleSSEStream. cbn [chunks broken].
  rewrite !read_loop_lines by reflexivity. rewrite H. reflexivity.
Qed.

End ReaderFacts.

Lemma chunking_is_irrelevant_witness :
  let p := {| emailStatuses := Some (initialStatuses ["a@x.com"]);
              isSending := true; toasts := [] |} in
  handleSSEStream sample_parse
    (inr (Ok (Some {| chunks := [of_string "data: {"; of_string "}"; [nl; nl]];
                      broken := None |}))) p
  = handleSSEStream sample_parse
      (inr (Ok (Some {| chunks := [of_string "da"; of_string "ta: {}" ++ [nl; nl]];
                        broken := None |}))) p.
Proof.
  apply (@chunking_is_irrelevant sample_parse
           [of_string "data: {"; of_string "}"; [nl; nl]]
           [of_string "da"; of_string "ta: {}" ++ [nl; nl]]).
  reflexivity.
Defined.

(** ** The progress list and the toasts of a submission *)

Lemma email_member_data data e e' :
  member (Some data) "email" = Some e' ->
  strict_eq (Some (JStr e)) e' = true ->
  email_member data e.
Proof.
  intros Hm He.
  destruct e' as [[ | | |s| | ]|]; try discriminate.
  cbn in He. apply String.eqb_eq in He. subst s.
  destruct data; try discriminate.
  cbn in Hm. injection Hm as Hm. eexists. split; [reflexivity|exact Hm].
Qed.

Lemma findIndex_entries data email prev rs :
  Forall2 email_member prev rs ->
  member (Some data) "email" = Some email ->
  forall k,
  match findIndex email prev k with
  | None => False
  | Some None => True
  | Some (Some i) => k <= i /\ Forall2 email_member (set_at prev (i - k) data) rs
  end.
Proof.
  intros H Hm. induction H as [|s e prev rs (ms & -> & Hs) H IH]; intros k; [exact I|].
  cbn [findIndex member]. rewrite Hs.
  destruct (strict_eq (Some (JStr e)) email) eqn:E.
  - split; [lia|]. rewrite Nat.sub_diag. cbn. constructor; [|exact H].
    exact (email_member_data _ _ Hm E).
  - specialize (IH (S k)). destruct (findIndex email prev (S k)) as [[i|]|]; auto.
    destruct IH as [Hle IH]. split; [lia|].
    replace (i - k) with (S (i - S k)) by lia. cbn.
    constructor; [|exact IH]. exists ms. split; [reflexivity|exact Hs].
Qed.

Lemma update_statuses_entries data prev rs :
  Forall2 email_member prev rs ->
  member (Some data) "type" <> None ->
  exists l, update_statuses data prev = Some l /\ Forall2 email_member l rs.
Proof.
  intros H Hd. unfold update_statuses.
  destruct prev as [|s prev']; [exists []; split; [reflexivity|exact H]|].
  destruct (member (Some data) "email") as [email|] eqn:Hm.
  2:{ destruct data; cbn in Hm, Hd; congruence. }
  pose proof (findIndex_entries data H Hm 0) as F.
  destruct (findIndex email (s :: prev') 0) as [[i|]|]; [| |destruct F].
  - destruct F as [_ F]. rewrite Nat.sub_0_r in F. eexists. split; [reflexivity|exact F].
  - eexists. split; [reflexivity|exact H].
Qed.

Lemma sent_toasts_refl st : sent_toasts_added st st.
Proof. exists []. rewrite app_nil_r. auto. Qed.

Lemma sent_toasts_trans a b c :
  sent_toasts_added a b -> sent_toasts_added b c -> sent_toasts_added a c.
Proof.
  intros (x & Hx & Fx & Cx) (y & Hy & Fy & Cy). exists (x ++ y).
  rewrite Hy, Hx, <- app_assoc, forallb_app, Fx, Fy.
  split; [reflexivity|]. split; [reflexivity|].
  intros H. destruct (Cy H) as [H'|H'].
  - destruct (Cx H') as [?|?]; [left; assumption|].
    right. destruct x; [congruence|discriminate].
  - right. destruct x; [exact H'|discriminate].
Qed.

Section Progress.

Variable JSON_parse : string -> json + thrown.
Variable rs : list string.

Lemma process_line_keeps line st :
  listed rs (page st) ->
  listed rs (page (reader_of (process_line JSON_parse line st)))
  /\ sent_toasts_added st (reader_of (process_line JSON_parse line st)).
Proof.
  intros H. unfold process_line.
  destruct (startsWith line data_prefix); [|split; [exact H|apply sent_toasts_refl]].
  destruct (JSON_parse _) as [data|]; [|split; [exact H|apply sent_toasts_refl]].
  destruct (member (Some data) "type") as [ty|] eqn:Hty;
    [|split; [exact H|apply sent_toasts_refl]].
  destruct (strict_eq ty (Some (JStr "complete"))).
  { destruct (member (Some data) "data") as [d|];
      [|split; [exact H|apply sent_toasts_refl]].
    destruct (member d "totalSent") as [a|];
      [|split; [exact H|apply sent_toasts_refl]].
    destruct (member d "totalFailed") as [b|];
      [|split; [exact H|apply sent_toasts_refl]].
    split; [exact H|]. exists [ToastSent a b]. cbn.
    split; [reflexivity|]. split; [reflexivity|]. intros _. right. discriminate. }
  destruct (strict_eq ty (Some (JStr "error"))).
  { destruct (member (Some data) "message");
      (split; [exact H|]); [|apply sent_toasts_refl].
    exists []. cbn. rewrite app_nil_r. auto. }
  cbn. split.
  - destruct H as (l & Hl & Hf). rewrite Hl.
    assert (Hd : member (Some data) "type" <> None) by congruence.
    destruct (update_statuses_entries data Hf Hd) as (l' & -> & Hl').
    exists l'. split; [reflexivity|exact Hl'].
  - exists []. cbn. rewrite app_nil_r. auto.
Qed.

Lemma process_lines_keeps lines : forall st,
  listed rs (page st) ->
  listed rs (page (reader_of (process_lines JSON_parse lines st)))
  /\ sent_toasts_added st (reader_of (process_lines JSON_parse lines st)).
Proof.
  induction lines as [|l lines IH]; intros st H.
  - split; [exact H|apply sent_toasts_refl].
  - cbn [process_lines].
    destruct (process_line_keeps l st H) as [H1 H2].
    destruct (process_line JSON_parse l st) as [st1|st1|e st1]; cbn in H1, H2.
    + destruct (IH st1 H1) as [H3 H4]. split; [exact H3|].
      exact (sent_toasts_trans H2 H4).
    + split; assumption.
    + split; assumption.
Qed.

Lemma read_loop_keeps b : forall cs buf st,
  listed rs (page st) ->
  listed rs (page (snd (read_loop JSON_parse cs b buf st)))
  /\ sent_toasts_added st (snd (read_loop JSON_parse cs b buf st)).
Proof.
  induction cs as [|value rest IH]; intros buf st H.
  - cbn. destruct b; (split; [exact H|apply sent_toasts_refl]).
  - cbn [read_loop].
    destruct (process_lines_keeps
                (removelast (split_char nl (buf ++ value) [])) st H) as [H1 H2].
    destruct (process_lines JSON_parse _ st) as [st1|st1|e st1]; cbn in H1, H2.
    + destruct (serverError st1); [split; assumption|].
      destruct (IH (last (split_char nl (buf ++ value) []) []) st1 H1) as [H3 H4].
      split; [exact H3|]. exact (sent_toasts_trans H2 H4).
    + split; assumption.
    + split; assumption.
Qed.

(** X14.  Whatever comes back from the server, a submission leaves the
    progress list with one entry for each recipient, in the order of the
    recipients and each carrying its recipient's address, and leaves the
    sending flag off. *)
Theorem progress_list_keeps_recipients (fetched : Exn + Response) (p : Page) :
  let p' := send_and_show JSON_parse rs fetched p in
  (exists l, emailStatuses p' = Some l /\ Forall2 email_member l rs)
  /\ isSending p' = false.
Proof.
  assert (H0 : listed rs {| emailStatuses := Some (initialStatuses rs);
                           isSending := true; toasts := toasts p |}).
  { exists (initialStatuses rs). split; [reflexivity|].
    unfold initialStatuses. induction rs as [|r rest IH]; constructor; [|exact IH].
    eexists. split; reflexivity. }
  cbn zeta. unfold send_and_show, handleSSEStream.
  destruct fetched as [e|[[error|]|[stream|]]]; try (split; [exact H0|reflexivity]).
  { destruct (member (Some error) "message"); (split; [exact H0|reflexivity]). }
  destruct (read_loop_keeps (broken stream) (chunks stream) []
              {| completed := false; serverError := None;
                 page := {| emailStatuses := Some (initialStatuses rs);
                            isSending := true; toasts := toasts p |} |} H0) as [H1 _].
  destruct (read_loop JSON_parse _ _ _ _) as [t st]. cbn in H1.
  destruct t; [split; [exact H1|reflexivity]|].
  destruct (serverError st); [split; [exact H1|reflexivity]|].
  destruct (completed st); (split; [exact H1|reflexivity]).
Qed.

(** X15.  Every submission tells the user how it ended: the toasts it adds
    are "Emails Sent" toasts followed by at most one "Error" toast, and
    when there is no "Error" toast there is at least one "Emails Sent"
    toast.  *)
Theorem submission_always_reports (fetched : Exn + Response) (p : Page) :
  exists sents errors,
    toasts (send_and_show JSON_parse rs fetched p) = toasts p ++ sents ++ errors
    /\ forallb is_sent_toast sents = true
    /\ ((exists e, errors = [ToastError e]) \/ (errors = [] /\ sents <> [])).
Proof.
  unfold send_and_show, handleSSEStream.
  destruct fetched as [e|[[error|]|[stream|]]];
    try (eexists [], [ToastError _]; cbn;
         split; [reflexivity|split; [reflexivity|left; eauto]]; fail).
  { destruct (member (Some error) "message");
      (eexists [], [ToastError _]; cbn; split; [reflexivity|split; [reflexivity|left; eauto]]). }
  assert (H0 : listed rs {| emailStatuses := Some (initialStatuses rs);
                           isSending := true; toasts := toasts p |}).
  { exists (initialStatuses rs). split; [reflexivity|].
    unfold initialStatuses. induction rs as [|r rest IH]; constructor; [|exact IH].
    eexists. split; reflexivity. }
  destruct (read_loop_keeps (broken stream) (chunks stream) []
              {| completed := false; serverError := None;
                 page := {| emailStatuses := Some (initialStatuses rs);
                            isSending := true; toasts := toasts p |} |} H0)
    as [_ (added & Ht & Hf & Hc)].
  destruct (read_loop JSON_parse _ _ _ _) as [t st]. cbn in Ht, Hc.
  destruct t as [e|].
  { exists added, [ToastError e]. cbn. rewrite Ht, <- app_assoc.
    split; [reflexivity|]. split; [exact Hf|left; eauto]. }
  destruct (serverError st) as [e|].
  { exists added, [ToastError e]. cbn. rewrite Ht, <- app_assoc.
    split; [reflexivity|]. split; [exact Hf|left; eauto]. }
  destruct (completed st).
  - exists added, []. cbn. rewrite Ht, app_nil_r.
    split; [reflexivity|]. split; [exact Hf|right]. split; [reflexivity|].
    destruct (Hc eq_refl) as [?|?]; [discriminate|assumption].
  - eexists added, [ToastError _]. cbn. rewrite Ht, <- app_assoc.
    split; [reflexivity|]. split; [exact Hf|left; eauto].
Qed.

End Progress.

(** ** From the handler's answer to what the page shows *)

Lemma make_error_message msg fallback :
  msg <> ""%string -> make_error (Some (JStr msg)) fallback = Err msg.
Proof.
  intros H. unfold make_error. cbn.
  destruct (String.eqb msg "") eqn:E; [apply String.eqb_eq in E; congruence|reflexivity].
Qed.

Section Shown.

Variable JSON_parse : string -> json + thrown.
Variable is_email : string -> bool.

Lemma answer_message (env : Env) (req : Request) code b :
  In (EvJson code b) (run JSON_parse is_email env req) ->
  (code = 400 \/ code = 401) /\ jb_message b <> ""%string.
Proof.
  rewrite run_spec. unfold validate.
  destruct (parsed_fields JSON_parse (body req)).
  2,3: intros [[= <- <-]|[]]; split; [left; reflexivity|discriminate].
  destruct (safeParse _ _) as [vd|errs].
  2: intros [[= <- <-]|[]]; split; [left; reflexivity|discriminate].
  destruct (find disallowed (files_of req)) as [file|].
  { intros [[= <- <-]|[]]. split; [left; reflexivity|discriminate]. }
  intros [H|[H|H]]; try discriminate.
  destruct (verify_result env (transporter_of vd)).
  { destruct H as [[= <- <-]|[]]. split; [right; reflexivity|discriminate]. }
  exfalso. cbn in H. destruct H as [H|[H|[H|H]]]; try discriminate.
  apply in_app_or in H. destruct H as [H|[H|[H|[]]]]; try discriminate.
  assert (Hin : In (EvJson code b)
                   (filter is_json_answer (loop_events env vd (map to_attachment (files_of req))
                                                       0 (recipients vd))))
    by (apply filter_In; split; [exact H|reflexivity]).
  rewrite (proj1 (loop_no_answer env vd (map to_attachment (files_of req))
                                 (recipients vd) 0)) in Hin.
  destruct Hin.
Qed.

(** X16.  When the handler answers a request with a JSON body, the status
    code is 400 or 401, and a page that is given a body with that message
    shows one "Error" toast with exactly the handler's message, leaves
    every recipient pending and turns the sending flag off. *)
Theorem rejection_is_shown_with_its_message
  (client_parse : string -> json + thrown)
  (env : Env) (req : Request) (code : nat) (b : JsonBody)
  (response_body : json) (rs : list string) (p : Page) :
  In (EvJson code b) (run JSON_parse is_email env req) ->
  carries_message response_body (jb_message b) ->
  (code = 400 \/ code = 401)
  /\ send_and_show client_parse rs (inr (NotOk (Some response_body))) p
     = {| emailStatuses := Some (initialStatuses rs);
          isSending := false;
          toasts := toasts p ++ [ToastError (Err (jb_message b))] |}.
Proof.
  intros Hin (members & -> & Hm).
  destruct (answer_message _ _ _ _ Hin) as [Hc Hne].
  split; [exact Hc|].
  unfold send_and_show, handleSSEStream. cbn [member]. rewrite Hm.
  rewrite (make_error_message _ Hne). reflexivity.
Qed.

End Shown.

Lemma rejection_is_shown_with_its_message_witness :
  (401 = 400 \/ 401 = 401)
  /\ send_and_show sample_parse ["a@x.com"; "b@x.com"]
       (inr (NotOk (Some (JObj [("message", JStr (jb_message auth_failed_body))]))))
       {| emailStatuses := None; isSending := false; toasts := [] |}
     = {| emailStatuses := Some (initialStatuses ["a@x.com"; "b@x.com"]);
          isSending := false;
          toasts := [ToastError (Err (jb_message auth_failed_body))] |}.
Proof.
  apply (@rejection_is_shown_with_its_message sample_parse sample_is_email sample_parse
           env_bad_login sample_request 401 auth_failed_body
           (JObj [("message", JStr (jb_message auth_failed_body))])
           ["a@x.com"; "b@x.com"]
           {| emailStatuses := None; isSending := false; toasts := [] |}).
  - vm_compute. right. right. left. reflexivity.
  - exists [("message", JStr (jb_message auth_failed_body))]. split; reflexivity.
Defined.

(** ** From the handler's stream to the page's progress list *)

Lemma startsWith_app pre x : startsWith (pre ++ x) pre = true.
Proof.
  induction pre as [|c pre IH]; [destruct x; reflexivity|].
  cbn. rewrite Ascii.eqb_refl. exact IH.
Qed.

Lemma set_at_app (done rest : list json) x data :
  set_at (done ++ x :: rest) (List.length done) data = done ++ data :: rest.
Proof. induction done as [|d done IH]; [reflexivity|]. cbn. rewrite IH. reflexivity. Qed.

Lemma findIndex_first_pending r x rest : forall done k,
  Forall (other_entry r) done ->
  email_member x r ->
  findIndex (Some (JStr r)) (done ++ x :: rest) k = Some (Some (k + List.length done)).
Proof.
  induction done as [|d done IH]; intros k Hd (ms & -> & Hx).
  - cbn. rewrite Hx. cbn. rewrite String.eqb_refl, Nat.add_0_r. reflexivity.
  - inversion Hd as [|? ? (e & (ms' & -> & He) & Hne) Hd']; subst.
    cbn [app findIndex member]. rewrite He. cbn [strict_eq].
    destruct (String.eqb e r) eqn:E; [apply String.eqb_eq in E; congruence|].
    rewrite (IH (S k) Hd') by (exists ms; split; [reflexivity|exact Hx]).
    cbn. do 2 f_equal. lia.
Qed.

Lemma update_statuses_pending r data x done rest :
  Forall (other_entry r) done ->
  email_member x r ->
  email_member data r ->
  update_statuses data (done ++ x :: rest) = Some (done ++ data :: rest).
Proof.
  intros Hd Hx (ms & -> & Hm). unfold update_statuses.
  destruct (done ++ x :: rest) as [|y l] eqn:E; [destruct done; discriminate|].
  rewrite <- E. cbn [member]. rewrite Hm.
  rewrite (findIndex_first_pending rest 0 Hd Hx). cbn [Nat.add].
  rewrite set_at_app. reflexivity.
Qed.

Lemma status_json_email s : email_member (status_json s) (email s).
Proof.
  unfold status_json. eexists. split; [reflexivity|].
  destruct (error s); reflexivity.
Qed.

Lemma status_json_type s : member (Some (status_json s)) "type" = Some None.
Proof. unfold status_json. destruct (error s); reflexivity. Qed.

Lemma written_units_app a b :
  written_units (a ++ b) = written_units a ++ written_units b.
Proof.
  induction a as [|e a IH]; [reflexivity|].
  destruct e; cbn; rewrite IH; reflexivity.
Qed.

Section EndToEnd.

Variable JSON_parse : string -> json + thrown.
Variable JSON_stringify : json -> string.

Lemma split_stream_text us :
  Forall (survives JSON_parse JSON_stringify) us ->
  split_char nl (List.concat (map (wire JSON_stringify) us)) []
  = lines_of JSON_stringify us ++ [[]].
Proof.
  induction 1 as [|u us [Hnl _] _ IH]; [reflexivity|].
  cbn [map List.concat lines_of flat_map]. unfold wire at 1.
  rewrite <- !app_assoc.
  rewrite (app_assoc data_prefix).
  rewrite split_char_buffer.
  2:{ rewrite forallb_app. apply andb_true_iff. split; [reflexivity|exact Hnl]. }
  cbn [app split_char]. change (Ascii.eqb nl nl) with true. cbn iota.
  rewrite IH. reflexivity.
Qed.

Lemma process_data_line u st :
  survives JSON_parse JSON_stringify u ->
  process_line JSON_parse (data_prefix ++ of_string (JSON_stringify (unit_json u))) st
  = match u with
    | UStatus s =>
        Continue
          {| completed := completed st;
             serverError := serverError st;
             page := {| emailStatuses :=
                          match emailStatuses (page st) with
                          | Some prev => update_statuses (status_json s) prev
                          | None => None
                          end;
                        isSending := isSending (page st);
                        toasts := toasts (page st) |} |}
    | UComplete r =>
        Continue
          {| completed := true;
             serverError := serverError st;
             page := {| emailStatuses := emailStatuses (page st);
                        isSending := isSending (page st);
                        toasts := toasts (page st)
                                  ++ [ToastSent (Some (JNum (Z.of_nat (resp_totalSent r))))
                                                (Some (JNum (Z.of_nat (resp_totalFailed r))))] |} |}
    | UError msg =>
        Break {| completed := completed st;
                 serverError := Some (make_error (Some (JStr msg))
                                                 "Server error during email sending");
                 page := page st |}
    end.
Proof.
  intros [_ Hp]. unfold process_line. rewrite startsWith_app.
  replace (skipn 6 (data_prefix ++ of_string (JSON_stringify (unit_json u))))
    with (of_string (JSON_stringify (unit_json u))) by reflexivity.
  rewrite to_of_string, Hp.
  destruct u as [s|r|msg]; cbn [unit_json].
  - rewrite status_json_type. reflexivity.
  - reflexivity.
  - reflexivity.
Qed.

Lemma lines_of_app a b :
  lines_of JSON_stringify (a ++ b) = lines_of JSON_stringify a ++ lines_of JSON_stringify b.
Proof. apply flat_map_app. Qed.

Lemma process_unit_lines u us st :
  survives JSON_parse JSON_stringify u ->
  process_lines JSON_parse (lines_of JSON_stringify (u :: us)) st
  = match process_line JSON_parse
            (data_prefix ++ of_string (JSON_stringify (unit_json u))) st with
    | Continue st' => process_lines JSON_parse (lines_of JSON_stringify us) st'
    | halted => halted
    end.
Proof.
  intros _. cbn [lines_of flat_map app process_lines].
  destruct (process_line JSON_parse _ st); reflexivity.
Qed.

Section Loop.

Variable env : Env.
Variable vd : SendEmailRequest.
Variable atts : list Attachment.

Lemma loop_units rs : forall i,
  written_units (loop_events env vd atts i rs)
  = flat_map (fun s => [ UStatus {| email := email s; status := sending; error := None |};
                         UStatus s ])
             (loop_results env vd atts i rs).
Proof.
  induction rs as [|r rest IH]; intros i; [reflexivity|].
  cbn. rewrite IH, terminal_status_email. reflexivity.
Qed.

Lemma loop_results_emails rs : forall i,
  map email (loop_results env vd atts i rs) = rs.
Proof.
  induction rs as [|r rest IH]; intros i; [reflexivity|].
  cbn. rewrite IH, terminal_status_email. reflexivity.
Qed.

(** Reading the units of the recipients' loop turns the pending entries
    into the terminal statuses, one recipient after the other. *)
Lemma read_loop_units rs : forall i done st,
  NoDup rs ->
  Forall (fun s => exists e, email_member s e /\ ~ In e rs) done ->
  Forall (survives JSON_parse JSON_stringify) (written_units (loop_events env vd atts i rs)) ->
  emailStatuses (page st) = Some (done ++ initialStatuses rs) ->
  process_lines JSON_parse
    (lines_of JSON_stringify (written_units (loop_events env vd atts i rs))) st
  = Continue
      {| completed := completed st;
         serverError := serverError st;
         page := {| emailStatuses :=
                      Some (done ++ map status_json (loop_results env vd atts i rs));
                    isSending := isSending (page st);
                    toasts := toasts (page st) |} |}.
Proof.
  induction rs as [|r rest IH]; intros i done st Hnd Hdone Hs Hst.
  - cbn. cbn in Hst. rewrite <- Hst. destruct st as [c e [l s t]]. reflexivity.
  - cbn [loop_events recipient_events app written_units] in *.
    inversion Hs as [|? ? Hs1 Hs']; subst. inversion Hs' as [|? ? Hs2 Hs'']; subst.
    inversion Hnd as [|? ? Hnotin Hnd']; subst.
    assert (Hother : Forall (other_entry r) done).
    { eapply Forall_impl; [|exact Hdone]. cbn. intros s (e & He & Hn).
      exists e. split; [exact He|]. intros ->. apply Hn. left. reflexivity. }
    rewrite (process_unit_lines _ st Hs1), (process_data_line st Hs1).
    cbn [page emailStatuses]. rewrite Hst. cbn [initialStatuses map].
    rewrite (@update_statuses_pending r _ _ done _ Hother).
    2:{ eexists. split; reflexivity. }
    2:{ exact (status_json_email {| email := r; status := sending; error := None |}). }
    rewrite (process_unit_lines _ _ Hs2), (process_data_line _ Hs2).
    cbn [page emailStatuses completed serverError isSending toasts].
    rewrite (@update_statuses_pending r _ _ done _ Hother).
    2:{ exact (status_json_email {| email := r; status := sending; error := None |}). }
    2:{ pose proof (status_json_email (terminal_status env vd atts i r)) as H.
        rewrite terminal_status_email in H. exact H. }
    rewrite (IH (S i) (done ++ [status_json (terminal_status env vd atts i r)]) _ Hnd').
    + cbn [completed serverError page isSending toasts loop_results map].
      rewrite <- app_assoc. reflexivity.
    + apply Forall_app. split.
      * eapply Forall_impl; [|exact Hdone]. cbn. intros s (e & He & Hn).
        exists e. split; [exact He|]. intros Hin. apply Hn. right. exact Hin.
      * constructor; [|constructor]. exists r. split; [|exact Hnotin].
        pose proof (status_json_email (terminal_status env vd atts i r)) as H.
        rewrite terminal_status_email in H. exact H.
    + exact Hs''.
    + cbn [page emailStatuses]. rewrite <- app_assoc. reflexivity.
Qed.

End Loop.

Variable is_email : string -> bool.

(** X17.  A request the handler accepts and streams, for recipients that
    are all different, ends on the page as it ended on the server: when
    the text of the stream reaches the page whole, in whatever chunks, and
    each unit survives being written and read, the progress list is the
    list of the terminal statuses the handler wrote, in the order of the
    recipients, an "Emails Sent" toast shows the handler's two totals,
    nothing is reported as an error and the sending flag is off. *)
Theorem page_ends_as_the_server_did
  (env : Env) (req : Request) vd atts (cs : list text) (p : Page) :
  let tr := run JSON_parse is_email env req in
  validate JSON_parse is_email req = inr (vd, atts) ->
  verify_result env (transporter_of vd) = None ->
  NoDup (recipients vd) ->
  Forall (survives JSON_parse JSON_stringify) (written_units tr) ->
  List.concat cs = stream_text JSON_stringify tr ->
  send_and_show JSON_parse (recipients vd)
    (inr (Ok (Some {| chunks := cs; broken := None |}))) p
  = {| emailStatuses := Some (map status_json (outcomes tr));
       isSending := false;
       toasts := toasts p
                 ++ [ToastSent
                       (Some (JNum (Z.of_nat (count_status sent (outcomes tr)))))
                       (Some (JNum (Z.of_nat (count_status failed (outcomes tr)))))] |}.
Proof.
  intros tr Hv Ha Hnd Hs Hcs. subst tr.
  rewrite (@outcomes_accepted JSON_parse is_email env req vd atts Hv Ha).
  unfold send_and_show, handleSSEStream. cbn [chunks broken].
  rewrite read_loop_lines by reflexivity.
  rewrite Hcs. unfold stream_text. rewrite (split_stream_text Hs).
  rewrite removelast_last.
  revert Hs. rewrite (@run_accepted JSON_parse is_email env req vd atts Hv Ha).
  cbn [written_units sse_headers app]. rewrite written_units_app.
  cbn [written_units]. intros Hs.
  apply Forall_app in Hs. destruct Hs as [Hloop Hend].
  inversion Hend as [|? ? Hc _]; subst.
  rewrite lines_of_app.
  rewrite process_lines_app.
  rewrite (@read_loop_units env vd atts (recipients vd) 0 [] _ Hnd (Forall_nil _) Hloop)
    by reflexivity.
  rewrite (process_unit_lines _ _ Hc), (process_data_line _ Hc).
  reflexivity.
Qed.

End EndToEnd.

Lemma page_ends_as_the_server_did_witness :
  send_and_show wire_parse ["a@x.com"; "b@x.com"]
    (inr (Ok (Some {| chunks := sample_chunks; broken := None |})))
    {| emailStatuses := None; isSending := false; toasts := [] |}
  = {| emailStatuses :=
         Some [ JObj [("email", JStr "a@x.com"); ("status", JStr "sent")];
                JObj [("email", JStr "b@x.com"); ("status", JStr "failed");
                      ("error", JStr "Mailbox full")] ];
       isSending := false;
       toasts := [ToastSent (Some (JNum 1)) (Some (JNum 1))] |}.
Proof.
  refine (@page_ends_as_the_server_did wire_parse sample_stringify sample_is_email
            env_second_refused sample_request sample_validated [] sample_chunks
            {| emailStatuses := None; isSending := false; toasts := [] |}
            _ _ _ _ _).
  - vm_compute. reflexivity.
  - reflexivity.
  - vm_compute. repeat constructor; cbn; intuition discriminate.
  - vm_compute. repeat constructor.
  - vm_compute. reflexivity.
Defined.

(** ** From the form to the handler *)

Lemma z_string_min1_ok msg p s :
  s <> ""%string -> z_string [min1 msg] p (Some (JStr s)) = ParseSuccess s.
Proof. intros H. destruct s; [congruence|reflexivity]. Qed.

Lemma z_string_email_ok (is_email : string -> bool) p s :
  is_email s = true -> z_string [email_check is_email] p (Some (JStr s)) = ParseSuccess s.
Proof. intros H. cbn. unfold email_check. rewrite H. reflexivity. Qed.

Lemma parse_items_ok (is_email : string -> bool) p l : forall i,
  Forall (fun a => is_email a = true) l ->
  parse_items (z_string [email_check is_email]) p i (map JStr l) = ParseSuccess l.
Proof.
  induction l as [|a l IH]; intros i H; [reflexivity|].
  inversion H as [|? ? Ha Hl]; subst.
  cbn [map parse_items]. rewrite (z_string_email_ok _ _ _ Ha), (IH _ Hl). reflexivity.
Qed.

Lemma z_array_ok (is_email : string -> bool) min_msg p l :
  Forall (fun a => is_email a = true) l ->
  l <> [] ->
  z_array (z_string [email_check is_email]) min_msg p (Some (JArr (map JStr l)))
  = ParseSuccess l.
Proof.
  intros H Hne. unfold z_array. rewrite (parse_items_ok _ _ _ H).
  destruct l; [congruence|]. destruct min_msg; reflexivity.
Qed.

Lemma form_fields values data :
  safeParse emailFormSchema values = ParseSuccess data ->
  smtpUsername data <> ""%string /\ smtpPassword data <> ""%string
  /\ form_subject data <> ""%string /\ form_htmlBody data <> ""%string.
Proof.
  unfold safeParse, emailFormSchema, z_object, field.
  destruct values; try discriminate. intros H.
  apply ap_success in H. destruct H as (g7 & a7 & H & _ & ->).
  apply ap_success in H. destruct H as (g6 & a6 & H & _ & ->).
  apply ap_success in H. destruct H as (g5 & a5 & H & _ & ->).
  apply ap_success in H. destruct H as (g4 & a4 & H & E4 & ->).
  apply ap_success in H. destruct H as (g3 & a3 & H & E3 & ->).
  apply ap_success in H. destruct H as (g2 & a2 & H & E2 & ->).
  apply ap_success in H. destruct H as (g1 & a1 & H & E1 & ->).
  injection H as <-. cbn.
  apply z_string_min1 in E1, E2, E3, E4. auto.
Qed.

Lemma map_to_string_json (l : list text) :
  map (fun a => JStr (to_string a)) l = map JStr (map to_string l).
Proof. rewrite map_map. reflexivity. Qed.

Lemma find_disallowed_none fs :
  forallb allowed fs = true -> find disallowed fs = None.
Proof.
  induction fs as [|f fs IH]; [reflexivity|]. cbn [forallb find].
  intros H. apply andb_true_iff in H. destruct H as [Hf H].
  unfold disallowed at 1. fold (allowed f). rewrite Hf. cbn [negb]. apply IH, H.
Qed.

(** *** What is posted arrives *)

Lemma crlf_nonempty (c : ascii) (s : text) : crlf (c :: s) <> [].
Proof.
  cbn [crlf]. destruct (Ascii.eqb c cr).
  - destruct s as [|c' s]; [discriminate|]. destruct (Ascii.eqb c' nl); discriminate.
  - destruct (Ascii.eqb c nl); discriminate.
Qed.

Lemma posted_value_nonempty (s : string) : s <> ""%string -> posted_value s <> ""%string.
Proof.
  destruct s as [|c s]; [congruence|]. intros _. unfold posted_value, of_string, to_string.
  cbn [list_ascii_of_string].
  pose proof (crlf_nonempty c (list_ascii_of_string s)) as H.
  destruct (crlf (c :: list_ascii_of_string s)); [congruence|discriminate].
Qed.

Lemma fold_left_append (fs : list MulterFile) : forall formData,
  fold_left (fun formData file => append formData "attachments" (FormFile file)) fs formData
  = formData ++ map file_entry fs.
Proof.
  induction fs as [|f fs IH]; intros formData; [symmetry; apply app_nil_r|].
  cbn [fold_left map]. rewrite IH. unfold append. rewrite <- app_assoc. reflexivity.
Qed.

Lemma form_string_files fs name : form_string (map file_entry fs) name = None.
Proof. induction fs as [|f fs IH]; [reflexivity|exact IH]. Qed.

Lemma form_strings_files fs : form_strings (map file_entry fs) = [].
Proof. induction fs as [|f fs IH]; [reflexivity|exact IH]. Qed.

Lemma form_files_files fs :
  form_files (map file_entry fs) = map (fun f => ("attachments", f)) fs.
Proof. induction fs as [|f fs IH]; [reflexivity|]. cbn. rewrite IH. reflexivity. Qed.

Lemma form_files_strings (l : list (string * string)) rest :
  form_files (map (fun e => (fst e, FormString (snd e))) l ++ rest) = form_files rest.
Proof. induction l as [|[k v] l IH]; [reflexivity|exact IH]. Qed.

Lemma forallb_of_map {A B} (f : B -> bool) (g : A -> B) (l : list A) :
  forallb f (map g l) = forallb (fun x => f (g x)) l.
Proof. induction l as [|x l IH]; [reflexivity|]. cbn. rewrite IH. reflexivity. Qed.

Section Form.

Variable JSON_parse : string -> json + thrown.
Variable JSON_stringify : json -> string.
Variable is_email : string -> bool.
Variable refuses_at_limit : bool.
Variable field_fits : string -> bool.

Lemma onSubmit_entries data rs fs formData :
  onSubmit JSON_stringify data rs fs = Some formData ->
  rs <> []
  /\ formData
     = ("smtpConfig", FormString (JSON_stringify (client_smtpConfig data)))
       :: ("recipients", FormString (stringify_addresses JSON_stringify rs))
       :: ("subject", FormString (form_subject data))
       :: ("htmlBody", FormString (form_htmlBody data))
       :: ("textBody", FormString (String_replace_tags (form_htmlBody data)))
       :: addresses_entry JSON_stringify "cc" (ccEmails data)
       ++ addresses_entry JSON_stringify "bcc" (bccEmails data)
       ++ map file_entry fs.
Proof.
  unfold onSubmit. destruct rs as [|r rs]; [discriminate|].
  intros [= <-]. split; [discriminate|].
  fold (ccEmails data). fold (bccEmails data).
  rewrite fold_left_append. unfold append, addresses_entry.
  destruct (ccEmails data) as [|c cs]; destruct (bccEmails data) as [|b bs];
    cbn [List.length Nat.ltb Nat.leb app]; rewrite <- ?app_assoc; reflexivity.
Qed.

Lemma optional_addresses_ok p (l : list text) :
  Forall (fun a => is_email (to_string a) = true) l ->
  addressesSchema is_email p
    (match l with [] => None | _ :: _ => Some (addresses_json l) end)
  = ParseSuccess (posted_addresses l).
Proof.
  intros H. destruct l as [|a l]; [reflexivity|].
  unfold addressesSchema, z_optional, addresses_json, posted_addresses.
  rewrite map_to_string_json, z_array_ok; [reflexivity| |discriminate].
  apply Forall_map. exact H.
Qed.

(** The [cc] or [bcc] field of the request, read by the handler. *)
Lemma posted_field (l : list text) :
  round_trips JSON_parse JSON_stringify (addresses_json l) ->
  (if truthy (posted_addresses_text JSON_stringify l)
   then bind (JSON_parse_m JSON_parse (posted_addresses_text JSON_stringify l)) (fun v => ret (Some v))
   else ret None) init_state
  = (Normal (match l with [] => None | _ :: _ => Some (addresses_json l) end), init_state).
Proof.
  intros [Hne Hp]. destruct l as [|a l]; [reflexivity|].
  cbn [posted_addresses_text truthy]. unfold stringify_addresses.
  fold (addresses_json (a :: l)).
  destruct (String.eqb (posted_value (JSON_stringify (addresses_json (a :: l)))) "") eqn:E;
    [apply String.eqb_eq in E; congruence|].
  cbn [negb]. unfold bind, JSON_parse_m. rewrite Hp. reflexivity.
Qed.

Lemma posted_request_validated values data rs fs :
  safeParse emailFormSchema values = ParseSuccess data ->
  rs <> [] ->
  Forall (round_trips JSON_parse JSON_stringify)
         [ client_smtpConfig data; addresses_json rs;
           addresses_json (ccEmails data); addresses_json (bccEmails data) ] ->
  is_email "crmsupport@legacylifespaces.com" = true ->
  Forall (fun a => is_email (to_string a) = true)
         (rs ++ ccEmails data ++ bccEmails data) ->
  forallb allowed fs = true ->
  validate JSON_parse is_email (posted_request JSON_stringify data rs fs)
  = inr (validated_form data rs, map to_attachment fs).
Proof.
  intros Hform Hrs Hrt Hfixed Hmail Hfiles.
  destruct (form_fields _ Hform) as (Hu & Hp & Hs & Hb).
  apply posted_value_nonempty in Hs, Hb.
  inversion Hrt as [|? ? [_ Rc] Hrt1]; subst.
  inversion Hrt1 as [|? ? [_ Rr] Hrt2]; subst.
  inversion Hrt2 as [|? ? Rcc Hrt3]; subst.
  inversion Hrt3 as [|? ? Rbcc _]; subst.
  apply Forall_app in Hmail. destruct Hmail as [Mr Mrest].
  apply Forall_app in Mrest. destruct Mrest as [Mcc Mbcc].
  unfold validate, parsed_fields, parse_fields, posted_request.
  cbn [body files files_of].
  cbn [smtpConfigStr recipientsStr ccStr bccStr body_subject body_htmlBody body_textBody].
  unfold bind at 1. unfold JSON_parse_m at 1. rewrite Rc. unfold ret at 1.
  unfold bind at 1. unfold JSON_parse_m at 1. unfold stringify_addresses at 1.
  fold (addresses_json rs). rewrite Rr. unfold ret at 1.
  unfold bind at 1. rewrite (posted_field Rcc).
  unfold bind at 1. rewrite (posted_field Rbcc).
  cbn [ret fst].
  rewrite (find_disallowed_none _ Hfiles).
  match goal with
  | |- context [safeParse ?sch ?v] =>
      assert (Hsafe : safeParse sch v = ParseSuccess (validated_form data rs))
  end.
  { pose proof (optional_addresses_ok [PKey "cc"] Mcc) as Hcc.
    pose proof (optional_addresses_ok [PKey "bcc"] Mbcc) as Hbcc.
    unfold addressesSchema in Hcc, Hbcc.
    unfold safeParse, sendEmailRequestSchema, z_object, field, requestData.
    cbn [body_subject body_htmlBody body_textBody option_map].
    assert (Hcfg : smtpConfigSchema is_email [PKey "smtpConfig"]
                     (Some (client_smtpConfig data))
                   = ParseSuccess (smtpConfig (validated_form data rs))).
    { unfold smtpConfigSchema, z_object, field, client_smtpConfig.
      cbn [prop String.eqb Ascii.eqb Bool.eqb app z_default].
      rewrite (z_string_min1_ok _ _ Hu), (z_string_min1_ok _ _ Hp).
      rewrite (z_string_email_ok _ _ _ Hfixed). reflexivity. }
    assert (Hrecips : z_array (z_string [email_check is_email])
                        (Some "At least one recipient is required"%string)
                        [PKey "recipients"] (Some (addresses_json rs))
                      = ParseSuccess (map to_string rs)).
    { unfold addresses_json. rewrite map_to_string_json.
      apply z_array_ok; [apply Forall_map; exact Mr|].
      destruct rs; [congruence|discriminate]. }
    destruct (ccEmails data) as [|c0 cs] eqn:Ecc;
      destruct (bccEmails data) as [|b0 bs] eqn:Ebcc;
      cbn [object_literal prop String.eqb Ascii.eqb Bool.eqb app];
      rewrite Hcfg, Hrecips, (z_string_min1_ok _ _ Hs), (z_string_min1_ok _ _ Hb);
      try rewrite Hcc; try rewrite Hbcc;
      unfold validated_form; rewrite Ecc, Ebcc; reflexivity. }
  rewrite Hsafe. reflexivity.
Qed.

Lemma form_files_entries data rs fs formData :
  onSubmit JSON_stringify data rs fs = Some formData ->
  form_files formData = map (fun f => ("attachments", f)) fs.
Proof.
  intros H. apply onSubmit_entries in H. destruct H as [_ ->].
  cbn [form_files]. unfold addresses_entry.
  destruct (ccEmails data); destruct (bccEmails data); cbn [app form_files];
    apply form_files_files.
Qed.

Lemma filter_named fs :
  forallb named fs = true ->
  filter (fun nf : string * MulterFile => named (snd nf))
         (map (fun f => ("attachments", f)) fs)
  = map (fun f => ("attachments", f)) fs.
Proof.
  induction fs as [|f fs IH]; [reflexivity|]. cbn [forallb map filter snd].
  intros H. apply andb_true_iff in H. destruct H as [Hf H].
  rewrite Hf, (IH H). reflexivity.
Qed.

Lemma upload_posted data rs fs formData :
  onSubmit JSON_stringify data rs fs = Some formData ->
  forallb named fs = true ->
  upload_array refuses_at_limit field_fits formData
  = if (List.length fs <=? maxCount)
       && forallb (file_fits refuses_at_limit) fs
       && forallb field_fits (form_strings formData)
    then Some (posted_request JSON_stringify data rs fs) else None.
Proof.
  intros H Hnamed. unfold upload_array.
  rewrite (@form_files_entries data rs fs formData H), (filter_named _ Hnamed).
  rewrite !forallb_of_map, length_map, map_map. cbn [fst snd]. rewrite map_id.
  replace (forallb (fun _ : MulterFile => String.eqb "attachments" "attachments") fs)
    with true by (clear H Hnamed; induction fs as [|f l IH]; [reflexivity|exact IH]).
  cbn [andb].
  destruct ((List.length fs <=? maxCount) && forallb (file_fits refuses_at_limit) fs
            && forallb field_fits (form_strings formData)); [|reflexivity].
  apply onSubmit_entries in H. destruct H as [_ ->].
  unfold posted_request, posted_addresses_text, addresses_entry. do 2 f_equal.
  destruct (ccEmails data); destruct (bccEmails data);
    cbn [app form_string String.eqb Ascii.eqb Bool.eqb];
    rewrite ?form_string_files; reflexivity.
Qed.

(** X18.  A form that passes the page's own check is posted by
    [onSubmit]; when it has at most ten files, each within the size
    limit, and string values within the upload library's limits, the
    upload middleware calls the handler, and the handler accepts the
    request as it stands: it is validated to the form's credentials, the
    fixed host, port and sender, the page's recipient, cc and bcc lists,
    and the subject, body and plain text of the form as they are posted
    (line breaks written as CR LF), provided the files have a name and
    are of allowed types, the JSON texts of the request are read back as
    written and the
    server's e-mail test accepts the fixed sender and every address the
    page found.  With more than ten files, or a file beyond the size
    limit, the middleware fails and the handler is not called. *)
Theorem posted_form_is_accepted
  (values : json) (data : EmailFormData) (rs : list text)
  (fs : list MulterFile) (formData : FormData) :
  safeParse emailFormSchema values = ParseSuccess data ->
  onSubmit JSON_stringify data rs fs = Some formData ->
  Forall (round_trips JSON_parse JSON_stringify)
         [ client_smtpConfig data; addresses_json rs;
           addresses_json (ccEmails data); addresses_json (bccEmails data) ] ->
  is_email "crmsupport@legacylifespaces.com" = true ->
  Forall (fun a => is_email (to_string a) = true)
         (rs ++ ccEmails data ++ bccEmails data) ->
  forallb allowed fs = true ->
  forallb named fs = true ->
  (List.length fs <= maxCount ->
   forallb (file_fits refuses_at_limit) fs = true ->
   forallb field_fits (form_strings formData) = true ->
   exists req,
     upload_array refuses_at_limit field_fits formData = Some req
     /\ validate JSON_parse is_email req
        = inr (validated_form data rs, map to_attachment fs))
  /\ (maxCount < List.length fs \/ forallb (file_fits refuses_at_limit) fs = false ->
      upload_array refuses_at_limit field_fits formData = None).
Proof.
  intros Hform Hsub Hrt Hfixed Hmail Hfiles Hnamed.
  rewrite (@upload_posted data rs fs formData Hsub Hnamed).
  split.
  - intros Hcount Hfit Hfields.
    apply Nat.leb_le in Hcount. rewrite Hcount, Hfit, Hfields. cbn [andb].
    exists (posted_request JSON_stringify data rs fs). split; [reflexivity|].
    apply (@posted_request_validated values); try assumption.
    apply onSubmit_entries in Hsub. apply Hsub.
  - intros [Hmany|Hbig].
    + apply Nat.leb_gt in Hmany. rewrite Hmany. reflexivity.
    + rewrite Hbig, andb_false_r. reflexivity.
Qed.

End Form.

Lemma posted_form_is_accepted_witness :
  exists req,
    upload_array true sample_field_fits sample_posted = Some req
    /\ validate form_parse sample_is_email req
       = inr (validated_form sample_form sample_form_recipients, [to_attachment pdf_file]).
Proof.
  refine (proj1 (@posted_form_is_accepted form_parse sample_stringify sample_is_email
                   true sample_field_fits sample_form_values sample_form
                   sample_form_recipients [pdf_file] sample_posted _ _ _ _ _ _ _) _ _ _).
  - vm_compute. reflexivity.
  - vm_compute. reflexivity.
  - repeat (apply Forall_cons;
            [split; [vm_compute; discriminate|vm_compute; reflexivity]|]).
    apply Forall_nil.
  - vm_compute. reflexivity.
  - vm_compute. repeat constructor.
  - reflexivity.
  - reflexivity.
  - unfold maxCount. cbn. lia.
  - reflexivity.
  - vm_compute. reflexivity.
Defined.

(** ** One transporter for a batch *)

(** X19.  A validated request makes exactly one transporter, first of
    all, and verifies it once, before anything else; after that the
    handler neither makes nor verifies a transporter again, whatever the
    mail service answers, and every message of the batch is handed to
    that one transporter. *)
Theorem transporter_made_once_and_shared
  (JSON_parse : string -> json + thrown) (is_email : string -> bool)
  (env : Env) (req : Request) (vd : SendEmailRequest) (atts : list Attachment)
  (Hvalid : validate JSON_parse is_email req = inr (vd, atts)) :
  exists rest,
    run JSON_parse is_email env req
    = EvCreateTransport (transporter_of vd) :: EvVerify (transporter_of vd) :: rest
    /\ forall e, In e rest -> within_session (transporter_of vd) e.
Proof.
  rewrite run_spec, Hvalid. eexists. split; [reflexivity|].
  intros e He. destruct (verify_result env (transporter_of vd)).
  - destruct He as [<-|[]]. exact I.
  - cbn in He. destruct He as [<-|[<-|[<-|He]]]; try exact I.
    apply in_app_or in He. destruct He as [He|[<-|[<-|[]]]]; try exact I.
    apply (loop_within_session _ _ _ _ _ _ He).
Qed.

Lemma transporter_made_once_and_shared_witness :
  exists rest,
    run sample_parse sample_is_email (env_reject 0 (ErrorObj "Mailbox full")) sample_request
    = EvCreateTransport (transporter_of sample_validated)
      :: EvVerify (transporter_of sample_validated) :: rest
    /\ forall e, In e rest -> within_session (transporter_of sample_validated) e.
Proof.
  exact (@transporter_made_once_and_shared sample_parse sample_is_email
           (env_reject 0 (ErrorObj "Mailbox full")) sample_request sample_validated []
           eq_refl).
Defined.
